(** * Digital Legacy encryption / decryption scripts: a shallow embedding

    The development follows [src/internals/scripts/decrypt.py] and
    [src/internals/scripts/encrypt.py].  Python strings are modelled as
    [string] whose characters are the code points below 256; the console,
    the file dialogs, the file system and the three external tools
    ([age], [age-keygen], [age-plugin-sss]) are an explicit world that the
    scripts read and update.  Of the console output the lines that report an
    error or a result are recorded; prompts, banners, spinners, sleeps and
    the clearing of the screen are left out, except where they change the
    control flow.  Python errors keep their class and, for their text, the
    path or the message the scripts print. *)

From stdpp Require Import gmap strings list fin_maps pretty.
From Stdlib Require Import ZArith Ascii String.

Open Scope string_scope.
Open Scope list_scope.
Open Scope Z_scope.

(** ** Python string primitives *)

Module Py.

Definition code (c : ascii) : N := N_of_ascii c.

Definition in_range (lo hi : N) (c : ascii) : bool :=
  ((lo <=? code c) && (code c <=? hi))%N.

(** [str.isspace] on one character, which is also the class [\s] of [re]
    on [str] patterns. *)
Definition isspace (c : ascii) : bool :=
  in_range 9 13 c || in_range 28 32 c || (code c =? 133)%N || (code c =? 160)%N.

(** The class [\d]: decimal digits. *)
Definition isdecimal (c : ascii) : bool := in_range 48 57 c.

(** [str.isdigit] on one character: the decimal digits and the
    superscript digits, which [int] does not accept. *)
Definition isdigit_char (c : ascii) : bool :=
  isdecimal c || (code c =? 178)%N || (code c =? 179)%N || (code c =? 185)%N.

Definition isupper_ascii (c : ascii) : bool := in_range 65 90 c.
Definition islower_ascii (c : ascii) : bool := in_range 97 122 c.

Definition nl_char : ascii := "010"%char.
Definition nl : string := String nl_char "".

Fixpoint all_chars (p : ascii → bool) (s : string) : bool :=
  match s with
  | "" => true
  | String c s' => p c && all_chars p s'
  end.

(** [s.isdigit()] *)
Definition isdigit (s : string) : bool :=
  negb (String.eqb s "") && all_chars isdigit_char s.

Fixpoint int_digits (acc : Z) (s : string) : option Z :=
  match s with
  | "" => Some acc
  | String c s' =>
      if isdecimal c
      then int_digits (10 * acc + Z.of_N (code c - 48)) s'
      else None
  end.

(** [sys.get_int_max_str_digits()], as the interpreter sets it at its start. *)
Definition int_max_str_digits : Z := 4300.

(** [int(s)] on the strings the scripts pass to it (runs of [\d] and
    strings that passed [isdigit]); [None] stands for [ValueError], which
    is also what a text of more digits than the interpreter converts gets. *)
Definition int (s : string) : option Z :=
  match s with
  | "" => None
  | _ => if Z.of_nat (String.length s) <=? int_max_str_digits
         then int_digits 0 s
         else None
  end.

(** [str(n)] *)
Definition str (n : Z) : string := pretty n.

Fixpoint lstrip (s : string) : string :=
  match s with
  | "" => ""
  | String c s' => if isspace c then lstrip s' else s
  end.

(** [s.strip()] *)
Definition strip (s : string) : string :=
  String.rev (lstrip (String.rev (lstrip s))).

Definition lower_char (c : ascii) : ascii :=
  if isupper_ascii c then ascii_of_N (code c + 32) else c.

(** [s.lower()]; only the letters A to Z matter to the comparisons made. *)
Fixpoint lower (s : string) : string :=
  match s with
  | "" => ""
  | String c s' => String (lower_char c) (lower s')
  end.

(** [s.startswith(p)] *)
Definition startswith (p s : string) : bool := String.prefix p s.

(** [sub in s] *)
Fixpoint contains (sub s : string) : bool :=
  String.prefix sub s ||
  match s with
  | "" => false
  | String _ s' => contains sub s'
  end.

Fixpoint split_go (cur : string) (s : string) : list string :=
  match s with
  | "" => [String.rev cur]
  | String c s' =>
      if Ascii.eqb c nl_char
      then String.rev cur :: split_go "" s'
      else split_go (String c cur) s'
  end.

(** [s.split('\n')] *)
Definition split_lines (s : string) : list string := split_go "" s.

(** [s in l] for a list of strings. *)
Definition mem (s : string) (l : list string) : bool := bool_decide (s ∈ l).

End Py.

(** ** The fragment of [re] the scripts use

    A backtracking matcher in continuation-passing style: alternatives are
    tried in the order [re] tries them (greedy repetition first), and at
    most one capturing group is recorded. *)

Module Re.

Inductive regex :=
| Lit (s : string)              (* the characters of [s] *)
| Cls (p : ascii → bool)        (* one character of a class *)
| Seq (r1 r2 : regex)
| Star (r : regex)              (* r*, greedy *)
| Plus (r : regex)              (* r+, greedy *)
| Opt (r : regex)               (* r?, greedy *)
| Group (r : regex)             (* ( r ), group 1 *)
| Bol                           (* ^ *)
| Eol.                          (* $ *)

(** A position in the subject: the character before it, what is left,
    and the text of group 1 when it has been closed. *)
Record pos := { prev : option ascii; rest : string; group1 : option string }.

Definition advance (c : ascii) (s : string) (st : pos) : pos :=
  {| prev := Some c; rest := s; group1 := group1 st |}.

Fixpoint lit (s : string) (st : pos) : option pos :=
  match s with
  | "" => Some st
  | String c s' =>
      match rest st with
      | String d t => if Ascii.eqb c d then lit s' (advance d t st) else None
      | "" => None
      end
  end.

Fixpoint take (n : nat) (s : string) : string :=
  match n, s with
  | S n', String c s' => String c (take n' s')
  | _, _ => ""
  end.

Definition close_group (st0 st : pos) : pos :=
  {| prev := prev st; rest := rest st;
     group1 := Some (take (String.length (rest st0) - String.length (rest st))
                          (rest st0)) |}.

Definition at_bol (multiline : bool) (st : pos) : bool :=
  match prev st with
  | None => true
  | Some c => multiline && Ascii.eqb c Py.nl_char
  end.

Definition at_eol (multiline : bool) (st : pos) : bool :=
  match rest st with
  | "" => true
  | String c s => Ascii.eqb c Py.nl_char && (multiline || String.eqb s "")
  end.

Section Matcher.
Variable multiline : bool.

Definition cont := pos → option pos.

Fixpoint star (body : pos → cont → option pos) (fuel : nat)
    (st : pos) (k : cont) : option pos :=
  match fuel with
  | O => k st
  | S fuel' =>
      match body st (λ st',
              if (String.length (rest st') <? String.length (rest st))%nat
              then star body fuel' st' k else None) with
      | Some r => Some r
      | None => k st
      end
  end.

Fixpoint m (r : regex) (st : pos) (k : cont) : option pos :=
  match r with
  | Lit s => match lit s st with Some st' => k st' | None => None end
  | Cls p =>
      match rest st with
      | String c s => if p c then k (advance c s st) else None
      | "" => None
      end
  | Seq r1 r2 => m r1 st (λ st1, m r2 st1 k)
  | Star r1 => star (m r1) (String.length (rest st)) st k
  | Plus r1 =>
      m r1 st (λ st1, star (m r1) (String.length (rest st1)) st1 k)
  | Opt r1 =>
      match m r1 st k with
      | Some res => Some res
      | None => k st
      end
  | Group r1 => m r1 st (λ st1, k (close_group st st1))
  | Bol => if at_bol multiline st then k st else None
  | Eol => if at_eol multiline st then k st else None
  end.

(** Try the pattern at this position, then at every later one. *)
Fixpoint scan (r : regex) (p : option ascii) (s : string) : option pos :=
  match m r {| prev := p; rest := s; group1 := None |} Some with
  | Some st => Some st
  | None =>
      match s with
      | "" => None
      | String c s' => scan r (Some c) s'
      end
  end.

End Matcher.

(** [re.search(r, s)] and [re.search(r, s, re.MULTILINE)]. *)
Definition search (multiline : bool) (r : regex) (s : string) : option pos :=
  scan multiline r None s.

(** [re.match(r, s)]: at the start of the subject only. *)
Definition match_ (r : regex) (s : string) : option pos :=
  m false r {| prev := None; rest := s; group1 := None |} Some.

(** [mo.group(1)] *)
Definition group (mo : pos) : string := default "" (group1 mo).

Definition any_but_nl (c : ascii) : bool := negb (Ascii.eqb c Py.nl_char).
Definition nonspace (c : ascii) : bool := negb (Py.isspace c).
Definition upper_or_digit (c : ascii) : bool :=
  Py.isupper_ascii c || Py.isdecimal c.
Definition lower_or_digit (c : ascii) : bool :=
  Py.islower_ascii c || Py.isdecimal c.

Fixpoint seq (rs : list regex) : regex :=
  match rs with
  | [] => Lit ""
  | [r] => r
  | r :: rs' => Seq r (seq rs')
  end.

(** r'threshold:\s*(\d+)' *)
Definition threshold_re : regex :=
  seq [Lit "threshold:"; Star (Cls Py.isspace); Group (Plus (Cls Py.isdecimal))].

(** r'shares:\s*\n((?:\s*-\s*age1.*\n?)+)' *)
Definition shares_re : regex :=
  seq [Lit "shares:"; Star (Cls Py.isspace); Lit Py.nl;
       Group (Plus (seq [Star (Cls Py.isspace); Lit "-"; Star (Cls Py.isspace);
                         Lit "age1"; Star (Cls any_but_nl); Opt (Lit Py.nl)]))].

(** r'-\s*(age1\S+)' *)
Definition share_line_re : regex :=
  seq [Lit "-"; Star (Cls Py.isspace);
       Group (Seq (Lit "age1") (Plus (Cls nonspace)))].

(** r'^(AGE-SECRET-KEY-[A-Z0-9]+)$' *)
Definition secret_key_re : regex :=
  seq [Bol; Group (Seq (Lit "AGE-SECRET-KEY-") (Plus (Cls upper_or_digit))); Eol].

(** r'^age1[a-z0-9]+$' *)
Definition public_key_re : regex :=
  seq [Bol; Lit "age1"; Plus (Cls lower_or_digit); Eol].

(** r'# public key: (age1\S+)' *)
Definition keygen_public_re : regex :=
  Seq (Lit "# public key: ") (Group (Seq (Lit "age1") (Plus (Cls nonspace)))).

(** r'(AGE-SECRET-KEY-\S+)' *)
Definition keygen_secret_re : regex :=
  Group (Seq (Lit "AGE-SECRET-KEY-") (Plus (Cls nonspace))).

End Re.

(** What it means for a pattern to match between two positions, whatever
    the order in which the matcher tries things. *)
Inductive matches (multiline : bool) : Re.regex → Re.pos → Re.pos → Prop :=
| M_Lit s st st' : Re.lit s st = Some st' → matches multiline (Re.Lit s) st st'
| M_Cls (p : ascii → bool) c s st :
    Re.rest st = String c s → p c = true →
    matches multiline (Re.Cls p) st (Re.advance c s st)
| M_Seq r1 r2 st st1 st2 :
    matches multiline r1 st st1 → matches multiline r2 st1 st2 →
    matches multiline (Re.Seq r1 r2) st st2
| M_Star_stop r st : matches multiline (Re.Star r) st st
| M_Star_more r st st1 st2 :
    matches multiline r st st1 →
    (String.length (Re.rest st1) < String.length (Re.rest st))%nat →
    matches multiline (Re.Star r) st1 st2 →
    matches multiline (Re.Star r) st st2
| M_Plus r st st1 st2 :
    matches multiline r st st1 → matches multiline (Re.Star r) st1 st2 →
    matches multiline (Re.Plus r) st st2
| M_Opt_some r st st' : matches multiline r st st' → matches multiline (Re.Opt r) st st'
| M_Opt_none r st : matches multiline (Re.Opt r) st st
| M_Group r st st' :
    matches multiline r st st' →
    matches multiline (Re.Group r) st (Re.close_group st st')
| M_Bol st : Re.at_bol multiline st = true → matches multiline Re.Bol st st
| M_Eol st : Re.at_eol multiline st = true → matches multiline Re.Eol st st.

(** ** Exceptions, the world and the session monad *)

Inductive exn :=
| DecryptionError (msg : string)
| EncryptionError (msg : string)
| SubprocessError (msg : string)       (* subprocess.SubprocessError *)
| PyException (cls msg : string)       (* any other subclass of Exception *)
| KeyboardInterrupt.                   (* a BaseException *)

(** [str(e)] *)
Definition exn_text (e : exn) : string :=
  match e with
  | DecryptionError m | EncryptionError m | SubprocessError m => m
  | PyException _ m => m
  | KeyboardInterrupt => ""
  end.

(** [except Exception] *)
Definition is_Exception (e : exn) : bool :=
  match e with KeyboardInterrupt => false | _ => true end.

(** What one call of [input()] finds on the console. *)
Inductive console_event :=
| Line (text : string)
| CtrlC                                 (* KeyboardInterrupt *)
| Eof.                                  (* EOFError *)

(** What one use of the tkinter file dialog does. *)
Inductive dialog_event :=
| TkInitError (msg : string)            (* tk.Tk() raised *)
| DialogError (msg : string)            (* askopenfilename raised *)
| Selected (path : string).             (* its value; empty when cancelled *)

Inductive node := File (content : string) | Dir.

Record completed := { returncode : Z; stdout : string; stderr : string }.

(** [subprocess.Popen(...)] followed by [communicate()]. *)
Inductive spawn :=
| Ran (c : completed)
| SpawnSubprocessError (msg : string)
| SpawnOSError (msg : string).

Inductive event :=
| Printed (text : string)
| Input
| Dialog
| ReadText (path : string)
| Wrote (path : string)
| Mkdir (path : string)
| Unlink (path : string)
| Rmtree (path : string)
| Popen (argv : list string)
| OpenFile (path : string).

Record world := {
  fs : gmap string node;
  console : list console_event;
  dialogs : list dialog_event;
  log : list event;
}.

Inductive outcome (S A : Type) :=
| Return (a : A) (s : S)
| Raise (e : exn) (s : S)
| Blocked (s : S).                      (* waiting for the user for ever *)
Arguments Return {S A} a s.
Arguments Raise {S A} e s.
Arguments Blocked {S A} s.

Definition M (S A : Type) : Type := S → outcome S A.

Definition ret {S A} (a : A) : M S A := λ s, Return a s.
Definition raise {S A} (e : exn) : M S A := λ s, Raise e s.
Definition bind {S A B} (c : M S A) (k : A → M S B) : M S B :=
  λ s, match c s with
       | Return a s' => k a s'
       | Raise e s' => Raise e s'
       | Blocked s' => Blocked s'
       end.

Global Instance M_ret {S} : MRet (M S) := λ A, ret.
Global Instance M_bind {S} : MBind (M S) := λ A B k c, bind c k.

(** [try: c  except <the classes h accepts> as e: h e] *)
Definition try_except {S A} (c : M S A) (h : exn → option (M S A)) : M S A :=
  λ s, match c s with
       | Raise e s' => match h e with Some k => k s' | None => Raise e s' end
       | r => r
       end.

(** [try: c  finally: f] *)
Definition try_finally {S A} (c : M S A) (f : M S ()) : M S A :=
  λ s, match c s with
       | Return a s' => bind f (λ _, ret a) s'
       | Raise e s' => bind f (λ _, raise e) s'
       | Blocked s' => Blocked s'
       end.

(** [try: c  except DecryptionError as e: ...], with the handler left to
    the caller: the message of the error that was caught, or the value. *)
Definition catching {S A} (cls : exn → option string) (c : M S A)
    : M S (A + string) :=
  try_except (bind c (λ a, ret (inl a)))
             (λ e, match cls e with Some m => Some (ret (inr m)) | None => None end).

Definition with_fs (f : gmap string node) (w : world) : world :=
  {| fs := f; console := console w; dialogs := dialogs w; log := log w |}.
Definition with_console (c : list console_event) (w : world) : world :=
  {| fs := fs w; console := c; dialogs := dialogs w; log := log w |}.
Definition with_dialogs (d : list dialog_event) (w : world) : world :=
  {| fs := fs w; console := console w; dialogs := d; log := log w |}.
Definition emit (e : event) (w : world) : world :=
  {| fs := fs w; console := console w; dialogs := dialogs w; log := log w ++ [e] |}.

(** ** The operating system, as far as the scripts use it *)

Module Os.

(** [dir / name] *)
Definition join (dir name : string) : string := dir +:+ "/" +:+ name.

Definition ends_with (suffix s : string) : bool :=
  String.prefix (String.rev suffix) (String.rev s).

(** [p.exists()] *)
Definition exists_ (p : string) : M world bool :=
  λ w, Return (bool_decide (is_Some (fs w !! p))) w.

(** The name of [p] when [p] lies directly inside [dir]. *)
Definition child_name (dir p : string) : option string :=
  if String.prefix (dir +:+ "/") p
  then let n := String.substring (String.length dir + 1)
                  (String.length p - (String.length dir + 1)) p in
       if Py.contains "/" n || String.eqb n "" then None else Some n
  else None.

(** [list(dir.glob("*" + suffix))] *)
Definition glob (dir suffix : string) : M world (list string) :=
  λ w, Return
    (match fs w !! dir with
     | Some Dir =>
         List.filter (λ p, match child_name dir p with
                           | Some n => ends_with suffix n
                           | None => false
                           end) (fst <$> map_to_list (fs w))
     | _ => []
     end) w.

(** [Path(p).read_text(encoding='utf-8')] *)
Definition read_text (p : string) : M world string :=
  λ w, match fs w !! p with
       | Some (File c) => Return c (emit (ReadText p) w)
       | Some Dir => Raise (PyException "IsADirectoryError" p) w
       | None => Raise (PyException "FileNotFoundError" p) w
       end.

(** The text before the last "/" of [p]. *)
Fixpoint dirname (p : string) : option string :=
  match p with
  | "" => None
  | String c p' =>
      match dirname p' with
      | Some d => Some (String c d)
      | None => if Ascii.eqb c "/" then Some "" else None
      end
  end.

(** [open(p, "w")] followed by the write, and [Path(p).write_text]: the
    file is replaced, or created when its directory exists. *)
Definition write_text (p content : string) : M world () :=
  λ w, match fs w !! p with
       | Some Dir => Raise (PyException "IsADirectoryError" p) w
       | Some (File _) =>
           Return () (emit (Wrote p) (with_fs (<[p := File content]> (fs w)) w))
       | None =>
           match dirname p ≫= (λ d, fs w !! d) with
           | Some Dir =>
               Return () (emit (Wrote p)
                            (with_fs (<[p := File content]> (fs w)) w))
           | Some (File _) => Raise (PyException "NotADirectoryError" p) w
           | None => Raise (PyException "FileNotFoundError" p) w
           end
       end.

(** [p.unlink()] *)
Definition unlink (p : string) : M world () :=
  λ w, match fs w !! p with
       | Some (File _) => Return () (emit (Unlink p) (with_fs (delete p (fs w)) w))
       | Some Dir => Raise (PyException "IsADirectoryError" p) w
       | None => Raise (PyException "FileNotFoundError" p) w
       end.

Definition inside (dir p : string) : bool :=
  String.eqb p dir || String.prefix (dir +:+ "/") p.

(** [shutil.rmtree(dir, ignore_errors=True)], when nothing resists. *)
Definition rmtree (dir : string) : M world () :=
  λ w, Return () (emit (Rmtree dir)
         (with_fs (filter (λ kv, inside dir kv.1 = false) (fs w)) w)).

(** [d.mkdir(parents=True, exist_ok=True)] *)
Definition mkdir (dir : string) : M world () :=
  λ w, match fs w !! dir with
       | Some (File _) => Raise (PyException "FileExistsError" dir) w
       | _ => Return () (emit (Mkdir dir) (with_fs (<[dir := Dir]> (fs w)) w))
       end.

(** [tempfile.mkdtemp(prefix=...)]: the directory [name] is created. *)
Definition mkdtemp (name : string) : M world string :=
  λ w, Return name (emit (Mkdir name) (with_fs (<[name := Dir]> (fs w)) w)).

(** [input()] *)
Definition input : M world string :=
  λ w, match console w with
       | [] => Blocked w
       | Line s :: c => Return s (emit Input (with_console c w))
       | CtrlC :: c => Raise KeyboardInterrupt (with_console c w)
       | Eof :: c => Raise (PyException "EOFError" "EOF when reading a line")
                       (with_console c w)
       end.

(** [print(text)] *)
Definition print (text : string) : M world () :=
  λ w, Return () (emit (Printed text) w).

(** One use of the file dialog, split where the scripts put their
    [input()]: first [tk.Tk()], later [askopenfilename]. *)
Definition tk_init : M world dialog_event :=
  λ w, match dialogs w with
       | [] => Blocked w
       | TkInitError m :: d => Raise (PyException "TclError" m) (with_dialogs d w)
       | ev :: d => Return ev (emit Dialog (with_dialogs d w))
       end.

Definition askopenfilename (ev : dialog_event) : M world string :=
  match ev with
  | Selected p => ret p
  | DialogError m | TkInitError m => raise (PyException "TclError" m)
  end.

(** The result of [Popen] and [communicate]. *)
Definition popen (argv : list string) (r : spawn) : M world completed :=
  λ w, match r with
       | Ran c => Return c (emit (Popen argv) w)
       | SpawnSubprocessError m => Raise (SubprocessError m) w
       | SpawnOSError m => Raise (PyException "OSError" m) w
       end.

(** [os.startfile], [open] or [xdg-open] on the file. *)
Definition open_file (p : string) : M world () :=
  λ w, Return () (emit (OpenFile p) w).

(** [sep.join(l)] *)
Fixpoint join_with (sep : string) (l : list string) : string :=
  match l with
  | [] => ""
  | [x] => x
  | x :: l' => x +:+ sep +:+ join_with sep l'
  end.

End Os.

(** What lies outside the scripts: where they are installed, the platform,
    the clock, [pathlib]'s pure name functions and the three tools. *)
Record platform := {
  internals_dir : string;               (* Path(__file__).parent.parent *)
  nt : bool;                            (* os.name == 'nt' *)
  home : string;                        (* Path.home() *)
  today : string;                       (* datetime.now().strftime("%Y-%m-%d") *)
  tmp_name : string;                    (* the directory mkdtemp makes *)
  path_name : string → string;          (* Path(p).name *)
  path_stem : string → string;          (* Path(p).stem *)
  path_suffix : string → string;        (* Path(p).suffix *)
  (* age-keygen -y: argv, standard input *)
  age_keygen : list string → string → spawn;
  (* age-keygen making the key pair number i of a session *)
  age_keygen_new : nat → spawn;
  (* age-plugin-sss: argv, the files it can read *)
  age_plugin_sss : list string → gmap string node → spawn;
  (* age: argv, the files it can read; and what it leaves at its -o path *)
  age : list string → gmap string node → spawn * option string;
}.

(** The [while output_path.exists()] loop of both scripts: [name_of counter]
    is the next name to try. *)
Fixpoint while_exists (fuel : nat) (name_of : Z → string)
    (output_path : string) (counter : Z) : M world string :=
  λ w, if bool_decide (is_Some (fs w !! output_path))
       then match fuel with
            | O => Blocked w
            | S fuel' => while_exists fuel' name_of (name_of counter) (counter + 1) w
            end
       else Return output_path w.

(** Running [age] with [-o output_path]. *)
Definition popen_age (P : platform) (argv : list string) (output_path : string)
    : M world completed :=
  λ w, let '(r, written) := age P argv (fs w) in
       Os.popen argv r
         (match written with
          | Some content => with_fs (<[output_path := File content]> (fs w)) w
          | None => w
          end).

(** ** decrypt.py *)

Module Decrypt.

(** The fields of [DigitalLegacyDecryptor] that change, and the world. *)
Record session := {
  recipient_config_path : option string;
  encrypted_file : option string;
  temp_dir : option string;
  attempted_keys : gmap string bool;
  key_secrets : list (option string);
  required_key_count : Z;
  total_shares : Z;
  valid_public_keys : list string;
  the_world : world;
}.

Definition with_world (w : world) (σ : session) : session :=
  {| recipient_config_path := recipient_config_path σ;
     encrypted_file := encrypted_file σ; temp_dir := temp_dir σ;
     attempted_keys := attempted_keys σ; key_secrets := key_secrets σ;
     required_key_count := required_key_count σ; total_shares := total_shares σ;
     valid_public_keys := valid_public_keys σ; the_world := w |}.

Definition with_recipient_config_path (p : option string) (σ : session) : session :=
  {| recipient_config_path := p;
     encrypted_file := encrypted_file σ; temp_dir := temp_dir σ;
     attempted_keys := attempted_keys σ; key_secrets := key_secrets σ;
     required_key_count := required_key_count σ; total_shares := total_shares σ;
     valid_public_keys := valid_public_keys σ; the_world := the_world σ |}.

Definition with_encrypted_file (p : option string) (σ : session) : session :=
  {| recipient_config_path := recipient_config_path σ;
     encrypted_file := p; temp_dir := temp_dir σ;
     attempted_keys := attempted_keys σ; key_secrets := key_secrets σ;
     required_key_count := required_key_count σ; total_shares := total_shares σ;
     valid_public_keys := valid_public_keys σ; the_world := the_world σ |}.

Definition with_temp_dir (p : option string) (σ : session) : session :=
  {| recipient_config_path := recipient_config_path σ;
     encrypted_file := encrypted_file σ; temp_dir := p;
     attempted_keys := attempted_keys σ; key_secrets := key_secrets σ;
     required_key_count := required_key_count σ; total_shares := total_shares σ;
     valid_public_keys := valid_public_keys σ; the_world := the_world σ |}.

Definition with_attempted_keys (a : gmap string bool) (σ : session) : session :=
  {| recipient_config_path := recipient_config_path σ;
     encrypted_file := encrypted_file σ; temp_dir := temp_dir σ;
     attempted_keys := a; key_secrets := key_secrets σ;
     required_key_count := required_key_count σ; total_shares := total_shares σ;
     valid_public_keys := valid_public_keys σ; the_world := the_world σ |}.

Definition with_key_secrets (k : list (option string)) (σ : session) : session :=
  {| recipient_config_path := recipient_config_path σ;
     encrypted_file := encrypted_file σ; temp_dir := temp_dir σ;
     attempted_keys := attempted_keys σ; key_secrets := k;
     required_key_count := required_key_count σ; total_shares := total_shares σ;
     valid_public_keys := valid_public_keys σ; the_world := the_world σ |}.

Record config := {
  threshold : Z;
  total : Z;                          (* 'total_shares' *)
  recipient_public_keys : list string;
}.

Definition with_config (c : config) (σ : session) : session :=
  {| recipient_config_path := recipient_config_path σ;
     encrypted_file := encrypted_file σ; temp_dir := temp_dir σ;
     attempted_keys := attempted_keys σ; key_secrets := key_secrets σ;
     required_key_count := threshold c; total_shares := total c;
     valid_public_keys := recipient_public_keys c; the_world := the_world σ |}.

(** [DigitalLegacyDecryptor()] in the world [w]. *)
Definition init (w : world) : session :=
  {| recipient_config_path := None; encrypted_file := None; temp_dir := None;
     attempted_keys := ∅; key_secrets := [];
     required_key_count := 0; total_shares := 0; valid_public_keys := [];
     the_world := w |}.

Definition lift {A} (c : M world A) : M session A :=
  λ σ, match c (the_world σ) with
       | Return a w => Return a (with_world w σ)
       | Raise e w => Raise e (with_world w σ)
       | Blocked w => Blocked (with_world w σ)
       end.

Definition get {A} (f : session → A) : M session A := λ σ, Return (f σ) σ.
Definition modify (f : session → session) : M session () := λ σ, Return () (f σ).

(** [except DecryptionError as e] *)
Definition decryption_error (e : exn) : option string :=
  match e with DecryptionError m => Some m | _ => None end.

(** The local variables of the collection loop of [run]. *)
Record locals := {
  valid_key_count : Z;
  current_key_number : Z;
  current_step : Z;
  total_steps : Z;
}.

(** How one turn of the collection loop ends when it ends normally: the
    [continue] reached, or the end of the body, with the message of the
    error that was reported. *)
Inductive verdict :=
| Retry (msg : string)                (* line 465 *)
| AlreadyAttempted (msg : string)     (* line 475 *)
| ExtractFailed (msg : string)        (* line 485 *)
| ValidateFailed (msg : string)       (* line 498 *)
| KeyAccepted (key_path : string) (remaining_keys : Z)   (* line 517 *)
| Unexpected (msg : string).          (* line 521 *)

Section Decryptor.
Variable P : platform.

Definition scripts_dir : string := Os.join (internals_dir P) "scripts".
Definition binaries_dir : string := Os.join (internals_dir P) "binaries".
Definition encrypted_dir : string := Os.join (internals_dir P) "encrypted".
Definition exe (name : string) : string :=
  if nt P then name +:+ ".exe" else name.
Definition age_path : string := Os.join binaries_dir (exe "age").
Definition age_keygen_path : string := Os.join binaries_dir (exe "age-keygen").
Definition plugin_path : string := Os.join binaries_dir (exe "age-plugin-sss").
Definition ascii_path : string :=
  Os.join (Os.join scripts_dir "resources") "ascii.txt".

Definition set_up_paths_and_validation : M session () :=
  a ← lift (Os.exists_ age_path);
  let missing_files :=
    if a : bool then [] else ["age executable: " +:+ age_path] in
  k ← lift (Os.exists_ age_keygen_path);
  let missing_files :=
    if k : bool then missing_files
    else missing_files ++ ["age-keygen executable: " +:+ age_keygen_path] in
  p ← lift (Os.exists_ plugin_path);
  let missing_files :=
    if p : bool then missing_files
    else missing_files ++ ["age-plugin-sss executable: " +:+ plugin_path] in
  encrypted_files ← lift (Os.glob encrypted_dir ".age");
  missing_files ←
    match encrypted_files with
    | [] => mret (missing_files ++ ["No encrypted file found in 'encrypted' folder"])
    | [f] => modify (with_encrypted_file (Some f));; mret missing_files
    | _ => mret (missing_files ++
             ["Too many encrypted files ("
              +:+ Py.str (Z.of_nat (List.length encrypted_files))
              +:+ ") found in 'encrypted' folder"])
    end;
  recipients_files ← lift (Os.glob encrypted_dir ".yaml");
  missing_files ←
    match recipients_files with
    | [] => mret (missing_files ++
              ["No recipients yaml file found in 'encrypted' folder"])
    | [f] => modify (with_recipient_config_path (Some f));; mret missing_files
    | _ => mret (missing_files ++
             ["Too many recipients yaml files ("
              +:+ Py.str (Z.of_nat (List.length recipients_files))
              +:+ ") found in 'encrypted' folder"])
    end;
  match missing_files with
  | [] => mret ()
  | _ => raise (DecryptionError
           ("Missing required files:" +:+ Py.nl
            +:+ Os.join_with Py.nl ((λ f, "- " +:+ f) <$> missing_files)))
  end.

Definition set_up_temp_directory : M session () :=
  d ← lift (Os.mkdtemp (tmp_name P));
  modify (with_temp_dir (Some d)).

Definition cleanup_temp_files : M session () :=
  t ← get temp_dir;
  match t with
  | Some d =>
      ex ← lift (Os.exists_ d);
      if ex : bool then lift (Os.rmtree d) else mret ()
  | None => mret ()
  end.

Definition wait_for_keypress (prompt : string) : M session () :=
  lift Os.input;; mret ().

Definition show_ascii_art : M session () :=
  ex ← lift (Os.exists_ ascii_path);
  if ex : bool
  then ascii_art ← lift (Os.read_text ascii_path); lift (Os.print ascii_art)
  else mret ().

Definition show_banner_message (banner_message : string) : M session () :=
  let banner_size := 100 in
  if Z.of_nat (String.length banner_message) >=? banner_size - 2
  then raise (PyException "ValueError"
                "Banner message too long for specified banner size")
  else mret ().

Definition step_banner (current total : Z) (title : string) : string :=
  "[Step " +:+ Py.str current +:+ " of " +:+ Py.str total +:+ "] " +:+ title.

(** The lines of the shares block that hold a key. *)
Definition public_keys_of (shares_content : string) : list string :=
  omap (λ line, Re.group <$> Re.search false Re.share_line_re line)
       (Py.split_lines shares_content).

Definition get_recipient_config : M session config :=
  path ← get recipient_config_path;
  match path with
  | None => raise (PyException "AttributeError" "exists")
  | Some path =>
      ex ← lift (Os.exists_ path);
      if negb ex
      then raise (DecryptionError ("Config file not found at: " +:+ path))
      else
        config_content ← lift (Os.read_text path);
        match Re.search false Re.threshold_re config_content with
        | None => raise (DecryptionError
                           "Unable to find threshold value in config file")
        | Some threshold_match =>
            match Py.int (Re.group threshold_match) with
            | None => raise (PyException "ValueError" (Re.group threshold_match))
            | Some threshold =>
                match Re.search false Re.shares_re config_content with
                | None => raise (DecryptionError
                                   "Unable to find shares in config file")
                | Some shares_match =>
                    let public_keys := public_keys_of (Re.group shares_match) in
                    mret {| threshold := threshold;
                            total := Z.of_nat (List.length public_keys);
                            recipient_public_keys := public_keys |}
                end
            end
        end
  end.

Definition get_key_file_from_user (current_key_number : Z) : M session string :=
  try_except
    (root ← lift Os.tk_init;
     lift Os.input;;
     file_path ← lift (Os.askopenfilename root);
     if String.eqb file_path ""
     then raise (DecryptionError "No key file selected.")
     else mret file_path)
    (λ e, if is_Exception e
          then Some (raise (DecryptionError
                              ("Error selecting file: " +:+ exn_text e)))
          else None).

Definition test_key_path_already_attempted (key_path : string) : M session () :=
  a ← get attempted_keys;
  match a !! key_path with
  | Some outcome =>
      let result := if outcome : bool then "accepted" else "declined" in
      raise (DecryptionError ("This file has already been " +:+ result
                              +:+ ". Please select a different one."))
  | None => mret ()
  end.

Definition test_secret_key_format (key_content : string) : bool :=
  bool_decide (is_Some (Re.search true Re.secret_key_re key_content)).

Definition get_secret_key_from_file (key_path : string)
    : M session (option string) :=
  key_content ←
    try_except (lift (Os.read_text key_path))
      (λ e, if is_Exception e
            then Some (raise (DecryptionError
                                ("Error reading key file: " +:+ exn_text e)))
            else None);
  if negb (test_secret_key_format key_content)
  then raise (DecryptionError
                "Invalid secret key format. Expected: AGE-SECRET-KEY-XXXXX")
  else mret (Re.group <$> Re.search true Re.secret_key_re key_content).

Definition test_public_key_format (public_key : string) : bool :=
  bool_decide (is_Some (Re.match_ Re.public_key_re public_key)).

(** [secret_key] is the value of [get_secret_key_from_file]; for [None]
    nothing is sent to the tool. *)
Definition get_public_key_from_secret (secret_key : option string)
    : M session string :=
  ex ← lift (Os.exists_ age_keygen_path);
  if negb ex
  then raise (DecryptionError
                ("age-keygen executable not found at: " +:+ age_keygen_path))
  else
    try_except
      (let argv := [age_keygen_path; "-y"] in
       process ← lift (Os.popen argv (age_keygen P argv (default "" secret_key)));
       if Py.contains "malformed secret key" (stderr process)
          || Py.contains "failed to parse" (stderr process)
       then raise (DecryptionError
              "Could not derive a valid age public key from the secret. It may have been altered.")
       else if negb (returncode process =? 0)
       then raise (DecryptionError
                     ("Error validating secret key: " +:+ stderr process))
       else
         let public_key := Py.strip (stdout process) in
         if negb (test_public_key_format public_key)
         then raise (DecryptionError
                       "Generated public key doesn't match expected format.")
         else mret public_key)
      (λ e, match e with
            | SubprocessError m =>
                Some (raise (DecryptionError ("Error running age-keygen: " +:+ m)))
            | _ => None
            end).

Definition test_key_usage_for_file (public_key : string) : M session () :=
  v ← get valid_public_keys;
  if negb (Py.mem public_key v)
  then raise (DecryptionError
                "This key was not one of the keys used to encrypt the file.")
  else mret ().

Definition get_shamir_identity (key_secrets_array : list (option string))
    : M session string :=
  t ← get temp_dir;
  match t with
  | None => raise (PyException "TypeError" "unsupported operand type(s) for /")
  | Some temp =>
      let decryption_secrets_path := Os.join temp "decryption_secrets.yaml" in
      let decryption_secrets_content :=
        fold_left (λ content key,
                     content +:+ "  - " +:+ default "None" key +:+ Py.nl)
                  key_secrets_array ("identities:" +:+ Py.nl) in
      lift (Os.write_text decryption_secrets_path decryption_secrets_content);;
      try_except
        (let argv := [plugin_path; "--generate-identity"; decryption_secrets_path] in
         files ← get (λ σ, fs (the_world σ));
         process ← lift (Os.popen argv (age_plugin_sss P argv files));
         if String.eqb (stdout process) ""
         then raise (DecryptionError
                       "Failed to generate combined identity from keys.")
         else if negb (returncode process =? 0)
         then raise (DecryptionError
                       ("Error generating Shamir identity: " +:+ stderr process))
         else
           let identity_path := Os.join temp "shamir_identity.yaml" in
           lift (Os.write_text identity_path (stdout process));;
           mret identity_path)
        (λ e, match e with
              | SubprocessError m =>
                  Some (raise (DecryptionError
                                 ("Error running age-plugin-sss: " +:+ m)))
              | _ => None
              end)
  end.

(** The name tried first, and the name tried for [counter]. *)
Definition output_filename (base_name extension : string) : string :=
  "[SENSITIVE] " +:+ base_name +:+ " - Decrypted " +:+ today P +:+ extension.
Definition output_filename_n (base_name extension : string) (counter : Z)
    : string :=
  "[SENSITIVE] " +:+ base_name +:+ " - Decrypted " +:+ today P
  +:+ " (" +:+ Py.str counter +:+ ")" +:+ extension.

Definition desktop : string := Os.join (home P) "Desktop".

(** The base name and the extension [save_decrypted_file] works out. *)
Definition name_parts (source_file : string) : string * string :=
  let source_name_no_age := path_stem P source_file in
  let base_name := path_stem P source_name_no_age in
  let extension := path_suffix P source_name_no_age in
  if String.eqb extension "" then (source_name_no_age, ".bin")
  else (base_name, extension).

(** The first part of [save_decrypted_file]: the output path. *)
Definition choose_output_path (source_file : string) : M session string :=
  let '(base_name, extension) := name_parts source_file in
  files ← get (λ σ, fs (the_world σ));
  lift (while_exists (S (size files))
          (λ counter, Os.join desktop (output_filename_n base_name extension counter))
          (Os.join desktop (output_filename base_name extension)) 1).

Definition save_decrypted_file (source_file identity_file : string)
    : M session string :=
  output_path ← choose_output_path source_file;
  try_except
    (let argv := [age_path; "-d"; "-i"; identity_file; "-o"; output_path;
                  source_file] in
     process ← lift (popen_age P argv output_path);
     if Py.contains "no identity matched any of the recipients" (stderr process)
     then
       ex ← lift (Os.exists_ output_path);
       (if ex : bool then lift (Os.unlink output_path) else mret ());;
       raise (DecryptionError
         "Decryption failed. No valid identity was found to decrypt the file. Please ensure you have the correct key files.")
     else if negb (returncode process =? 0)
     then raise (DecryptionError ("Error decrypting file: " +:+ stderr process))
     else mret output_path)
    (λ e, match e with
          | SubprocessError m =>
              Some (raise (DecryptionError ("Error running age: " +:+ m)))
          | _ => None
          end).

Definition yes (answer : string) : bool :=
  let a := Py.lower (Py.strip answer) in
  String.eqb a "y" || String.eqb a "yes".

(** One turn of the [while] loop of [run], lines 452 to 521. *)
Definition iteration (l : locals) : M session (locals * verdict) :=
  try_except
    (show_banner_message
       (step_banner (current_step l) (total_steps l)
          ("Upload Key Number " +:+ Py.str (current_key_number l)));;
     chosen ← catching decryption_error
                (get_key_file_from_user (current_key_number l));
     match chosen with
     | inr e =>
         lift (Os.print (Py.nl +:+ "Error: " +:+ e));;
         retry ← lift Os.input;
         if yes retry then mret (l, Retry e)
         else raise (DecryptionError "You terminated the program")
     | inl key_path =>
         fresh ← catching decryption_error
                   (test_key_path_already_attempted key_path);
         match fresh with
         | inr e =>
             lift (Os.print (Py.nl +:+ "Error: " +:+ e));;
             mret (l, AlreadyAttempted e)
         | inl _ =>
             extracted ← catching decryption_error
                           (get_secret_key_from_file key_path);
             match extracted with
             | inr e =>
                 lift (Os.print (Py.nl +:+ "Error: " +:+ e));;
                 a ← get attempted_keys;
                 modify (with_attempted_keys (<[key_path := false]> a));;
                 mret (l, ExtractFailed e)
             | inl secret_key =>
                 validated ← catching decryption_error
                               (public_key ← get_public_key_from_secret secret_key;
                                test_key_usage_for_file public_key);
                 match validated with
                 | inr e =>
                     lift (Os.print (Py.nl +:+ "Error: " +:+ e));;
                     lift (Os.print "Please select a different key.");;
                     a ← get attempted_keys;
                     modify (with_attempted_keys (<[key_path := false]> a));;
                     mret (l, ValidateFailed e)
                 | inl _ =>
                     ks ← get key_secrets;
                     modify (with_key_secrets (ks ++ [secret_key]));;
                     let valid_key_count := valid_key_count l + 1 in
                     required ← get required_key_count;
                     let remaining_keys := required - valid_key_count in
                     lift (Os.print (Py.nl +:+ "Key accepted."));;
                     current_key_number ←
                       (if 0 <? remaining_keys
                        then
                          let plural := if negb (remaining_keys =? 1) then "s" else "" in
                          lift (Os.print (Py.nl +:+ "You need "
                                  +:+ Py.str remaining_keys +:+ " more key" +:+ plural
                                  +:+ " to unlock your information."));;
                          mret (current_key_number l + 1)
                        else
                          lift (Os.print (Py.nl
                                  +:+ "All required keys have been provided!"));;
                          mret (current_key_number l));
                     a ← get attempted_keys;
                     modify (with_attempted_keys (<[key_path := true]> a));;
                     mret ({| valid_key_count := valid_key_count;
                              current_key_number := current_key_number;
                              current_step := current_step l + 1;
                              total_steps := total_steps l |},
                           KeyAccepted key_path remaining_keys)
                 end
             end
         end
     end)
    (λ e, match e with
          | DecryptionError m =>
              Some (lift (Os.print (Py.nl
                      +:+ "Unexpected error during key processing: " +:+ m));;
                    lift (Os.print "Please try again.");;
                    mret (l, Unexpected m))
          | _ => None
          end).

(** The collection loop, [while valid_key_count < self.required_key_count],
    with the verdicts of the turns taken so far. *)
Record collection := {
  history : list verdict;
  finish : outcome session locals;
}.

Fixpoint collect (fuel : nat) (l : locals) (σ : session) : collection :=
  if valid_key_count l <? required_key_count σ
  then match fuel with
       | O => {| history := []; finish := Blocked σ |}
       | S fuel' =>
           match iteration l σ with
           | Return (l', v) σ' =>
               let c := collect fuel' l' σ' in
               {| history := v :: history c; finish := finish c |}
           | Raise e σ' => {| history := []; finish := Raise e σ' |}
           | Blocked σ' => {| history := []; finish := Blocked σ' |}
           end
       end
  else {| history := []; finish := Return l σ |}.

(** Every turn that ends normally has read the console, so this many
    turns are never used up. *)
Definition turns (σ : session) : nat := S (List.length (console (the_world σ))).

(** The [try] block of [run]. *)
Definition session_body : M session () :=
  set_up_paths_and_validation;;
  set_up_temp_directory;;
  config ← get_recipient_config;
  modify (with_config config);;
  required ← get required_key_count;
  let total_steps := required + 3 in
  let current_step := 1 in
  show_ascii_art;;
  show_banner_message (step_banner current_step total_steps "Getting Started");;
  let current_step := current_step + 1 in
  wait_for_keypress "Press Enter to begin...";;
  l ← (λ σ, finish (collect (turns σ)
                      {| valid_key_count := 0; current_key_number := 1;
                         current_step := current_step;
                         total_steps := total_steps |} σ));
  show_banner_message
    (step_banner (Decrypt.current_step l) total_steps "Send For Decryption");;
  ks ← get key_secrets;
  identity_path ← get_shamir_identity ks;
  source ← get encrypted_file;
  decrypted_path ← save_decrypted_file (default "None" source) identity_path;
  lift (Os.print (Py.nl +:+ "Your information has been decrypted."));;
  lift (Os.print decrypted_path);;
  show_banner_message (step_banner total_steps total_steps "View Decrypted File");;
  open_file ← lift Os.input;
  if yes open_file then lift (Os.open_file decrypted_path) else mret ().

(** [run]: the handlers and the [finally] clause around the body. *)
Definition run : M session () :=
  try_finally
    (try_except session_body
       (λ e, match e with
             | DecryptionError m =>
                 Some (lift (Os.print (Py.nl +:+ "Error: " +:+ m)))
             | KeyboardInterrupt =>
                 Some (lift (Os.print (Py.nl +:+ "Operation cancelled by user.")))
             | _ =>
                 Some (lift (Os.print (Py.nl +:+ "Unexpected error: "
                                       +:+ exn_text e)))
             end))
    (cleanup_temp_files;;
     wait_for_keypress "Press Enter to exit...").

(** [main] *)
Definition main (w : world) : outcome session () := run (init w).

End Decryptor.
End Decrypt.

(** ** encrypt.py *)

Module Encrypt.

(** The fields of [DigitalLegacyEncryptor] that change, and the world. *)
Record session := {
  recipients_config_path : option string;
  source_file : option string;
  temp_dir : option string;
  current_step : Z;
  the_world : world;
}.

Definition with_world (w : world) (σ : session) : session :=
  {| recipients_config_path := recipients_config_path σ;
     source_file := source_file σ; temp_dir := temp_dir σ;
     current_step := current_step σ; the_world := w |}.
Definition with_recipients_config_path (p : option string) (σ : session) : session :=
  {| recipients_config_path := p;
     source_file := source_file σ; temp_dir := temp_dir σ;
     current_step := current_step σ; the_world := the_world σ |}.
Definition with_source_file (p : option string) (σ : session) : session :=
  {| recipients_config_path := recipients_config_path σ;
     source_file := p; temp_dir := temp_dir σ;
     current_step := current_step σ; the_world := the_world σ |}.
Definition with_temp_dir (p : option string) (σ : session) : session :=
  {| recipients_config_path := recipients_config_path σ;
     source_file := source_file σ; temp_dir := p;
     current_step := current_step σ; the_world := the_world σ |}.
Definition with_current_step (n : Z) (σ : session) : session :=
  {| recipients_config_path := recipients_config_path σ;
     source_file := source_file σ; temp_dir := temp_dir σ;
     current_step := n; the_world := the_world σ |}.

(** [DigitalLegacyEncryptor()] in the world [w]. *)
Definition init (w : world) : session :=
  {| recipients_config_path := None; source_file := None; temp_dir := None;
     current_step := 1; the_world := w |}.

Definition lift {A} (c : M world A) : M session A :=
  λ σ, match c (the_world σ) with
       | Return a w => Return a (with_world w σ)
       | Raise e w => Raise e (with_world w σ)
       | Blocked w => Blocked (with_world w σ)
       end.

Definition get {A} (f : session → A) : M session A := λ σ, Return (f σ) σ.
Definition modify (f : session → session) : M session () := λ σ, Return () (f σ).

(** The dictionary [generate_age_key] returns. *)
Record key_data := { public_key : string; secret_key : string; key_output : string }.

(** The lines of the placeholder policy, each written with a newline. *)
Definition blank_config : string :=
  "threshold: " +:+ Py.nl +:+ "shares: " +:+ Py.nl +:+ "  - " +:+ Py.nl
  +:+ "  - " +:+ Py.nl +:+ "# No config found, created blank config" +:+ Py.nl.

Section Encryptor.
Variable P : platform.

Definition scripts_dir : string := Os.join (internals_dir P) "scripts".
Definition binaries_dir : string := Os.join (internals_dir P) "binaries".
Definition encrypted_dir : string := Os.join (internals_dir P) "encrypted".
Definition keys_dir : string :=
  Os.join (internals_dir P) "age-keys-DISTRIBUTE-AND-DELETE".
Definition exe (name : string) : string :=
  if nt P then name +:+ ".exe" else name.
Definition age_path : string := Os.join binaries_dir (exe "age").
Definition age_keygen_path : string := Os.join binaries_dir (exe "age-keygen").
Definition plugin_path : string := Os.join binaries_dir (exe "age-plugin-sss").
Definition ascii_path : string :=
  Os.join (Os.join scripts_dir "resources") "ascii.txt".

(** [while not recipients_files:] of [set_up_paths_and_validation].  A turn
    that has written the placeholder lists it, so one turn is all the loop
    can take; running out of turns stands for looping for ever. *)
Fixpoint find_recipients (fuel : nat) (recipients_files : list string)
    : M session (list string) :=
  match recipients_files with
  | [] =>
      match fuel with
      | O => λ σ, Blocked σ
      | S fuel' =>
          lift (Os.write_text (encrypted_dir +:+ "/recipients.yaml") blank_config);;
          recipients_files ← lift (Os.glob encrypted_dir ".yaml");
          find_recipients fuel' recipients_files
      end
  | _ => mret recipients_files
  end.

Definition set_up_paths_and_validation : M session () :=
  a ← lift (Os.exists_ age_path);
  let missing_files :=
    if a : bool then [] else ["age executable: " +:+ age_path] in
  k ← lift (Os.exists_ age_keygen_path);
  let missing_files :=
    if k : bool then missing_files
    else missing_files ++ ["age-keygen executable: " +:+ age_keygen_path] in
  p ← lift (Os.exists_ plugin_path);
  let missing_files :=
    if p : bool then missing_files
    else missing_files ++ ["age-plugin-sss executable: " +:+ plugin_path] in
  recipients_files ← lift (Os.glob encrypted_dir ".yaml");
  recipients_files ← find_recipients 1 recipients_files;
  missing_files ←
    (if 1 <? Z.of_nat (List.length recipients_files)
     then mret (missing_files ++
            ["Too many recipients yaml files ("
             +:+ Py.str (Z.of_nat (List.length recipients_files))
             +:+ ") found in 'encrypted' folder"])
     else modify (with_recipients_config_path (head recipients_files));;
          mret missing_files);
  ex ← lift (Os.exists_ encrypted_dir);
  (if ex : bool then mret () else lift (Os.mkdir encrypted_dir));;
  match missing_files with
  | [] => mret ()
  | _ => raise (EncryptionError
           ("Missing required files:" +:+ Py.nl
            +:+ Os.join_with Py.nl ((λ f, "- " +:+ f) <$> missing_files)))
  end.

Definition set_up_temp_directory : M session () :=
  d ← lift (Os.mkdtemp (tmp_name P));
  modify (with_temp_dir (Some d)).

Definition cleanup_temp_files : M session () :=
  t ← get temp_dir;
  match t with
  | Some d =>
      ex ← lift (Os.exists_ d);
      if ex : bool then lift (Os.rmtree d) else mret ()
  | None => mret ()
  end.

Definition show_ascii_art : M session () :=
  ex ← lift (Os.exists_ ascii_path);
  if ex : bool
  then ascii_art ← lift (Os.read_text ascii_path); lift (Os.print ascii_art)
  else mret ().

Definition show_welcome_message : M session () :=
  show_ascii_art;;
  lift Os.input;; mret ().

Definition get_source_file : M session string :=
  try_except
    (lift Os.input;;
     root ← lift Os.tk_init;
     file_path ← lift (Os.askopenfilename root);
     if String.eqb file_path ""
     then
       lift (Os.print "Error: No file selected. Operation cancelled.");;
       raise (EncryptionError "No file selected")
     else if String.eqb (path_suffix P file_path) ".age"
     then
       lift (Os.print
               "Error: Cannot encrypt a file that already has a .age extension.");;
       raise (EncryptionError "File already encrypted")
     else mret file_path)
    (λ e, if is_Exception e
          then Some
            (if Py.contains "No file selected" (exn_text e)
                || Py.contains "Operation cancelled" (exn_text e)
             then raise e
             else
               lift (Os.print ("Error: Could not select file: " +:+ exn_text e));;
               raise (EncryptionError ("File selection failed: " +:+ exn_text e)))
          else None).

(** [while choice not in ["1", "2"]:] of [get_key_configuration]. *)
Fixpoint ask_choice (fuel : nat) : M session string :=
  match fuel with
  | O => λ σ, Blocked σ
  | S fuel' =>
      answer ← lift Os.input;
      let choice := Py.strip answer in
      if String.eqb choice "1" || String.eqb choice "2"
      then mret choice
      else
        lift (Os.print "Error: Invalid choice. Please enter 1 or 2.");;
        ask_choice fuel'
  end.

(** Every turn of the console loops reads the console once. *)
Definition turns (σ : session) : nat := S (List.length (console (the_world σ))).

Definition get_key_configuration : M session string :=
  step ← get current_step;
  modify (with_current_step (step + 1));;
  ((λ σ, ask_choice (turns σ) σ) : M session string).

(** [while not is_valid:] of [get_numeric_input]. *)
Fixpoint ask_number (fuel : nat) (min_val max_val : Z) : M session Z :=
  match fuel with
  | O => λ σ, Blocked σ
  | S fuel' =>
      valid ←
        try_except
          (answer ← lift Os.input;
           let user_input := Py.strip answer in
           if Py.isdigit user_input
           then
             match Py.int user_input with
             | None => raise (PyException "ValueError" user_input)
             | Some value =>
                 if (min_val <=? value) && (value <=? max_val)
                 then mret (Some value)
                 else
                   lift (Os.print ("Error: Please enter a number between "
                           +:+ Py.str min_val +:+ " and " +:+ Py.str max_val +:+ "."));;
                   mret None
             end
           else
             lift (Os.print "Error: Please enter a valid number.");;
             mret None)
          (λ e, match e with
                | KeyboardInterrupt =>
                    Some (lift (Os.print "Error: Please enter a valid number.");;
                          mret None)
                | PyException cls _ =>
                    if String.eqb cls "ValueError"
                    then Some (lift (Os.print "Error: Please enter a valid number.");;
                               mret None)
                    else None
                | _ => None
                end);
      match valid with
      | Some value => mret value
      | None => ask_number fuel' min_val max_val
      end
  end.

Definition get_numeric_input (min_val max_val : Z) : M session Z :=
  λ σ, ask_number (turns σ) min_val max_val σ.

Definition generate_age_key (i : nat) : M session key_data :=
  try_except
    (let argv := [age_keygen_path] in
     process ← lift (Os.popen argv (age_keygen_new P i));
     if negb (returncode process =? 0)
     then raise (EncryptionError ("Error generating age key: " +:+ stderr process))
     else
       match Re.search false Re.keygen_public_re (stdout process),
             Re.search false Re.keygen_secret_re (stdout process) with
       | None, _ => raise (EncryptionError "Could not extract public key")
       | Some _, None => raise (EncryptionError "Could not extract secret key")
       | Some public_key_match, Some secret_key_match =>
           mret {| public_key := Re.group public_key_match;
                   secret_key := Re.group secret_key_match;
                   key_output := stdout process |}
       end)
    (λ e, match e with
          | SubprocessError m =>
              Some (raise (EncryptionError ("Failed to generate age key: " +:+ m)))
          | _ => None
          end).

Definition save_key_file (key_content key_name keys_directory : string)
    : M session string :=
  lift (Os.mkdir keys_directory);;
  let key_file_path :=
    Os.join keys_directory ("Key for Digital Legacy - " +:+ key_name +:+ ".yaml") in
  lift (Os.write_text key_file_path key_content);;
  mret key_file_path.

Definition generate_key_config (threshold : Z) (public_keys : list string)
    (recipients_config_path : string) : M session string :=
  ex ← lift (Os.exists_ recipients_config_path);
  (if ex : bool
   then
     answer ← lift Os.input;
     let overwrite := Py.lower (Py.strip answer) in
     if negb (Py.startswith "y" overwrite)
     then
       lift (Os.print
         "Error: Operation cancelled. Existing recipients.yaml file was not overwritten.");;
       raise (EncryptionError "File overwrite cancelled")
     else mret ()
   else mret ());;
  let config_content :=
    fold_left (λ content key, content +:+ "  - " +:+ key +:+ Py.nl) public_keys
              ("threshold: " +:+ Py.str threshold +:+ Py.nl +:+ "shares:" +:+ Py.nl) in
  lift (Os.write_text recipients_config_path config_content);;
  mret recipients_config_path.

Definition generate_sss_recipient (key_config_path : string) : M session string :=
  ex ← lift (Os.exists_ key_config_path);
  if negb ex
  then raise (EncryptionError
                ("Key configuration file not found at: " +:+ key_config_path))
  else
    try_except
      (let argv := [plugin_path; "--generate-recipient"; key_config_path] in
       files ← get (λ σ, fs (the_world σ));
       process ← lift (Os.popen argv (age_plugin_sss P argv files));
       if negb (returncode process =? 0)
       then raise (EncryptionError
                     ("Error generating SSS recipient: " +:+ stderr process))
       else
         let recipient := Py.strip (stdout process) in
         if String.eqb recipient ""
         then raise (EncryptionError
           "Generated recipient is empty. Please check the key configuration file.")
         else mret recipient)
      (λ e, match e with
            | SubprocessError m =>
                Some (raise (EncryptionError
                               ("Failed to generate SSS recipient: " +:+ m)))
            | _ => None
            end).

(** [for i in range(num_identities):] asking for the key names. *)
Fixpoint ask_key_names (n : nat) (i : Z) : M session (list string) :=
  match n with
  | O => mret []
  | S n' =>
      answer ← lift Os.input;
      let name := Py.strip answer in
      let name := if String.eqb name "" then "Key" +:+ Py.str (i + 1) else name in
      names ← ask_key_names n' (i + 1);
      mret (name :: names)
  end.

(** [for i, name in enumerate(key_names):] making the key files. *)
Fixpoint generate_identities (key_names : list string) (i : nat)
    : M session (list string) :=
  match key_names with
  | [] => mret []
  | name :: key_names' =>
      key_data ← generate_age_key i;
      save_key_file (key_output key_data) name keys_dir;;
      public_keys ← generate_identities key_names' (S i);
      mret (public_key key_data :: public_keys)
  end.

(** The value of [self.recipients_config_path] where a path is needed. *)
Definition the_recipients_config_path : M session string :=
  p ← get recipients_config_path;
  match p with
  | Some path => mret path
  | None => raise (PyException "TypeError" "expected str, bytes or os.PathLike object")
  end.

Definition handle_new_key_generation : M session string :=
  num_identities ← get_numeric_input 1 10;
  threshold ← get_numeric_input 1 num_identities;
  key_names ← ask_key_names (Z.to_nat num_identities) 0;
  public_keys ← generate_identities key_names 0;
  path ← the_recipients_config_path;
  generate_key_config threshold public_keys path;;
  mret path.

Definition handle_existing_keys : M session string :=
  path ← the_recipients_config_path;
  ex ← lift (Os.exists_ path);
  if negb ex
  then
    lift (Os.print "Error: recipients.yaml not found.");;
    raise (EncryptionError "recipients.yaml not found")
  else
    answer ← lift Os.input;
    let modify_config := Py.lower (Py.strip answer) in
    (if Py.startswith "y" modify_config
     then lift (Os.open_file path);; lift Os.input;; mret ()
     else mret ());;
    mret path.

(** The name tried first, and the name tried for [counter]. *)
Definition output_filename (source_filename source_filesuffix : string) : string :=
  source_filename +:+ " - Encrypted " +:+ today P +:+ source_filesuffix +:+ ".age".
Definition output_filename_n (source_filename : string) (counter : Z) : string :=
  "[SENSITIVE] " +:+ source_filename +:+ " - Encrypted " +:+ today P
  +:+ " (" +:+ Py.str counter +:+ ").age".

(** The first part of [encrypt_file]: the output path. *)
Definition choose_output_path (source_file : string) : M session string :=
  let source_filename := path_stem P source_file in
  let source_filesuffix := path_suffix P source_file in
  files ← get (λ σ, fs (the_world σ));
  lift (while_exists (S (size files))
          (λ counter, Os.join encrypted_dir (output_filename_n source_filename counter))
          (Os.join encrypted_dir (output_filename source_filename source_filesuffix))
          1).

Definition encrypt_file (source_file recipient : string) : M session string :=
  output_path ← choose_output_path source_file;
  try_except
    (let argv := [age_path; "-e"; "-r"; recipient; "-o"; output_path; source_file] in
     process ← lift (popen_age P argv output_path);
     if negb (returncode process =? 0)
     then raise (EncryptionError ("Encryption failed: " +:+ stderr process))
     else mret output_path)
    (λ e, match e with
          | SubprocessError m =>
              Some (raise (EncryptionError ("Failed to encrypt file: " +:+ m)))
          | _ => None
          end).

(** The [try] block of [run]. *)
Definition session_body : M session () :=
  set_up_paths_and_validation;;
  set_up_temp_directory;;
  show_welcome_message;;
  modify (with_current_step 2);;
  source ← get_source_file;
  modify (with_source_file (Some source));;
  key_choice ← get_key_configuration;
  recipients_config_path ←
    (if String.eqb key_choice "1"
     then handle_new_key_generation
     else handle_existing_keys);
  step ← get current_step;
  modify (with_current_step (step + 1));;
  sss_recipient ← generate_sss_recipient recipients_config_path;
  step ← get current_step;
  modify (with_current_step (step + 1));;
  encrypted_path ← encrypt_file source sss_recipient;
  lift (Os.print "Your information has been encrypted.");;
  lift (Os.print encrypted_path);;
  step ← get current_step;
  modify (with_current_step (step + 1));;
  lift (Os.print "Encryption completed successfully!").

(** [run]: the handlers and the [finally] clause around the body. *)
Definition run : M session () :=
  try_finally
    (try_except session_body
       (λ e, match e with
             | EncryptionError m => Some (lift (Os.print ("Error: " +:+ m)))
             | KeyboardInterrupt =>
                 Some (lift (Os.print "Operation cancelled by user."))
             | _ => Some (lift (Os.print ("Unexpected error: " +:+ exn_text e)))
             end))
    (cleanup_temp_files;;
     lift Os.input;; mret ()).

(** [main] *)
Definition main (w : world) : outcome session () := run (init w).

End Encryptor.
End Encrypt.

(** ** The vocabulary of the statements *)

(** The policy text has a threshold field the loader can read: the marker,
    any white space, a decimal digit. *)
Definition has_threshold_field (text : string) : Prop :=
  ∃ before ws d after,
    text = before +:+ "threshold:" +:+ ws +:+ String d after
    ∧ Py.all_chars Py.isspace ws = true ∧ Py.isdecimal d = true.

(** The number that a run of decimal digits spells. *)
Fixpoint decimal_value (ds : string) : Z :=
  match ds with
  | "" => 0
  | String d ds' =>
      Z.of_N (Py.code d - 48) * 10 ^ Z.of_nat (String.length ds') + decimal_value ds'
  end.

(** The character before a position that lies [s] after one whose
    character before is [q]. *)
Fixpoint prev_after (q : option ascii) (s : string) : option ascii :=
  match s with "" => q | String c s' => prev_after (Some c) s' end.

(** The text does not go on with a decimal digit. *)
Definition no_digit_next (after : string) : Prop :=
  match after with "" => True | String c _ => Py.isdecimal c = false end.

(** The text begins with a threshold field whose digits are [ds]: the
    marker, any white space, the digits, and no digit after them. *)
Definition threshold_field_at (text ds : string) : Prop :=
  ∃ ws after,
    text = "threshold:" +:+ ws +:+ ds +:+ after
    ∧ Py.all_chars Py.isspace ws = true
    ∧ Py.all_chars Py.isdecimal ds = true ∧ ds ≠ ""
    ∧ no_digit_next after.

(** [ds] are the digits of the first threshold field of the text: no
    field begins before it. *)
Definition first_threshold (text ds : string) : Prop :=
  ∃ before rest,
    text = before +:+ rest
    ∧ threshold_field_at rest ds
    ∧ ∀ b1 c b2 ds', before = b1 +:+ String c b2 →
                     ¬ threshold_field_at (String c b2 +:+ rest) ds'.

(** The policy text has a shares block the loader can read: the marker, any
    white space that ends a line, and a first entry that begins with a dash
    and [age1]. *)
Definition has_shares_block (text : string) : Prop :=
  ∃ before ws ws1 ws2 after,
    text = before +:+ "shares:" +:+ ws +:+ Py.nl +:+ ws1 +:+ "-" +:+ ws2
           +:+ "age1" +:+ after
    ∧ Py.all_chars Py.isspace ws = true ∧ Py.all_chars Py.isspace ws1 = true
    ∧ Py.all_chars Py.isspace ws2 = true.

(** What the loader takes for a public key: [age1] and at least one more
    character, none of them white space. *)
Definition key_shape (key : string) : Prop :=
  ∃ tail, key = "age1" +:+ tail ∧ tail ≠ "" ∧ Py.all_chars Re.nonspace tail = true.

(** The computation ends, with a value or an exception, in the state [s]. *)
Definition exits {S A} (o : outcome S A) (s : S) : Prop :=
  (∃ a, o = Return a s) ∨ (∃ e, o = Raise e s).

(** At most one line has been printed between the two states. *)
Definition decrypt_reported (σ σ' : Decrypt.session) : Prop :=
  σ' = σ ∨ ∃ text, σ' = Decrypt.with_world (emit (Printed text) (Decrypt.the_world σ)) σ.
Definition encrypt_reported (σ σ' : Encrypt.session) : Prop :=
  σ' = σ ∨ ∃ text, σ' = Encrypt.with_world (emit (Printed text) (Encrypt.the_world σ)) σ.

(** The data-model invariant of a recipient policy. *)
Definition valid_policy (threshold : Z) (identities : list string) : Prop :=
  1 ≤ threshold ∧ threshold ≤ Z.of_nat (List.length identities) ∧ NoDup identities.

(** The key files a run of turns accepted, and the remaining counts it
    reported. *)
Definition accepted_paths (h : list Decrypt.verdict) : list string :=
  omap (λ v, match v with Decrypt.KeyAccepted p _ => Some p | _ => None end) h.
Definition reported_remaining (h : list Decrypt.verdict) : list Z :=
  omap (λ v, match v with Decrypt.KeyAccepted _ r => Some r | _ => None end) h.

Definition returned {S A} (o : outcome S A) : bool :=
  match o with Return _ _ => true | _ => false end.
Definition final {S A} (o : outcome S A) : S :=
  match o with Return _ s | Raise _ s | Blocked s => s end.

(** The banner of the turn fits, so [show_banner_message] does not raise. *)
Definition banner_ok (l : Decrypt.locals) : Prop :=
  (Z.of_nat (String.length
     (Decrypt.step_banner (Decrypt.current_step l) (Decrypt.total_steps l)
        ("Upload Key Number " +:+ Py.str (Decrypt.current_key_number l))))
   >=? 100 - 2) = false.

(** The local variables when the collection loop is entered. *)
Definition loop_entry (required : Z) : Decrypt.locals :=
  {| Decrypt.valid_key_count := 0; Decrypt.current_key_number := 1;
     Decrypt.current_step := 2; Decrypt.total_steps := required + 3 |}.

(** What a turn that ends normally changes of the decryptor, by verdict. *)
Definition turn_ok (l : Decrypt.locals) (σ : Decrypt.session)
    (l' : Decrypt.locals) (v : Decrypt.verdict) (σ' : Decrypt.session) : Prop :=
  Decrypt.required_key_count σ' = Decrypt.required_key_count σ ∧
  Decrypt.valid_public_keys σ' = Decrypt.valid_public_keys σ ∧
  Decrypt.total_steps l' = Decrypt.total_steps l ∧
  match v with
  | Decrypt.KeyAccepted p r =>
      Decrypt.attempted_keys σ !! p = None ∧
      Decrypt.attempted_keys σ' = <[p := true]> (Decrypt.attempted_keys σ) ∧
      (∃ s, Decrypt.key_secrets σ' = Decrypt.key_secrets σ ++ [s]) ∧
      Decrypt.valid_key_count l' = Decrypt.valid_key_count l + 1 ∧
      r = Decrypt.required_key_count σ - Decrypt.valid_key_count l'
  | Decrypt.ExtractFailed _ | Decrypt.ValidateFailed _ =>
      l' = l ∧ Decrypt.key_secrets σ' = Decrypt.key_secrets σ ∧
      ∃ p, Decrypt.attempted_keys σ !! p = None ∧
           Decrypt.attempted_keys σ' = <[p := false]> (Decrypt.attempted_keys σ)
  | _ =>
      l' = l ∧ Decrypt.key_secrets σ' = Decrypt.key_secrets σ ∧
      Decrypt.attempted_keys σ' = Decrypt.attempted_keys σ
  end.

(** The candidate at [key_path] passes the duplicate, format, derivation and
    membership checks in the session [σ]. *)
Definition passes_all_checks (P : platform) (σ : Decrypt.session)
    (key_path : string) : Prop :=
  Decrypt.attempted_keys σ !! key_path = None ∧
  ∃ key_content process,
    fs (Decrypt.the_world σ) !! key_path = Some (File key_content) ∧
    Decrypt.test_secret_key_format key_content = true ∧
    is_Some (fs (Decrypt.the_world σ) !! Decrypt.age_keygen_path P) ∧
    age_keygen P [Decrypt.age_keygen_path P; "-y"]
      (default "" (Re.group <$> Re.search true Re.secret_key_re key_content))
      = Ran process ∧
    Py.contains "malformed secret key" (stderr process) = false ∧
    Py.contains "failed to parse" (stderr process) = false ∧
    returncode process = 0 ∧
    Decrypt.test_public_key_format (Py.strip (stdout process)) = true ∧
    Py.strip (stdout process) ∈ Decrypt.valid_public_keys σ.

(** What a turn that does not end normally leaves as it was. *)
Definition untouched (σ σ' : Decrypt.session) : Prop :=
  Decrypt.required_key_count σ' = Decrypt.required_key_count σ ∧
  Decrypt.key_secrets σ' = Decrypt.key_secrets σ ∧
  Decrypt.attempted_keys σ' = Decrypt.attempted_keys σ.

(** ** A concrete installation, to run the scripts on *)

Module Demo.

(** [s.rpartition(sep)]: the text before and after the last [sep]. *)
Fixpoint rpartition (sep : ascii) (s : string) : option (string * string) :=
  match s with
  | "" => None
  | String c s' =>
      match rpartition sep s' with
      | Some (before, after) => Some (String c before, after)
      | None => if Ascii.eqb c sep then Some ("", s') else None
      end
  end.

(** [PurePosixPath(p).name], [.suffix] and [.stem]. *)
Definition name (p : string) : string :=
  match rpartition "/" p with Some (_, n) => n | None => p end.
Definition suffix (p : string) : string :=
  match rpartition "." (name p) with
  | Some (before, after) =>
      if String.eqb before "" || String.eqb after "" then "" else "." +:+ after
  | None => ""
  end.
Definition stem (p : string) : string :=
  match rpartition "." (name p) with
  | Some (before, after) =>
      if String.eqb before "" || String.eqb after "" then name p else before
  | None => name p
  end.

Definition ran (code : Z) (out err : string) : spawn :=
  Ran {| returncode := code; stdout := out; stderr := err |}.

(** An [age-keygen -y] that knows four secrets. *)
Definition keygen (argv : list string) (stdin : string) : spawn :=
  if String.eqb stdin "AGE-SECRET-KEY-1AAA" then ran 0 ("age1aaa" +:+ Py.nl) ""
  else if String.eqb stdin "AGE-SECRET-KEY-1BBB" then ran 0 ("age1bbb" +:+ Py.nl) ""
  else if String.eqb stdin "AGE-SECRET-KEY-1CCC" then ran 0 ("age1ccc" +:+ Py.nl) ""
  else if String.eqb stdin "AGE-SECRET-KEY-1XXX" then ran 0 ("age1xxx" +:+ Py.nl) ""
  else ran 1 "" "age-keygen: error: malformed secret key".

Definition key_file (public secret : string) : string :=
  "# created: 2026-11-04T10:00:00Z" +:+ Py.nl
  +:+ "# public key: " +:+ public +:+ Py.nl +:+ secret +:+ Py.nl.

(** An [age-keygen] that makes the keys A, B, C in turn. *)
Definition keygen_new (i : nat) : spawn :=
  match i with
  | O => ran 0 (key_file "age1aaa" "AGE-SECRET-KEY-1AAA") ""
  | S O => ran 0 (key_file "age1bbb" "AGE-SECRET-KEY-1BBB") ""
  | _ => ran 0 (key_file "age1ccc" "AGE-SECRET-KEY-1CCC") ""
  end.

(** An [age-plugin-sss] that always answers. *)
Definition plugin (argv : list string) (files : gmap string node) : spawn :=
  match argv with
  | [_; mode; _] =>
      if String.eqb mode "--generate-identity"
      then ran 0 ("AGE-PLUGIN-SSS-1IDENTITY" +:+ Py.nl) ""
      else ran 0 ("age1sss1recipient" +:+ Py.nl) ""
  | _ => ran 2 "" "usage"
  end.

(** An [age] that fails on damaged input after it has begun to write,
    and finds no identity for a ciphertext it does not know. *)
Definition cipher (argv : list string) (files : gmap string node)
    : spawn * option string :=
  match argv with
  | [_; mode; _; _; _; _; source] =>
      match files !! source with
      | Some (File content) =>
          if String.eqb content "damaged"
          then (ran 1 "" "age: error: failed to read input: unexpected EOF",
                Some "partial")
          else if String.eqb mode "-e" then (ran 0 "" "", Some "ciphertext")
          else if String.eqb content "ciphertext" then (ran 0 "" "", Some "the will")
          else (ran 1 "" "age: error: no identity matched any of the recipients",
                Some "")
      | _ => (ran 1 "" "age: error: failed to open input file", None)
      end
  | _ => (ran 2 "" "usage", None)
  end.

Definition P : platform := {|
  internals_dir := "/legacy/internals"; nt := false; home := "/home/u";
  today := "2026-11-04"; tmp_name := "/tmp/digital_legacy_k3";
  path_name := name; path_stem := stem; path_suffix := suffix;
  age_keygen := keygen; age_keygen_new := keygen_new;
  age_plugin_sss := plugin; age := cipher;
|}.

Definition policy_text (threshold : string) : string :=
  "threshold: " +:+ threshold +:+ Py.nl +:+ "shares:" +:+ Py.nl
  +:+ "  - age1aaa" +:+ Py.nl +:+ "  - age1bbb" +:+ Py.nl +:+ "  - age1ccc" +:+ Py.nl.

(** The installation, with a ciphertext and a 2-of-3 policy, and three
    key files of which the last is not one of the recipients. *)
Definition files (ciphertext policy : string) : gmap string node :=
  list_to_map [
    ("/legacy/internals", Dir);
    ("/legacy/internals/binaries", Dir);
    ("/legacy/internals/binaries/age", File "");
    ("/legacy/internals/binaries/age-keygen", File "");
    ("/legacy/internals/binaries/age-plugin-sss", File "");
    ("/legacy/internals/encrypted", Dir);
    ("/legacy/internals/encrypted/will.pdf.age", File ciphertext);
    ("/legacy/internals/encrypted/recipients.yaml", File policy);
    ("/home/u", Dir);
    ("/home/u/Desktop", Dir);
    ("/home/u/Desktop/will.pdf", File "the will");
    ("/keys", Dir);
    ("/keys/a.yaml", File (key_file "age1aaa" "AGE-SECRET-KEY-1AAA"));
    ("/keys/b.yaml", File (key_file "age1bbb" "AGE-SECRET-KEY-1BBB"));
    ("/keys/x.yaml", File (key_file "age1xxx" "AGE-SECRET-KEY-1XXX"))
  ].

Definition world_of (f : gmap string node) (c : list console_event)
    (d : list dialog_event) : world :=
  {| fs := f; console := c; dialogs := d; log := [] |}.

(** The decryptor when the collection loop is entered, 2 of 3 required. *)
Definition at_loop (w : world) : Decrypt.session :=
  Decrypt.with_config
    {| Decrypt.threshold := 2; Decrypt.total := 3;
       Decrypt.recipient_public_keys := ["age1aaa"; "age1bbb"; "age1ccc"] |}
    (Decrypt.with_temp_dir (Some "/tmp/digital_legacy_k3")
       (Decrypt.with_recipient_config_path
          (Some "/legacy/internals/encrypted/recipients.yaml")
          (Decrypt.with_encrypted_file
             (Some "/legacy/internals/encrypted/will.pdf.age")
             (Decrypt.init w)))).

(** The decryptor about to load the policy [policy]. *)
Definition loading (policy : string) : Decrypt.session :=
  Decrypt.with_recipient_config_path
    (Some "/legacy/internals/encrypted/recipients.yaml")
    (Decrypt.init (world_of (files "ciphertext" policy) [] [])).

(** A policy whose only entry has nothing after [age1]. *)
Definition bare_policy : string :=
  "threshold: 1" +:+ Py.nl +:+ "shares:" +:+ Py.nl +:+ "  - age1" +:+ Py.nl.

(** The decryptor before the cipher call; the ciphertext is [ciphertext]. *)
Definition at_gateway (ciphertext : string) : Decrypt.session :=
  at_loop (world_of (<["/tmp/digital_legacy_k3" := Dir]>
                       (files ciphertext (policy_text "2"))) [] []).

(** The encryptor before the cipher call; [source] is the file to encrypt,
    and the name tried first and the first numbered name are taken. *)
Definition encrypting (source : string) : Encrypt.session :=
  Encrypt.with_temp_dir (Some "/tmp/digital_legacy_k3")
    (Encrypt.with_recipients_config_path
       (Some "/legacy/internals/encrypted/recipients.yaml")
       (Encrypt.init
          (world_of
             (<["/home/u/Desktop/will.pdf" := File source]>
                (<["/legacy/internals/encrypted/will - Encrypted 2026-11-04.pdf.age"
                   := File "older"]>
                   (<["/legacy/internals/encrypted/[SENSITIVE] will - Encrypted 2026-11-04 (1).age"
                      := File "old"]>
                      (<["/tmp/digital_legacy_k3" := Dir]>
                         (files "ciphertext" (policy_text "2"))))))
             [] []))).

(** An encryption of the will with three new keys, two required; Ctrl-C is
    pressed at the first numeric prompt. *)
Definition interrupted : world :=
  world_of (files "ciphertext" (policy_text "2"))
    [Line ""; Line ""; Line "1"; CtrlC; Line "3"; Line "2";
     Line "Ann"; Line ""; Line "Cy"; Line "y"; Line ""]
    [Selected "/home/u/Desktop/will.pdf"].

(** The same session, interrupted at the prompt before the file dialog. *)
Definition cancelled : world :=
  world_of (files "ciphertext" (policy_text "2"))
    [Line ""; CtrlC; Line ""] [Selected "/home/u/Desktop/will.pdf"].

(** An installation without its encrypted directory. *)
Definition fresh : world :=
  world_of (list_to_map [
    ("/legacy/internals", Dir);
    ("/legacy/internals/binaries", Dir);
    ("/legacy/internals/binaries/age", File "");
    ("/legacy/internals/binaries/age-keygen", File "");
    ("/legacy/internals/binaries/age-plugin-sss", File "")]) [Line ""] [].

(** An installation whose encrypted directory has no policy yet. *)
Definition unconfigured : world :=
  world_of (<["/legacy/internals/encrypted" := Dir]> (fs fresh)) [Line ""] [].

(** A whole decryption: Enter to begin, key A, key B, no to opening the
    file, Enter to leave. *)
Definition scenario_a : world :=
  world_of (files "ciphertext" (policy_text "2"))
    [Line ""; Line ""; Line ""; Line "n"; Line ""]
    [Selected "/keys/a.yaml"; Selected "/keys/b.yaml"].

(** A decryption whose policy has no threshold field. *)
Definition scenario_d : world :=
  world_of (files "ciphertext"
              ("shares:" +:+ Py.nl +:+ "  - age1aaa" +:+ Py.nl))
    [Line ""] [Selected "/keys/a.yaml"].

(** Scenario: key A, the stranger X, key A again, key B. *)
Definition four_turns : Decrypt.session :=
  at_loop (world_of (files "ciphertext" (policy_text "2"))
             [Line ""; Line ""; Line ""; Line ""]
             [Selected "/keys/a.yaml"; Selected "/keys/x.yaml";
              Selected "/keys/a.yaml"; Selected "/keys/b.yaml"]).

(** The stranger's key is offered. *)
Definition stranger : Decrypt.session :=
  at_loop (world_of (files "ciphertext" (policy_text "2"))
             [Line ""] [Selected "/keys/x.yaml"]).

(** Key A has been accepted and is offered again. *)
Definition again : Decrypt.session :=
  Decrypt.with_key_secrets [Some "AGE-SECRET-KEY-1AAA"]
    (Decrypt.with_attempted_keys {["/keys/a.yaml" := true]}
       (at_loop (world_of (files "ciphertext" (policy_text "2"))
                   [Line ""] [Selected "/keys/a.yaml"]))).


End Demo.

(** ** More vocabulary *)

(** The entries of the shares block, one line for each key. *)
Definition share_lines (public_keys : list string) : string :=
  foldr (λ key rest, "  - " +:+ key +:+ Py.nl +:+ rest) "" public_keys.

(** The text [generate_key_config] writes for a threshold and a list of
    keys: [config_content] after its loop. *)
Definition policy_content (threshold : Z) (public_keys : list string) : string :=
  fold_left (λ content key, content +:+ "  - " +:+ key +:+ Py.nl) public_keys
            ("threshold: " +:+ Py.str threshold +:+ Py.nl +:+ "shares:" +:+ Py.nl).

(** The file [save_key_file] writes for a key of this name. *)
Definition key_file_path (P : platform) (key_name : string) : string :=
  Os.join (Encrypt.keys_dir P) ("Key for Digital Legacy - " +:+ key_name +:+ ".yaml").

(** A secret as the decryptor collects it. *)
Definition well_formed_secret (secret_key : option string) : Prop :=
  ∃ body, secret_key = Some ("AGE-SECRET-KEY-" +:+ body) ∧ body ≠ ""
          ∧ Py.all_chars Re.upper_or_digit body = true.

(** [list(dir.glob("*" + suffix))] in the world [w]. *)
Definition listing (dir suffix : string) (w : world) : list string :=
  match Os.glob dir suffix w with
  | Return files _ => files
  | _ => []
  end.

(** A computation keeps a relation when every state it can stop in, with a
    value, with an exception or waiting, is related to the state it started
    from. *)
Definition keeps {S A} (R : S → S → Prop) (c : M S A) : Prop :=
  ∀ s, R s (final (c s)).

(** Nothing has happened to the files, and the temporary directory of the
    session is the same. *)
Definition decrypt_quiet (σ σ' : Decrypt.session) : Prop :=
  Decrypt.temp_dir σ' = Decrypt.temp_dir σ
  ∧ fs (Decrypt.the_world σ') = fs (Decrypt.the_world σ).

(** No path inside the directory exists. *)
Definition nothing_inside (dir : string) (files : gmap string node) : Prop :=
  map_Forall (λ p _, Os.inside dir p = false) files.

(** The temporary directory of the session is the one [mkdtemp] makes. *)
Definition decrypt_temp_ok (P : platform) (σ : Decrypt.session) : Prop :=
  Decrypt.temp_dir σ = None ∨ Decrypt.temp_dir σ = Some (tmp_name P).

(** The temporary directory has been made and is still there. *)
Definition decrypt_temp_made (P : platform) (σ : Decrypt.session) : Prop :=
  Decrypt.temp_dir σ = Some (tmp_name P)
  ∧ is_Some (fs (Decrypt.the_world σ) !! tmp_name P).

(** What the decryptor may do to the files between two states: outside its
    temporary directory nothing that existed is changed, and nothing new
    appears but on the desktop. *)
Definition decrypt_frame (P : platform) (σ σ' : Decrypt.session) : Prop :=
  decrypt_temp_ok P σ →
  decrypt_temp_ok P σ'
  ∧ (∀ p x, fs (Decrypt.the_world σ) !! p = Some x →
            Os.inside (tmp_name P) p = false →
            fs (Decrypt.the_world σ') !! p = Some x)
  ∧ (∀ p, Os.inside (tmp_name P) p = false →
          String.prefix (Decrypt.desktop P +:+ "/") p = false →
          fs (Decrypt.the_world σ') !! p = fs (Decrypt.the_world σ) !! p).

(** The same, and a temporary directory that has been made stays. *)
Definition decrypt_safe (P : platform) (σ σ' : Decrypt.session) : Prop :=
  decrypt_frame P σ σ'
  ∧ (decrypt_temp_made P σ → decrypt_temp_made P σ').

(** The value a computation ends with, when it ends with one. *)
Definition result {S A} (o : outcome S A) : option A :=
  match o with Return a _ => Some a | _ => None end.

(** ** More sessions *)

Module Sample.

(** The encryptor about to make two new keys, both required; the second
    key is left without a name. *)
Definition making_keys : Encrypt.session :=
  Encrypt.with_recipients_config_path
    (Some "/legacy/internals/encrypted/recipients.yaml")
    (Encrypt.init
       (Demo.world_of (fs Demo.unconfigured)
          [Line "2"; Line "2"; Line "Ann"; Line ""] [])).

(** The decryptor at the loop; key A is offered, and the folder of keys
    holds a second file with the same content. *)
Definition with_copy : Decrypt.session :=
  Demo.at_loop
    (Demo.world_of
       (<["/keys/a (copy).yaml" :=
            File (Demo.key_file "age1aaa" "AGE-SECRET-KEY-1AAA")]>
          (Demo.files "ciphertext" (Demo.policy_text "2")))
       [Line ""] [Selected "/keys/a.yaml"]).

(** The encryptor at the choice of the file; a ciphertext is chosen. *)
Definition choosing_ciphertext : Encrypt.session :=
  Encrypt.init
    (Demo.world_of (Demo.files "ciphertext" (Demo.policy_text "2"))
       [Line ""] [Selected "/legacy/internals/encrypted/will.pdf.age"]).

End Sample.

(** * Proofs *)

(** ** Tactics *)

(** Unfolding the monad. *)
Ltac munfold :=
  repeat progress unfold mbind, mret, M_bind, M_ret, bind, ret, raise, try_except,
    try_finally, catching,
    Decrypt.lift, Decrypt.get, Decrypt.modify,
    Encrypt.lift, Encrypt.get, Encrypt.modify in *.

(** Case analysis on the innermost [match] of [H], until [H] is an equation
    between results. *)
Ltac crunch H :=
  repeat (first [ discriminate H
                | match type of H with
                  | context [match ?x with _ => _ end] =>
                      lazymatch x with
                      | context [match _ with _ => _ end] => fail
                      | _ => destruct x eqn:?; cbn in H
                      end
                  end ]).

(** ** Strings *)
Lemma app_cons_string x (a b : string) : String x a +:+ b = String x (a +:+ b).
Proof. reflexivity. Qed.

Lemma app_nil_string (b : string) : "" +:+ b = b.
Proof. reflexivity. Qed.

Ltac sapp := rewrite ?app_cons_string, ?app_nil_string in *.

Lemma length_app_string (a b : string) :
  String.length (a +:+ b) = (String.length a + String.length b)%nat.
Proof. induction a as [|x a IH]; sapp; simpl; [done | by rewrite IH]. Qed.

Lemma app_assoc_string (a b c : string) : (a +:+ b) +:+ c = a +:+ (b +:+ c).
Proof. induction a as [|x a IH]; sapp; [done | by rewrite IH]. Qed.

Lemma take_consumed (x t : string) :
  Re.take (String.length (x +:+ t) - String.length t) (x +:+ t) = x.
Proof.
  rewrite length_app_string.
  replace (String.length x + String.length t - String.length t)%nat
    with (String.length x) by lia.
  induction x as [|c x IH]; sapp; simpl; [by destruct t | by rewrite IH].
Qed.

Lemma string_app_inv_tail (t : string) : ∀ s1 s2, s1 +:+ t = s2 +:+ t → s1 = s2.
Proof.
  assert (Hlen : ∀ a b, String.length (a +:+ b) = (String.length a + String.length b)%nat).
  { induction a as [|x a IHa]; intros b; simpl; [done | f_equal; apply IHa]. }
  induction s1 as [|a s1 IH]; intros [|b s2] H.
  - done.
  - apply (f_equal String.length) in H. rewrite !Hlen in H. simpl in H. lia.
  - apply (f_equal String.length) in H. rewrite !Hlen in H. simpl in H. lia.
  - simpl in H. injection H as -> H. by rewrite (IH s2 H).
Qed.

(** A name built around the decimal text of the counter is never built twice. *)
Lemma numbered_name_inj (before after : string) :
  Inj (=) (=) (λ counter : Z, before +:+ Py.str counter +:+ after).
Proof.
  intros n m H. apply (inj (String.app before)) in H.
  apply string_app_inv_tail in H. by apply (inj pretty) in H.
Qed.

Lemma decrypt_name_inj P base_name extension :
  Inj (=) (=) (λ counter,
    Os.join (Decrypt.desktop P) (Decrypt.output_filename_n P base_name extension counter)).
Proof.
  intros n m H. unfold Os.join, Decrypt.output_filename_n in H.
  repeat apply (inj (String.app _)) in H.
  apply string_app_inv_tail in H. by apply (inj pretty) in H.
Qed.

Lemma encrypt_name_inj P source_filename :
  Inj (=) (=) (λ counter,
    Os.join (Encrypt.encrypted_dir P) (Encrypt.output_filename_n P source_filename counter)).
Proof.
  intros n m H. unfold Os.join, Encrypt.output_filename_n in H.
  repeat apply (inj (String.app _)) in H.
  apply string_app_inv_tail in H. by apply (inj pretty) in H.
Qed.

Lemma dirname_recipients (dir : string) :
  Os.dirname (dir +:+ "/recipients.yaml") = Some dir.
Proof. induction dir as [|c dir IH]; [reflexivity|]. sapp. simpl. by rewrite IH. Qed.

Lemma nonempty_string (s : string) : s ≠ "" → ∃ c t, s = String c t.
Proof. destruct s; [done | eauto]. Qed.

(** ** The matcher against the meaning of the patterns *)

Section Engine.
Variable multiline : bool.

Lemma star_S body fuel st k :
  Re.star body (S fuel) st k =
    match body st (λ st',
            if (String.length (Re.rest st') <? String.length (Re.rest st))%nat
            then Re.star body fuel st' k else None) with
    | Some r => Some r
    | None => k st
    end.
Proof. reflexivity. Qed.

Lemma star_sound r body :
  (∀ st k res, body st k = Some res →
     ∃ st', matches multiline r st st' ∧ k st' = Some res) →
  ∀ fuel st k res, Re.star body fuel st k = Some res →
    ∃ st', matches multiline (Re.Star r) st st' ∧ k st' = Some res.
Proof.
  intros Hbody. induction fuel as [|fuel IH]; intros st k res H.
  - exists st. split; [constructor | done].
  - rewrite star_S in H. destruct (body st _) as [res'|] eqn:Hb.
    + injection H as ->. apply Hbody in Hb as (st1 & Hm & Hk).
      destruct (_ <? _)%nat eqn:Hlt; [|done].
      apply IH in Hk as (st2 & Hm2 & Hk2).
      exists st2. split; [|done].
      eapply M_Star_more; eauto. by apply Nat.ltb_lt.
    + exists st. split; [constructor | done].
Qed.

(** The matcher only answers with matches. *)
Lemma m_sound r : ∀ st k res, Re.m multiline r st k = Some res →
  ∃ st', matches multiline r st st' ∧ k st' = Some res.
Proof.
  induction r as [s|p|r1 IH1 r2 IH2|r IH|r IH|r IH|r IH| |]; intros st k res H; cbn in H.
  - destruct (Re.lit s st) as [st'|] eqn:Hl; [|done].
    exists st'. split; [by constructor | done].
  - destruct (Re.rest st) as [|c s] eqn:Hr; [done|].
    destruct (p c) eqn:Hp; [|done].
    eexists. split; [by econstructor | done].
  - apply IH1 in H as (st1 & H1 & H). apply IH2 in H as (st2 & H2 & H).
    exists st2. split; [by econstructor | done].
  - by apply (star_sound r (Re.m multiline r) IH) in H.
  - apply IH in H as (st1 & H1 & H).
    apply (star_sound r (Re.m multiline r) IH) in H as (st2 & H2 & H).
    exists st2. split; [by econstructor | done].
  - destruct (Re.m multiline r st k) as [res'|] eqn:Hm.
    + injection H as ->. apply IH in Hm as (st' & H1 & H).
      exists st'. split; [by constructor | done].
    + exists st. split; [apply M_Opt_none | done].
  - apply IH in H as (st1 & H1 & H).
    eexists. split; [by constructor | done].
  - destruct (Re.at_bol multiline st) eqn:Hb; [|done].
    exists st. split; [by constructor | done].
  - destruct (Re.at_eol multiline st) eqn:Hb; [|done].
    exists st. split; [by constructor | done].
Qed.

(** The matcher finds a match when there is one. *)
Lemma m_complete r st st' :
  matches multiline r st st' →
  ∀ k, is_Some (k st') →
    is_Some (Re.m multiline r st k)
    ∧ match r with
      | Re.Star r1 => ∀ fuel, (String.length (Re.rest st) ≤ fuel)%nat →
                              is_Some (Re.star (Re.m multiline r1) fuel st k)
      | _ => True
      end.
Proof.
  induction 1 as [s st st' Hl|p c s st Hr Hp|r1 r2 st st1 st2 _ IH1 _ IH2
                 |r st|r st st1 st2 _ IH1 Hlt _ IH2|r st st1 st2 _ IH1 _ IH2
                 |r st st' _ IH|r st|r st st' _ IH|st Hb|st Hb]; intros k Hk.
  - cbn. by rewrite Hl.
  - cbn. by rewrite Hr, Hp.
  - split; [|done]. cbn. apply IH1. by apply IH2.
  - assert (∀ fuel, is_Some (Re.star (Re.m multiline r) fuel st k)) as Hs.
    { intros [|fuel]; [done|]. rewrite star_S. by destruct (Re.m multiline r st _). }
    split; [apply Hs | intros fuel _; apply Hs].
  - assert (∀ fuel, (String.length (Re.rest st) ≤ fuel)%nat →
              is_Some (Re.star (Re.m multiline r) fuel st k)) as Hs.
    { intros [|fuel] Hf; [lia|]. rewrite star_S.
      destruct (Re.m multiline r st _) as [res|] eqn:Hm; [done|].
      destruct (IH1 (λ st', if (String.length (Re.rest st') <? String.length (Re.rest st))%nat
                            then Re.star (Re.m multiline r) fuel st' k else None)) as [Hx _].
      - rewrite (proj2 (Nat.ltb_lt _ _) Hlt).
        apply (IH2 k Hk). lia.
      - rewrite Hm in Hx. by destruct Hx. }
    split; [by apply Hs | done].
  - split; [|done]. cbn. apply IH1. by apply (IH2 k Hk).
  - split; [|done]. cbn. destruct (IH k Hk) as [[res Hx] _]. by rewrite Hx.
  - split; [|done]. cbn. by destruct (Re.m multiline r st k).
  - split; [|done]. cbn. by apply IH.
  - cbn. by rewrite Hb.
  - cbn. by rewrite Hb.
Qed.
End Engine.

Section Shapes.
Variable multiline : bool.

(** A literal consumes itself. *)
Lemma lit_consumes s : ∀ st st',
  Re.lit s st = Some st' →
  Re.rest st = s +:+ Re.rest st' ∧ Re.group1 st' = Re.group1 st.
Proof.
  induction s as [|c s IH]; intros st st' H; simpl in H.
  - by injection H as ->.
  - destruct (Re.rest st) as [|d t] eqn:Hr; [done|].
    destruct (Ascii.eqb_spec c d) as [->|]; [|done].
    apply IH in H as [H1 H2]. simpl in *. sapp. by rewrite H1.
Qed.

Lemma lit_intro s : ∀ p t g,
  ∃ p', Re.lit s {| Re.prev := p; Re.rest := s +:+ t; Re.group1 := g |}
        = Some {| Re.prev := p'; Re.rest := t; Re.group1 := g |}.
Proof.
  induction s as [|c s IH]; intros p t g; sapp; simpl.
  - by eexists.
  - rewrite Ascii.eqb_refl. apply IH.
Qed.

(** A run of one class consumes characters of the class. *)
Lemma star_cls_consumes p st st' :
  matches multiline (Re.Star (Re.Cls p)) st st' →
  ∃ ws, Re.rest st = ws +:+ Re.rest st' ∧ Py.all_chars p ws = true
        ∧ Re.group1 st' = Re.group1 st.
Proof.
  remember (Re.Star (Re.Cls p)) as r eqn:Hr. intros H.
  induction H as [| | |r0 st|r0 st st1 st2 H1 _ _ _ IH2| | | | | |]; try discriminate.
  - by exists "".
  - injection Hr as ->. destruct (IH2 eq_refl) as (ws & Hw & Hp & Hg).
    inversion H1 as [|p' c s st0 Hrest Hpc| | | | | | | | |]; subst.
    exists (String c ws). simpl in *. sapp. rewrite Hrest, Hw, Hpc. done.
Qed.

Lemma star_cls_intro p ws : ∀ q t g,
  Py.all_chars p ws = true →
  ∃ q', matches multiline (Re.Star (Re.Cls p))
          {| Re.prev := q; Re.rest := ws +:+ t; Re.group1 := g |}
          {| Re.prev := q'; Re.rest := t; Re.group1 := g |}.
Proof.
  induction ws as [|c ws IH]; intros q t g H; simpl in *; sapp.
  - eexists. constructor.
  - apply andb_true_iff in H as [Hc Hws].
    destruct (IH (Some c) t g Hws) as (q' & Hm).
    exists q'. eapply M_Star_more; [| |exact Hm].
    + by apply (M_Cls multiline p c (ws +:+ t)
                  {| Re.prev := q; Re.rest := String c (ws +:+ t); Re.group1 := g |}).
    + simpl. lia.
Qed.

Lemma plus_cls_consumes p st st' :
  matches multiline (Re.Plus (Re.Cls p)) st st' →
  ∃ ws, Re.rest st = ws +:+ Re.rest st' ∧ Py.all_chars p ws = true ∧ ws ≠ ""
        ∧ Re.group1 st' = Re.group1 st.
Proof.
  intros H. inversion H as [| | | | |r0 st0 st1 st2 H1 H2| | | | |]; subst.
  apply star_cls_consumes in H2 as (ws & Hw & Hp & Hg).
  inversion H1 as [|p' c s st0 Hrest Hpc| | | | | | | | |]; subst.
  exists (String c ws). simpl in *. sapp. rewrite Hrest, Hw, Hpc. done.
Qed.
End Shapes.

(** Every answer of [re.search] is a match at some place of the subject. *)
Lemma scan_sound multiline r : ∀ s p mo,
  Re.scan multiline r p s = Some mo →
  ∃ before after q,
    s = before +:+ after
    ∧ matches multiline r {| Re.prev := q; Re.rest := after; Re.group1 := None |} mo.
Proof.
  induction s as [|c s IH]; intros p mo H; simpl in H.
  - destruct (Re.m _ _ _ _) as [st|] eqn:Hm; [|done]. injection H as ->.
    apply m_sound in Hm as (st' & Hm & [= ->]). by exists "", "", p.
  - destruct (Re.m _ _ _ _) as [st|] eqn:Hm.
    + injection H as ->. apply m_sound in Hm as (st' & Hm & [= ->]).
      by exists "", (String c s), p.
    + apply IH in H as (before & after & q & -> & H).
      by exists (String c before), after, q.
Qed.

(** [re.search] finds a match that exists at some place, wherever the
    pattern does not look at what is before that place. *)
Lemma scan_complete multiline r after :
  (∀ q, ∃ mo, matches multiline r {| Re.prev := q; Re.rest := after; Re.group1 := None |} mo) →
  ∀ before p, is_Some (Re.scan multiline r p (before +:+ after)).
Proof.
  intros Hm.
  assert (Hhere : ∀ p, is_Some (Re.scan multiline r p after)).
  { intros p. destruct (Hm p) as (mo & Hmo).
    destruct (m_complete multiline r _ _ Hmo Some) as [[res Hres] _]; [done|].
    destruct after; simpl; by rewrite Hres. }
  induction before as [|c before IH]; intros p; simpl; [apply Hhere|].
  by destruct (Re.m _ _ _ _).
Qed.

(** Taking a match apart, one constructor of the pattern at a time. *)
Ltac unseq :=
  repeat match goal with
    | H : matches _ (Re.Seq _ _) _ _ |- _ => inversion H; subst; clear H
    | H : matches _ (Re.Group _) _ _ |- _ => inversion H; subst; clear H
    | H : matches _ (Re.Lit _) _ _ |- _ => inversion H; subst; clear H
    | H : Re.lit _ _ = Some _ |- _ => apply lit_consumes in H as [? ?]
    | H : matches _ (Re.Star (Re.Cls _)) _ _ |- _ =>
        apply star_cls_consumes in H as (? & ? & ? & ?)
    | H : matches _ (Re.Plus (Re.Cls _)) _ _ |- _ =>
        apply plus_cls_consumes in H as (? & ? & ? & ? & ?)
    end.

Lemma threshold_match_shape st mo :
  matches false Re.threshold_re st mo →
  ∃ ws ds after,
    Re.rest st = "threshold:" +:+ ws +:+ ds +:+ after
    ∧ Py.all_chars Py.isspace ws = true
    ∧ Py.all_chars Py.isdecimal ds = true ∧ ds ≠ ""
    ∧ Re.group mo = ds.
Proof.
  unfold Re.threshold_re. simpl. intros H. unseq.
  match goal with
  | H1 : Re.rest st = _ +:+ Re.rest ?a, H2 : Re.rest ?a = ?ws +:+ Re.rest ?b,
    H3 : Re.rest ?b = ?ds +:+ Re.rest ?c |- _ =>
      exists ws, ds, (Re.rest c); rewrite H1, H2, H3; split_and!; try done;
      unfold Re.group, Re.close_group; simpl; rewrite H3; by rewrite take_consumed
  end.
Qed.

Lemma threshold_search_shape text mo :
  Re.search false Re.threshold_re text = Some mo →
  has_threshold_field text
  ∧ Py.all_chars Py.isdecimal (Re.group mo) = true ∧ Re.group mo ≠ "".
Proof.
  intros H. apply scan_sound in H as (before & after & q & -> & H).
  apply threshold_match_shape in H as (ws & ds & rest & Hr & Hws & Hds & Hne & ->).
  simpl in Hr. subst after. split; [|done].
  destruct (nonempty_string ds Hne) as (d & ds' & ->).
  simpl in Hds. apply andb_true_iff in Hds as [Hd _].
  exists before, ws, d, (ds' +:+ rest). by sapp.
Qed.

Lemma threshold_search_found text :
  has_threshold_field text → is_Some (Re.search false Re.threshold_re text).
Proof.
  intros (before & ws & d & after & -> & Hws & Hd).
  apply scan_complete. intros q. unfold Re.threshold_re. simpl.
  destruct (lit_intro "threshold:" q (ws +:+ String d after) None) as (q1 & H1).
  destruct (star_cls_intro false Py.isspace ws q1 (String d after) None Hws) as (q2 & H2).
  eexists. eapply M_Seq; [by apply M_Lit|]. eapply M_Seq; [exact H2|].
  apply M_Group. eapply M_Plus; [|apply M_Star_stop].
  by apply (M_Cls false Py.isdecimal d after
              {| Re.prev := q2; Re.rest := String d after; Re.group1 := None |}).
Qed.

(** ** The matcher, step by step *)

Lemma prev_after_app q a b :
  prev_after q (a +:+ b) = prev_after (prev_after q a) b.
Proof. revert q. induction a as [|c a IH]; intros q; sapp; simpl; [done | apply IH]. Qed.

Lemma app_nil_r_string (s : string) : s +:+ "" = s.
Proof. induction s as [|c s IH]; sapp; [done | by rewrite IH]. Qed.

Section Eval.
Variable multiline : bool.

Lemma m_Seq r1 r2 st k :
  Re.m multiline (Re.Seq r1 r2) st k
  = Re.m multiline r1 st (λ st1, Re.m multiline r2 st1 k).
Proof. reflexivity. Qed.

Lemma m_Group r st k :
  Re.m multiline (Re.Group r) st k
  = Re.m multiline r st (λ st1, k (Re.close_group st st1)).
Proof. reflexivity. Qed.

Lemma m_Opt r st k :
  Re.m multiline (Re.Opt r) st k
  = match Re.m multiline r st k with Some res => Some res | None => k st end.
Proof. reflexivity. Qed.

Lemma m_Plus r st k :
  Re.m multiline (Re.Plus r) st k
  = Re.m multiline r st
      (λ st1, Re.star (Re.m multiline r) (String.length (Re.rest st1)) st1 k).
Proof. reflexivity. Qed.

Lemma m_Lit s q t g k :
  Re.m multiline (Re.Lit s) {| Re.prev := q; Re.rest := s +:+ t; Re.group1 := g |} k
  = k {| Re.prev := prev_after q s; Re.rest := t; Re.group1 := g |}.
Proof.
  cbn. revert q. induction s as [|c s IH]; intros q; sapp; simpl; [done|].
  rewrite Ascii.eqb_refl. apply IH.
Qed.

Lemma m_Lit_cons c l s q g k :
  Re.m multiline (Re.Lit (String c l))
    {| Re.prev := q; Re.rest := String c s; Re.group1 := g |} k
  = Re.m multiline (Re.Lit l) {| Re.prev := Some c; Re.rest := s; Re.group1 := g |} k.
Proof. cbn. by rewrite Ascii.eqb_refl. Qed.

Lemma m_Lit_nil st k : Re.m multiline (Re.Lit "") st k = k st.
Proof. reflexivity. Qed.

Lemma m_Star_cons p c s q g k :
  p c = true →
  Re.m multiline (Re.Star (Re.Cls p))
    {| Re.prev := q; Re.rest := String c s; Re.group1 := g |} k
  = match Re.star (Re.m multiline (Re.Cls p)) (String.length s)
            {| Re.prev := Some c; Re.rest := s; Re.group1 := g |} k with
    | Some r => Some r
    | None => k {| Re.prev := q; Re.rest := String c s; Re.group1 := g |}
    end.
Proof.
  intros Hp. cbn [Re.m Re.rest String.length]. rewrite star_S.
  cbn [Re.m Re.rest]. rewrite Hp. unfold Re.advance.
  cbn [Re.rest Re.group1 String.length].
  by rewrite (proj2 (Nat.ltb_lt (String.length s) (S (String.length s)))) by lia.
Qed.

Lemma m_Lit_fail a l c s q g k :
  a ≠ c →
  Re.m multiline (Re.Lit (String a l))
    {| Re.prev := q; Re.rest := String c s; Re.group1 := g |} k = None.
Proof. intros H. cbn. by destruct (Ascii.eqb_spec a c). Qed.

Lemma m_Lit_end a l q g k :
  Re.m multiline (Re.Lit (String a l))
    {| Re.prev := q; Re.rest := ""; Re.group1 := g |} k = None.
Proof. reflexivity. Qed.

Lemma star_cls_cons p c s q g k n :
  p c = true →
  Re.star (Re.m multiline (Re.Cls p)) (S n)
    {| Re.prev := q; Re.rest := String c s; Re.group1 := g |} k
  = match Re.star (Re.m multiline (Re.Cls p)) n
            {| Re.prev := Some c; Re.rest := s; Re.group1 := g |} k with
    | Some r => Some r
    | None => k {| Re.prev := q; Re.rest := String c s; Re.group1 := g |}
    end.
Proof.
  intros Hp. rewrite star_S. cbn [Re.m Re.rest]. rewrite Hp.
  unfold Re.advance. cbn [Re.rest Re.group1 String.length].
  by rewrite (proj2 (Nat.ltb_lt (String.length s) (S (String.length s)))) by lia.
Qed.

Lemma star_cls_stop p t q g k n :
  match t with "" => True | String c _ => p c = false end →
  Re.star (Re.m multiline (Re.Cls p)) n
    {| Re.prev := q; Re.rest := t; Re.group1 := g |} k
  = k {| Re.prev := q; Re.rest := t; Re.group1 := g |}.
Proof.
  intros Ht. destruct n as [|n]; [done|]. rewrite star_S. cbn.
  destruct t as [|c s]; [done|]. by rewrite Ht.
Qed.

(** A run of one class is taken whole when what follows succeeds. *)
Lemma star_cls_run p ws : ∀ q t g k n r,
  Py.all_chars p ws = true →
  match t with "" => True | String c _ => p c = false end →
  (String.length (ws +:+ t) ≤ n)%nat →
  k {| Re.prev := prev_after q ws; Re.rest := t; Re.group1 := g |} = Some r →
  Re.star (Re.m multiline (Re.Cls p)) n
    {| Re.prev := q; Re.rest := ws +:+ t; Re.group1 := g |} k = Some r.
Proof.
  induction ws as [|c ws IH]; intros q t g k n r Hws Ht Hn Hk; sapp;
    simpl in Hws, Hn, Hk.
  - by rewrite star_cls_stop.
  - apply andb_true_iff in Hws as [Hc Hws].
    destruct n as [|n]; [lia|]. rewrite star_cls_cons by done.
    rewrite (IH (Some c) t g k n r); try done. lia.
Qed.

Lemma m_Star_run p ws q t g k r :
  Py.all_chars p ws = true →
  match t with "" => True | String c _ => p c = false end →
  k {| Re.prev := prev_after q ws; Re.rest := t; Re.group1 := g |} = Some r →
  Re.m multiline (Re.Star (Re.Cls p))
    {| Re.prev := q; Re.rest := ws +:+ t; Re.group1 := g |} k = Some r.
Proof. intros. cbn [Re.m]. apply star_cls_run; try done. Qed.

Lemma m_Plus_run p ws q t g k r :
  Py.all_chars p ws = true → ws ≠ "" →
  match t with "" => True | String c _ => p c = false end →
  k {| Re.prev := prev_after q ws; Re.rest := t; Re.group1 := g |} = Some r →
  Re.m multiline (Re.Plus (Re.Cls p))
    {| Re.prev := q; Re.rest := ws +:+ t; Re.group1 := g |} k = Some r.
Proof.
  intros Hws Hne Ht Hk. destruct ws as [|c ws]; [done|]. sapp. simpl in Hws.
  apply andb_true_iff in Hws as [Hc Hws].
  cbn [Re.m Re.rest]. rewrite Hc. unfold Re.advance. cbn [Re.rest Re.group1].
  by apply star_cls_run.
Qed.

(** The search goes past a place where the first character of the pattern
    is not found. *)
Lemma scan_skip a l r2 c s p :
  a ≠ c →
  Re.scan multiline (Re.Seq (Re.Lit (String a l)) r2) p (String c s)
  = Re.scan multiline (Re.Seq (Re.Lit (String a l)) r2) (Some c) s.
Proof.
  intros H. cbn [Re.scan]. rewrite m_Seq, m_Lit_fail by done. reflexivity.
Qed.

Lemma scan_skip_run a l r2 pre : ∀ p s,
  Py.all_chars (λ c, negb (Ascii.eqb a c)) pre = true →
  Re.scan multiline (Re.Seq (Re.Lit (String a l)) r2) p (pre +:+ s)
  = Re.scan multiline (Re.Seq (Re.Lit (String a l)) r2) (prev_after p pre) s.
Proof.
  induction pre as [|c pre IH]; intros p s H; sapp; simpl in H; [done|].
  apply andb_true_iff in H as [Hc Hpre]. apply negb_true_iff in Hc.
  rewrite scan_skip by (by apply Ascii.eqb_neq). by apply IH.
Qed.

Lemma scan_here r p s mo :
  Re.m multiline r {| Re.prev := p; Re.rest := s; Re.group1 := None |} Some = Some mo →
  Re.scan multiline r p s = Some mo.
Proof. intros H. destruct s; cbn [Re.scan]; by rewrite H. Qed.

End Eval.

Lemma scan_step multiline r c s p :
  Re.m multiline r {| Re.prev := p; Re.rest := String c s; Re.group1 := None |} Some = None →
  Re.scan multiline r p (String c s) = Re.scan multiline r (Some c) s.
Proof. intros H. cbn [Re.scan]. by rewrite H. Qed.

Lemma decimal_not_space c : Py.isdecimal c = true → Py.isspace c = false.
Proof. destruct c as [[] [] [] [] [] [] [] []]; by vm_compute. Qed.

(** ** The threshold field *)

(** A text is a run of decimal digits and a rest that does not go on with
    one. *)
Lemma span_decimal s :
  ∃ ds after, s = ds +:+ after ∧ Py.all_chars Py.isdecimal ds = true
              ∧ no_digit_next after.
Proof.
  induction s as [|c s (ds & after & -> & Hds & Hafter)].
  - by exists "", "".
  - destruct (Py.isdecimal c) eqn:Hc.
    + exists (String c ds), after. sapp. simpl. by rewrite Hc.
    + by exists "", (String c (ds +:+ after)).
Qed.

(** Where a threshold field begins, the pattern takes all of its digits. *)
Lemma threshold_field_taken q text ds :
  threshold_field_at text ds →
  ∃ mo, Re.m false Re.threshold_re
          {| Re.prev := q; Re.rest := text; Re.group1 := None |} Some = Some mo
        ∧ Re.group mo = ds.
Proof.
  intros (ws & after & -> & Hws & Hds & Hne & Hafter).
  unfold Re.threshold_re. cbn [Re.seq].
  destruct ds as [|d ds']; [done|]. set (ds := String d ds') in *.
  eexists. split.
  - rewrite m_Seq, m_Lit, m_Seq.
    apply m_Star_run; [done | |].
    { subst ds. sapp. simpl in Hds. apply andb_true_iff in Hds as [Hd _].
      by apply decimal_not_space. }
    rewrite m_Group. apply m_Plus_run; [done | done | exact Hafter |]. reflexivity.
  - unfold Re.group, Re.close_group. cbn [Re.group1 Re.rest default].
    apply take_consumed.
Qed.

(** Where the pattern matches, a threshold field begins, and the group is
    its digits. *)
Lemma threshold_match_field q text mo :
  Re.m false Re.threshold_re {| Re.prev := q; Re.rest := text; Re.group1 := None |} Some
  = Some mo →
  threshold_field_at text (Re.group mo).
Proof.
  intros Hm. destruct (m_sound false _ _ _ _ Hm) as (st' & Hmatch & [= ->]).
  apply threshold_match_shape in Hmatch as (ws & ds & rest & Hr & Hws & Hds & Hne & _).
  cbn [Re.rest] in Hr. subst text.
  destruct (span_decimal rest) as (ds2 & after & -> & Hds2 & Hafter).
  assert (Hfield : threshold_field_at
                     ("threshold:" +:+ ws +:+ ds +:+ ds2 +:+ after) (ds +:+ ds2)).
  { exists ws, after. rewrite app_assoc_string. split_and!; try done.
    - clear -Hds Hds2. induction ds as [|c ds IH]; sapp; simpl in *; [done|].
      apply andb_true_iff in Hds as [-> Hds]. by apply IH.
    - destruct ds; [done|]. by sapp. }
  destruct (threshold_field_taken q _ _ Hfield) as (mo' & Hm' & Hg).
  rewrite Hm in Hm'. injection Hm' as <-. by rewrite Hg.
Qed.

(** The search returns the digits of the first threshold field. *)
Lemma threshold_scan_first text : ∀ q mo,
  Re.scan false Re.threshold_re q text = Some mo → first_threshold text (Re.group mo).
Proof.
  induction text as [|c text IH]; intros q mo H.
  - cbn [Re.scan] in H.
    destruct (Re.m false _ _ _) as [st|] eqn:Hm; [|done]. injection H as ->.
    exists "", "". split_and!; [done | by eapply threshold_match_field |].
    intros b1 c b2 ds' Heq. by destruct b1.
  - cbn [Re.scan] in H.
    destruct (Re.m false _ _ _) as [st|] eqn:Hm.
    + injection H as ->.
      exists "", (String c text). split_and!; [done | by eapply threshold_match_field |].
      intros b1 c' b2 ds' Heq. by destruct b1.
    + apply IH in H as (before & rest & -> & Hfield & Hfirst).
      exists (String c before), rest. split_and!; [done | done |].
      intros [|b b1] c' b2 ds' Heq Hat; sapp; simplify_eq.
      * destruct (threshold_field_taken q _ _ Hat) as (mo' & Hm' & _). sapp. congruence.
      * by eapply Hfirst.
Qed.

Lemma first_threshold_scan text ds : ∀ q,
  first_threshold text ds →
  ∃ mo, Re.scan false Re.threshold_re q text = Some mo ∧ Re.group mo = ds.
Proof.
  intros q (before & rest & -> & Hfield & Hfirst). revert q Hfirst.
  induction before as [|c before IH]; intros q Hfirst; sapp.
  - destruct (threshold_field_taken q _ _ Hfield) as (mo & Hm & Hg).
    exists mo. split; [by apply scan_here | done].
  - destruct (Re.m false Re.threshold_re
                {| Re.prev := q; Re.rest := String c (before +:+ rest);
                   Re.group1 := None |} Some) as [mo|] eqn:Hm.
    + apply threshold_match_field in Hm. by destruct (Hfirst "" c before (Re.group mo)).
    + rewrite scan_step by done. apply IH.
      intros b1 c' b2 ds' Heq. apply (Hfirst (String c b1) c' b2 ds'). by rewrite Heq.
Qed.

Lemma first_threshold_unique text ds ds' :
  first_threshold text ds → first_threshold text ds' → ds = ds'.
Proof.
  intros H1 H2.
  destruct (first_threshold_scan _ _ None H1) as (mo & Hm & <-).
  destruct (first_threshold_scan _ _ None H2) as (mo' & Hm' & <-). congruence.
Qed.

Lemma first_threshold_field text ds : first_threshold text ds → has_threshold_field text.
Proof.
  intros (before & rest & -> & (ws & after & -> & Hws & Hds & Hne & _) & _).
  destruct (nonempty_string ds Hne) as (d & ds' & ->).
  simpl in Hds. apply andb_true_iff in Hds as [Hd _].
  exists before, ws, d, (ds' +:+ after). by sapp.
Qed.

Lemma search_threshold_first text mo :
  Re.search false Re.threshold_re text = Some mo → first_threshold text (Re.group mo).
Proof. apply threshold_scan_first. Qed.

Lemma threshold_search_first text ds :
  first_threshold text ds →
  ∃ mo, Re.search false Re.threshold_re text = Some mo ∧ Re.group mo = ds.
Proof. apply first_threshold_scan. Qed.

Lemma first_threshold_digits text ds :
  first_threshold text ds → Py.all_chars Py.isdecimal ds = true ∧ ds ≠ "".
Proof. by intros (before & rest & -> & (ws & after & -> & Hws & Hds & Hne & _) & _). Qed.

(** ** [int] *)

(** [int] reads a run of decimal digits that is not too long as the number
    it spells, and no other text. *)
Lemma int_digits_value ds : ∀ acc,
  Py.all_chars Py.isdecimal ds = true →
  Py.int_digits acc ds = Some (acc * 10 ^ Z.of_nat (String.length ds) + decimal_value ds).
Proof.
  induction ds as [|d ds IH]; intros acc H; simpl in H.
  - simpl. f_equal. lia.
  - apply andb_true_iff in H as [Hd Hds].
    cbn [Py.int_digits decimal_value String.length]. rewrite Hd, IH by done.
    f_equal. rewrite Nat2Z.inj_succ, Z.pow_succ_r by lia. ring.
Qed.

Lemma decimal_value_nonnegative ds : 0 ≤ decimal_value ds.
Proof.
  induction ds as [|d ds IH]; simpl; [done|].
  assert (0 ≤ 10 ^ Z.of_nat (String.length ds)) by (apply Z.pow_nonneg; lia).
  nia.
Qed.

Lemma int_within_limit ds :
  Py.all_chars Py.isdecimal ds = true → ds ≠ "" →
  Z.of_nat (String.length ds) ≤ Py.int_max_str_digits →
  Py.int ds = Some (decimal_value ds).
Proof.
  intros H Hne Hlen. destruct ds as [|d ds]; [done|].
  unfold Py.int. rewrite (proj2 (Z.leb_le _ _) Hlen).
  rewrite int_digits_value by done. f_equal; lia.
Qed.

Lemma int_over_limit ds :
  Py.int_max_str_digits < Z.of_nat (String.length ds) → Py.int ds = None.
Proof.
  intros Hlen. destruct ds as [|d ds]; [done|].
  unfold Py.int. by rewrite (proj2 (Z.leb_gt _ _) Hlen).
Qed.

Lemma int_nonnegative ds n : Py.int ds = Some n → 0 ≤ n.
Proof.
  unfold Py.int. destruct ds as [|d ds]; [done|].
  destruct (_ <=? _); [|done].
  assert (∀ s acc m, 0 ≤ acc → Py.int_digits acc s = Some m → 0 ≤ m) as Hgen.
  { induction s as [|c s IH]; intros acc m Hacc H; simpl in H.
    - by injection H as <-.
    - destruct (Py.isdecimal c); [|done]. eapply IH; [|exact H]. lia. }
  by apply Hgen.
Qed.

Lemma shares_search_shape text mo :
  Re.search false Re.shares_re text = Some mo → has_shares_block text.
Proof.
  intros H. apply scan_sound in H as (before & after & q & -> & H).
  unfold Re.shares_re in H. simpl in H. unseq.
  match goal with
  | H : matches _ (Re.Plus _) _ _ |- _ => inversion H; subst; clear H
  end.
  unseq. simpl in *.
  repeat match goal with
         | H : Re.rest _ = _ |- _ => rewrite H; clear H
         | H : after = _ |- _ => rewrite H; clear H
         end.
  match goal with
  | |- has_shares_block (before +:+ "shares:" +:+ ?ws +:+ Py.nl +:+ ?ws1 +:+ "-"
                         +:+ ?ws2 +:+ "age1" +:+ ?rest) =>
      by exists before, ws, ws1, ws2, rest
  end.
Qed.

Lemma shares_search_found text :
  has_shares_block text → is_Some (Re.search false Re.shares_re text).
Proof.
  intros (before & ws & ws1 & ws2 & after & -> & Hws & Hws1 & Hws2).
  apply scan_complete. intros q. unfold Re.shares_re. simpl.
  destruct (lit_intro "shares:" q
              (ws +:+ Py.nl +:+ ws1 +:+ "-" +:+ ws2 +:+ "age1" +:+ after) None)
    as (q1 & H1).
  destruct (star_cls_intro false Py.isspace ws q1
              (Py.nl +:+ ws1 +:+ "-" +:+ ws2 +:+ "age1" +:+ after) None Hws)
    as (q2 & H2).
  destruct (lit_intro Py.nl q2 (ws1 +:+ "-" +:+ ws2 +:+ "age1" +:+ after) None)
    as (q3 & H3).
  destruct (star_cls_intro false Py.isspace ws1 q3
              ("-" +:+ ws2 +:+ "age1" +:+ after) None Hws1) as (q4 & H4).
  destruct (lit_intro "-" q4 (ws2 +:+ "age1" +:+ after) None) as (q5 & H5).
  destruct (star_cls_intro false Py.isspace ws2 q5 ("age1" +:+ after) None Hws2)
    as (q6 & H6).
  destruct (lit_intro "age1" q6 after None) as (q7 & H7).
  eexists. eapply M_Seq; [by apply M_Lit|]. eapply M_Seq; [exact H2|].
  eapply M_Seq; [by apply M_Lit|]. apply M_Group.
  eapply M_Plus; [|apply M_Star_stop].
  eapply M_Seq; [exact H4|]. eapply M_Seq; [by apply M_Lit|].
  eapply M_Seq; [exact H6|]. eapply M_Seq; [by apply M_Lit|].
  eapply M_Seq; [apply M_Star_stop | apply M_Opt_none].
Qed.

Lemma share_line_shape line mo :
  Re.search false Re.share_line_re line = Some mo → key_shape (Re.group mo).
Proof.
  intros H. apply scan_sound in H as (before & after & q & -> & H).
  unfold Re.share_line_re in H. simpl in H. unseq.
  match goal with
  | H3 : Re.rest ?b = "age1" +:+ Re.rest ?c, H4 : Re.rest ?c = ?t +:+ Re.rest ?d |- _ =>
      exists t; split_and!; try done;
      unfold Re.group, Re.close_group; simpl; rewrite H3, H4;
      rewrite <- app_assoc_string; by rewrite take_consumed
  end.
Qed.

Lemma public_keys_shape shares_content :
  Forall key_shape (Decrypt.public_keys_of shares_content).
Proof.
  unfold Decrypt.public_keys_of. apply Forall_forall. intros key Hin.
  apply list_elem_of_omap in Hin as (line & _ & Hline).
  destruct (Re.search false Re.share_line_re line) as [mo|] eqn:Hs; [|done].
  injection Hline as <-. by eapply share_line_shape.
Qed.


(** ** The search for a free output name *)

Lemma while_exists_spec name_of (Hinj : Inj (=) (=) name_of) w :
  ∀ fuel p c (used : gset string),
  used ⊆ dom (fs w) →
  (∀ n, c ≤ n → name_of n ∉ used) →
  (size (fs w) < size used + fuel)%nat →
  ∃ q, while_exists fuel name_of p c w = Return q w ∧ fs w !! q = None ∧
       (q = p ∨ ∃ n, c ≤ n ∧ q = name_of n ∧ is_Some (fs w !! p) ∧
                     ∀ j, c ≤ j < n → is_Some (fs w !! name_of j)).
Proof.
  induction fuel as [|fuel IH]; intros p c used Hsub Hfresh Hsize.
  - apply subseteq_size in Hsub. rewrite size_dom in Hsub. lia.
  - cbn. case_bool_decide as Hp.
    2:{ exists p. split; [done|]. split; [|by left].
        by apply eq_None_not_Some. }
    destruct (fs w !! name_of c) as [x|] eqn:Hc.
    + destruct (IH (name_of c) (c + 1) (used ∪ {[name_of c]})) as (q & Hq & Hnone & Hwhich).
      * apply union_subseteq. split; [done|].
        apply singleton_subseteq_l, elem_of_dom. by rewrite Hc.
      * intros n Hn [Hin|Hin%elem_of_singleton]%elem_of_union.
        -- apply (Hfresh n); [lia | done].
        -- apply Hinj in Hin. lia.
      * rewrite size_union, size_singleton; [lia|].
        apply disjoint_singleton_r. apply Hfresh. lia.
      * exists q. split; [done|]. split; [done|]. right.
        destruct Hwhich as [->|(n & Hn & -> & _ & Hall)]; [congruence|].
        exists n. split_and!; [lia | done | done |].
        intros j Hj. destruct (decide (j = c)) as [->|]; [by rewrite Hc|].
        apply Hall. lia.
    + exists (name_of c). split.
      { destruct fuel; cbn; rewrite bool_decide_eq_false_2; try done;
          rewrite Hc; by intros [? ?]. }
      split; [done|]. right. exists c. split_and!; [lia | done | done |].
      intros j Hj. lia.
Qed.

(** The name search of both scripts ends, on a name that is free. *)
Lemma while_exists_free name_of (Hinj : Inj (=) (=) name_of) w p :
  is_Some (fs w !! p) →
  ∃ n, 1 ≤ n
    ∧ while_exists (S (size (fs w))) name_of p 1 w = Return (name_of n) w
    ∧ fs w !! name_of n = None
    ∧ name_of n ≠ p
    ∧ ∀ j, 1 ≤ j < n → is_Some (fs w !! name_of j).
Proof.
  intros Hp.
  destruct (while_exists_spec name_of Hinj w (S (size (fs w))) p 1 ∅)
    as (q & Hq & Hnone & [->|(n & Hn & -> & _ & Hall)]).
  - set_solver.
  - set_solver.
  - rewrite size_empty. lia.
  - rewrite Hnone in Hp. by destruct Hp.
  - exists n. split_and!; try done. intros Heq. rewrite Heq in Hnone.
    rewrite Hnone in Hp. by destruct Hp.
Qed.

Lemma while_exists_absent fuel name_of p c w :
  fs w !! p = None → while_exists fuel name_of p c w = Return p w.
Proof.
  intros H. destruct fuel; cbn; rewrite bool_decide_eq_false_2; try done;
    rewrite H; by intros [? ?].
Qed.



(** From here on the patterns and the string functions are taken as they
    are. *)
(** ** [str] and [int] *)

Lemma pretty_N_char_digit d :
  (d < 10)%N →
  Py.isdecimal (pretty_N_char d) = true
  ∧ Z.of_N (Py.code (pretty_N_char d) - 48) = Z.of_N d.
Proof.
  intros H.
  assert (d = 0 ∨ d = 1 ∨ d = 2 ∨ d = 3 ∨ d = 4 ∨ d = 5 ∨ d = 6 ∨ d = 7
          ∨ d = 8 ∨ d = 9)%N as Hd by lia.
  repeat destruct Hd as [->|Hd]; try subst d; by vm_compute.
Qed.

Lemma int_digits_pretty_go x : ∀ s,
  Py.int_digits 0 (pretty_N_go x s) = Py.int_digits (Z.of_N x) s.
Proof.
  induction (N.lt_wf_0 x) as [x _ IH]; intros s.
  assert (x = 0 ∨ 0 < x)%N as [->|Hx] by lia; [by rewrite pretty_N_go_0|].
  rewrite pretty_N_go_step by done. rewrite IH by (by apply N.div_lt).
  destruct (pretty_N_char_digit (x `mod` 10)) as [Hd Hv]; [by apply N.mod_lt|].
  simpl. rewrite Hd, Hv. f_equal.
  pose proof (N.div_mod x 10). lia.
Qed.

Lemma all_decimal_pretty_go x : ∀ s,
  Py.all_chars Py.isdecimal (pretty_N_go x s) = Py.all_chars Py.isdecimal s.
Proof.
  induction (N.lt_wf_0 x) as [x _ IH]; intros s.
  assert (x = 0 ∨ 0 < x)%N as [->|Hx] by lia; [by rewrite pretty_N_go_0|].
  rewrite pretty_N_go_step by done. rewrite IH by (by apply N.div_lt).
  destruct (pretty_N_char_digit (x `mod` 10)) as [Hd Hv]; [by apply N.mod_lt|].
  simpl. by rewrite Hd.
Qed.

(** The text of a number that is not negative is a run of decimal digits
    that [int] reads back, when they are not more than it converts. *)
Lemma str_digits n :
  0 ≤ n →
  Py.all_chars Py.isdecimal (Py.str n) = true ∧ Py.str n ≠ ""
  ∧ (Z.of_nat (String.length (Py.str n)) ≤ Py.int_max_str_digits →
     Py.int (Py.str n) = Some n).
Proof.
  intros Hn. destruct n as [|p|p]; [by vm_compute | | lia].
  unfold Py.str, pretty, pretty_Z, pretty, pretty_positive, pretty, pretty_N.
  rewrite decide_False by done.
  assert (Hint : Py.int_digits 0 (pretty_N_go (N.pos p) "") = Some (Z.pos p)).
  { by rewrite int_digits_pretty_go. }
  assert (Hne : pretty_N_go (N.pos p) "" ≠ "").
  { intros Heq. rewrite Heq in Hint. done. }
  split_and!; [by rewrite all_decimal_pretty_go | done |].
  intros Hlen. unfold Py.int. destruct (pretty_N_go (N.pos p) "") eqn:Hgo; [done|].
  by rewrite (proj2 (Z.leb_le _ _) Hlen).
Qed.

(** The numbers the encryptor asks for have few digits. *)
Lemma str_short n :
  0 ≤ n ≤ 10 → Z.of_nat (String.length (Py.str n)) ≤ Py.int_max_str_digits.
Proof.
  intros Hn.
  assert (n = 0 ∨ n = 1 ∨ n = 2 ∨ n = 3 ∨ n = 4 ∨ n = 5 ∨ n = 6 ∨ n = 7
          ∨ n = 8 ∨ n = 9 ∨ n = 10) as H by lia.
  repeat destruct H as [->|H]; try subst n; apply Z.leb_le; by vm_compute.
Qed.


(** ** The policy the encryptor writes, read by the patterns of the loader *)

Lemma fold_lines public_keys : ∀ init,
  fold_left (λ content key, content +:+ "  - " +:+ key +:+ Py.nl) public_keys init
  = init +:+ share_lines public_keys.
Proof.
  induction public_keys as [|key keys IH]; intros init; simpl.
  - by rewrite app_nil_r_string.
  - rewrite IH. by rewrite !app_assoc_string.
Qed.

Lemma policy_content_lines threshold public_keys :
  policy_content threshold public_keys
  = "threshold: " +:+ Py.str threshold +:+ Py.nl +:+ "shares:" +:+ Py.nl
    +:+ share_lines public_keys.
Proof.
  unfold policy_content. rewrite fold_lines. by rewrite !app_assoc_string.
Qed.

Lemma nonspace_not_nl c : Re.nonspace c = true → Re.any_but_nl c = true.
Proof. destruct c as [[] [] [] [] [] [] [] []]; by vm_compute. Qed.

Lemma all_chars_impl (p1 p2 : ascii → bool) s :
  (∀ c, p1 c = true → p2 c = true) →
  Py.all_chars p1 s = true → Py.all_chars p2 s = true.
Proof.
  intros Himpl. induction s as [|c s IH]; simpl; [done|].
  intros [Hc Hs]%andb_true_iff. by rewrite (Himpl c Hc), IH.
Qed.

(** The threshold field of a policy that starts with it. *)
Lemma threshold_field_found ds after :
  Py.all_chars Py.isdecimal ds = true → ds ≠ "" →
  match after with "" => True | String c _ => Py.isdecimal c = false end →
  ∃ mo, Re.search false Re.threshold_re ("threshold: " +:+ ds +:+ after) = Some mo
        ∧ Re.group mo = ds.
Proof.
  intros Hds Hne Hafter. unfold Re.search, Re.threshold_re. cbn [Re.seq].
  destruct ds as [|d ds']; [done|]. set (ds := String d ds') in *.
  eexists. split.
  - apply (scan_here false). rewrite m_Seq.
    change ("threshold: " +:+ ds +:+ after)
      with ("threshold:" +:+ " " +:+ ds +:+ after).
    rewrite m_Lit, m_Seq.
    apply m_Star_run; [done | |].
    { subst ds. sapp. simpl in Hds. apply andb_true_iff in Hds as [Hd _].
      by apply decimal_not_space. }
    rewrite m_Group. apply m_Plus_run; [done | done | done |]. reflexivity.
  - unfold Re.group, Re.close_group. cbn [Re.group1 Re.rest default].
    apply take_consumed.
Qed.

Lemma prev_after_nl q a : prev_after q (a +:+ Py.nl) = Some Py.nl_char.
Proof. by rewrite prev_after_app. Qed.

Lemma take_all (s : string) : Re.take (String.length s - 0) s = s.
Proof. rewrite Nat.sub_0_r. induction s as [|c s IH]; simpl; [done | by rewrite IH]. Qed.

Lemma length_share_lines public_keys :
  (List.length public_keys ≤ String.length (share_lines public_keys))%nat.
Proof.
  induction public_keys as [|key keys IH]; simpl; [lia|].
  rewrite !length_app_string. simpl. lia.
Qed.

(** One entry of the shares block, as the pattern of the block reads it. *)
Lemma share_line_taken key after q g k r :
  key_shape key →
  k {| Re.prev := Some Py.nl_char; Re.rest := after; Re.group1 := g |} = Some r →
  Re.m false
    (Re.seq [Re.Star (Re.Cls Py.isspace); Re.Lit "-"; Re.Star (Re.Cls Py.isspace);
             Re.Lit "age1"; Re.Star (Re.Cls Re.any_but_nl); Re.Opt (Re.Lit Py.nl)])
    {| Re.prev := q; Re.rest := "  - " +:+ key +:+ Py.nl +:+ after; Re.group1 := g |} k
  = Some r.
Proof.
  intros (tail & -> & Hne & Htail) Hk. cbn [Re.seq]. rewrite m_Seq.
  apply (m_Star_run false Py.isspace "  "); [done | done |]. cbv beta.
  rewrite m_Seq, m_Lit_cons, m_Lit_nil, m_Seq.
  apply (m_Star_run false Py.isspace " "); [done | done |]. cbv beta.
  rewrite !app_assoc_string, m_Seq, (m_Lit false "age1"), m_Seq.
  apply (m_Star_run false Re.any_but_nl tail);
    [by apply (all_chars_impl Re.nonspace), Htail; apply nonspace_not_nl | done |].
  cbv beta. rewrite m_Opt. unfold Py.nl. sapp.
  rewrite m_Lit_cons, m_Lit_nil. by rewrite Hk.
Qed.

(** The entries of the block, to the end of the text. *)
Lemma share_lines_taken public_keys : ∀ q g k n r,
  Forall key_shape public_keys →
  (List.length public_keys ≤ n)%nat →
  k {| Re.prev := prev_after q (share_lines public_keys); Re.rest := "";
       Re.group1 := g |} = Some r →
  Re.star
    (Re.m false
       (Re.seq [Re.Star (Re.Cls Py.isspace); Re.Lit "-"; Re.Star (Re.Cls Py.isspace);
                Re.Lit "age1"; Re.Star (Re.Cls Re.any_but_nl); Re.Opt (Re.Lit Py.nl)]))
    n {| Re.prev := q; Re.rest := share_lines public_keys; Re.group1 := g |} k
  = Some r.
Proof.
  induction public_keys as [|key keys IH]; intros q g k n r Hkeys Hn Hk.
  - destruct n as [|n]; [exact Hk|]. rewrite star_S. cbn. exact Hk.
  - destruct n as [|n]; [simpl in Hn; lia|]. rewrite star_S.
    change (share_lines (key :: keys))
      with ("  - " +:+ key +:+ Py.nl +:+ share_lines keys) in *.
    inversion Hkeys as [|? ? Hkey Hrest]; subst.
    rewrite (share_line_taken key (share_lines keys) q g _ r); [done | done |].
    cbv beta. cbn [Re.rest].
    rewrite (proj2 (Nat.ltb_lt _ _)).
    2:{ rewrite !length_app_string. simpl. lia. }
    apply IH; [done | simpl in Hn; lia |].
    rewrite <- Hk. f_equal. f_equal.
    replace ("  - " +:+ key +:+ Py.nl +:+ share_lines keys)
      with (("  - " +:+ key) +:+ Py.nl +:+ share_lines keys)
      by (by rewrite !app_assoc_string).
    rewrite <- (app_assoc_string _ Py.nl).
    by rewrite prev_after_app, prev_after_nl.
Qed.

(** The shares block of a policy that has an entry. *)
Lemma shares_block_found public_keys q :
  public_keys ≠ [] → Forall key_shape public_keys →
  ∃ mo, Re.m false Re.shares_re
          {| Re.prev := q; Re.rest := "shares:" +:+ Py.nl +:+ share_lines public_keys;
             Re.group1 := None |} Some = Some mo
        ∧ Re.group mo = share_lines public_keys.
Proof.
  intros Hne Hkeys. destruct public_keys as [|key keys]; [done|].
  inversion Hkeys as [|? ? Hkey Hrest]; subst.
  eexists. split.
  - unfold Re.shares_re. cbn [Re.seq]. rewrite m_Seq, (m_Lit false "shares:"), m_Seq.
    change (share_lines (key :: keys))
      with (String " " (String " " (String "-"
              (" " +:+ key +:+ Py.nl +:+ share_lines keys)))).
    unfold Py.nl. sapp.
    rewrite m_Star_cons by done. cbn [String.length].
    rewrite !star_cls_cons by done. rewrite star_cls_stop by done.
    rewrite m_Seq, m_Lit_fail by done.
    rewrite m_Seq, m_Lit_fail by done.
    rewrite m_Seq, m_Lit_fail by done.
    cbv iota. rewrite m_Seq, m_Lit_cons, m_Lit_nil.
    rewrite m_Group, m_Plus.
    apply (share_line_taken key (share_lines keys)); [done|]. cbv beta. cbn [Re.rest].
    apply share_lines_taken; [done | apply length_share_lines |]. reflexivity.
  - unfold Re.group, Re.close_group. cbn [Re.group1 Re.rest default].
    apply (take_all (share_lines (key :: keys))).
Qed.

Lemma decimal_not_s ds :
  Py.all_chars Py.isdecimal ds = true →
  Py.all_chars (λ c, negb (Ascii.eqb "s" c)) ds = true.
Proof.
  apply all_chars_impl. intros c. destruct c as [[] [] [] [] [] [] [] []]; by vm_compute.
Qed.

(** The shares block of the policy the encryptor writes. *)
Lemma shares_search_policy ds public_keys :
  Py.all_chars Py.isdecimal ds = true →
  public_keys ≠ [] → Forall key_shape public_keys →
  ∃ mo, Re.search false Re.shares_re
          ("threshold: " +:+ ds +:+ Py.nl +:+ "shares:" +:+ Py.nl
           +:+ share_lines public_keys) = Some mo
        ∧ Re.group mo = share_lines public_keys.
Proof.
  intros Hds Hne Hkeys.
  destruct (shares_block_found public_keys (Some Py.nl_char) Hne Hkeys) as (mo & Hmo & Hg).
  exists mo. split; [|done]. unfold Re.search. sapp.
  do 11 (rewrite scan_step by reflexivity).
  unfold Re.shares_re, Py.nl in *. cbn [Re.seq] in *.
  rewrite scan_skip_run by (by apply decimal_not_s).
  sapp. rewrite scan_skip by done.
  by apply scan_here.
Qed.

(** One line of the block, as the pattern of the entries reads it. *)
Lemma share_line_found key :
  key_shape key →
  ∃ mo, Re.search false Re.share_line_re ("  - " +:+ key) = Some mo
        ∧ Re.group mo = key.
Proof.
  intros (tail & -> & Hne & Htail). eexists. split.
  - unfold Re.search, Re.share_line_re. cbn [Re.seq]. sapp.
    rewrite !scan_skip by done. apply (scan_here false).
    rewrite m_Seq, m_Lit_cons, m_Lit_nil, m_Seq.
    apply (m_Star_run false Py.isspace " "); [done | done |]. cbv beta.
    rewrite m_Group, m_Seq.
    change (String "a" (String "g" (String "e" (String "1" tail))))
      with ("age1" +:+ tail).
    rewrite (m_Lit false "age1").
    rewrite <- (app_nil_r_string tail) at 1.
    apply (m_Plus_run false Re.nonspace tail); [done | done | done |]. reflexivity.
  - unfold Re.group, Re.close_group. cbn [Re.group1 Re.rest default].
    apply (take_all ("age1" +:+ tail)).
Qed.

Lemma search_share_line_empty : Re.search false Re.share_line_re "" = None.
Proof. reflexivity. Qed.

Lemma rev_app_app a : ∀ b c,
  String.rev_app (String.rev_app a b) c = String.rev_app b (a +:+ c).
Proof.
  induction a as [|x a IH]; intros b c; sapp; simpl; [done|].
  rewrite IH. reflexivity.
Qed.

Lemma rev_rev (s : string) : String.rev (String.rev s) = s.
Proof. unfold String.rev. by rewrite rev_app_app, app_nil_r_string. Qed.

Lemma split_go_line line : ∀ cur after,
  Py.all_chars Re.any_but_nl line = true →
  Py.split_go cur (line +:+ Py.nl +:+ after)
  = String.rev (String.rev_app line cur) :: Py.split_go "" after.
Proof.
  induction line as [|c line IH]; intros cur after H; simpl in H.
  - unfold Py.nl. sapp. cbn [Py.split_go]. rewrite Ascii.eqb_refl. done.
  - sapp. cbn [Py.split_go].
    apply andb_true_iff in H as [Hc Hline]. unfold Re.any_but_nl in Hc.
    apply negb_true_iff in Hc. rewrite Hc. rewrite IH by done. reflexivity.
Qed.

Lemma key_shape_no_nl key :
  key_shape key → Py.all_chars Re.any_but_nl ("  - " +:+ key) = true.
Proof.
  intros (tail & -> & _ & Htail). sapp. simpl.
  by apply (all_chars_impl Re.nonspace), Htail; apply nonspace_not_nl.
Qed.

Lemma split_share_lines public_keys :
  Forall key_shape public_keys →
  Py.split_lines (share_lines public_keys)
  = ((λ key, "  - " +:+ key) <$> public_keys) ++ [""].
Proof.
  unfold Py.split_lines. induction 1 as [|key keys Hkey _ IH]; [done|].
  change (share_lines (key :: keys))
    with ("  - " +:+ key +:+ Py.nl +:+ share_lines keys).
  rewrite <- app_assoc_string, split_go_line by (by apply key_shape_no_nl).
  fold (String.rev ("  - " +:+ key)). rewrite rev_rev, IH. reflexivity.
Qed.

(** The entries of the block the encryptor writes are the keys it was
    given. *)
Lemma public_keys_of_share_lines public_keys :
  Forall key_shape public_keys →
  Decrypt.public_keys_of (share_lines public_keys) = public_keys.
Proof.
  intros Hkeys. unfold Decrypt.public_keys_of.
  rewrite split_share_lines by done.
  induction Hkeys as [|key keys Hkey _ IH]; [reflexivity|].
  cbn [fmap list_fmap app omap list_omap].
  destruct (share_line_found key Hkey) as (mo & -> & Hg).
  cbn [fmap option_fmap option_map]. rewrite Hg. f_equal. exact IH.
Qed.

(** ** The patterns of the key generator and of the key files *)

(** What [generate_age_key] takes for the public key: it stands in the
    output after the words [# public key: ]. *)
Lemma keygen_public_shape text mo :
  Re.search false Re.keygen_public_re text = Some mo →
  key_shape (Re.group mo)
  ∧ ∃ before after, text = before +:+ "# public key: " +:+ Re.group mo +:+ after.
Proof.
  intros H. apply scan_sound in H as (before & after & q & -> & H).
  unfold Re.keygen_public_re in H. unseq.
  match goal with
  | H1 : Re.rest _ = "# public key: " +:+ Re.rest ?a,
    H3 : Re.rest ?a = "age1" +:+ Re.rest ?c,
    H4 : Re.rest ?c = ?t +:+ Re.rest ?d |- _ =>
      assert (Hg : Re.group (Re.close_group a d) = "age1" +:+ t)
        by (unfold Re.group, Re.close_group; simpl; rewrite H3, H4;
            rewrite <- app_assoc_string; by rewrite take_consumed);
      rewrite Hg; split; [by exists t|];
      exists before, (Re.rest d); simpl in H1; rewrite H1, H3, H4;
      by rewrite !app_assoc_string
  end.
Qed.

(** What it takes for the secret key. *)
Lemma keygen_secret_shape text mo :
  Re.search false Re.keygen_secret_re text = Some mo →
  ∃ tail before after,
    Re.group mo = "AGE-SECRET-KEY-" +:+ tail ∧ tail ≠ ""
    ∧ Py.all_chars Re.nonspace tail = true
    ∧ text = before +:+ Re.group mo +:+ after.
Proof.
  intros H. apply scan_sound in H as (before & after & q & -> & H).
  unfold Re.keygen_secret_re in H. unseq.
  match goal with
  | H3 : Re.rest _ = "AGE-SECRET-KEY-" +:+ Re.rest ?c,
    H4 : Re.rest ?c = ?t +:+ Re.rest ?d |- _ =>
      assert (Hg : Re.group (Re.close_group {| Re.prev := q; Re.rest := after;
                                               Re.group1 := None |} d)
                   = "AGE-SECRET-KEY-" +:+ t)
        by (unfold Re.group, Re.close_group; simpl; simpl in H3; rewrite H3, H4;
            rewrite <- app_assoc_string; by rewrite take_consumed);
      rewrite Hg; exists t, before, (Re.rest d); split_and!; try done;
      simpl in H3; rewrite H3, H4; by rewrite !app_assoc_string
  end.
Qed.

(** Every answer of [re.search] is a match at some place of the subject,
    seen with the character before that place. *)
Lemma scan_sound_prev multiline r : ∀ s p mo,
  Re.scan multiline r p s = Some mo →
  ∃ before after,
    s = before +:+ after
    ∧ matches multiline r
        {| Re.prev := prev_after p before; Re.rest := after; Re.group1 := None |} mo.
Proof.
  induction s as [|c s IH]; intros p mo H; simpl in H.
  - destruct (Re.m _ _ _ _) as [st|] eqn:Hm; [|done]. injection H as ->.
    apply m_sound in Hm as (st' & Hm & [= ->]). by exists "", "".
  - destruct (Re.m _ _ _ _) as [st|] eqn:Hm.
    + injection H as ->. apply m_sound in Hm as (st' & Hm & [= ->]).
      by exists "", (String c s).
    + apply IH in H as (before & after & -> & H).
      by exists (String c before), after.
Qed.

Lemma prev_after_Some q before c :
  prev_after q before = Some c →
  (before = "" ∧ q = Some c) ∨ ∃ b, before = b +:+ String c "".
Proof.
  revert q. induction before as [|d before IH]; intros q H; simpl in H; [by left|].
  right. apply IH in H as [[-> [= ->]]|[b ->]]; [by exists "" | by exists (String d b)].
Qed.

(** What the decryptor takes for the secret key of a key file: a whole
    line, the marker and letters A to Z and digits. *)
Lemma secret_key_shape key_content mo :
  Re.search true Re.secret_key_re key_content = Some mo →
  ∃ body before after,
    Re.group mo = "AGE-SECRET-KEY-" +:+ body ∧ body ≠ ""
    ∧ Py.all_chars Re.upper_or_digit body = true
    ∧ key_content = before +:+ Re.group mo +:+ after
    ∧ (before = "" ∨ ∃ b, before = b +:+ Py.nl)
    ∧ (after = "" ∨ ∃ a, after = Py.nl +:+ a).
Proof.
  intros H. apply scan_sound_prev in H as (before & after & -> & H).
  unfold Re.secret_key_re in H. cbn [Re.seq] in H.
  inversion H as [| |r1 r2 st st1 st2 Hbol H'| | | | | | | |]; subst; clear H.
  inversion Hbol as [| | | | | | | | |st Hb|]; subst; clear Hbol.
  inversion H' as [| |r1 r2 st st1' st2' Hgroup Heol| | | | | | | |]; subst; clear H'.
  inversion Heol as [| | | | | | | | | |st He]; subst; clear Heol.
  unseq.
  match goal with
  | H3 : Re.rest _ = "AGE-SECRET-KEY-" +:+ Re.rest ?c,
    H4 : Re.rest ?c = ?t +:+ Re.rest ?d |- _ =>
      assert (Hg : Re.group (Re.close_group
                     {| Re.prev := prev_after None before; Re.rest := after;
                        Re.group1 := None |} d) = "AGE-SECRET-KEY-" +:+ t)
        by (unfold Re.group, Re.close_group; simpl; simpl in H3; rewrite H3, H4;
            rewrite <- app_assoc_string; by rewrite take_consumed);
      rewrite Hg; exists t, before, (Re.rest d); simpl in H3;
      split_and!; [done | done | done | by rewrite H3, H4, !app_assoc_string | |]
  end.
  - unfold Re.at_bol in Hb. cbn in Hb.
    destruct (prev_after None before) as [c|] eqn:Hp.
    + destruct (Ascii.eqb_spec c Py.nl_char) as [->|]; [|done].
      apply prev_after_Some in Hp as [[_ ?]|[b ->]]; [done | right; by exists b].
    + left. destruct before as [|d before]; [done|]. simpl in Hp.
      clear -Hp. exfalso. revert d Hp.
      induction before as [|e before IH]; intros d Hp; simpl in Hp; [done | eauto].
  - unfold Re.at_eol in He. cbn in He.
    match goal with |- Re.rest ?d = "" ∨ _ => destruct (Re.rest d) as [|c a] end;
      [by left | right].
    apply andb_true_iff in He as [He _].
    destruct (Ascii.eqb_spec c Py.nl_char) as [->|]; [|done]. by exists a.
Qed.

(** [strip] leaves no white space at the end. *)
Lemma lstrip_head s c t : Py.lstrip s = String c t → Py.isspace c = false.
Proof.
  induction s as [|d s IH]; simpl; [done|].
  destruct (Py.isspace d) eqn:Hd; [done|]. by intros [= <- _].
Qed.

Lemma rev_app_append a : ∀ b acc,
  String.rev_app (a +:+ b) acc = String.rev_app b (String.rev_app a acc).
Proof. induction a as [|c a IH]; intros b acc; sapp; simpl; [done | apply IH]. Qed.

Lemma strip_no_trailing_nl s x : Py.strip s ≠ x +:+ Py.nl.
Proof.
  unfold Py.strip. intros H. apply (f_equal String.rev) in H.
  rewrite rev_rev in H. unfold String.rev at 2 in H.
  rewrite rev_app_append in H. simpl in H.
  by apply lstrip_head in H.
Qed.

(** What the decryptor takes for a well-formed public key. *)
Lemma public_key_shape public_key mo :
  Re.match_ Re.public_key_re public_key = Some mo →
  ∃ body, body ≠ "" ∧ Py.all_chars Re.lower_or_digit body = true
          ∧ (public_key = "age1" +:+ body ∨ public_key = "age1" +:+ body +:+ Py.nl).
Proof.
  unfold Re.match_, Re.public_key_re. cbn [Re.seq]. intros H.
  apply m_sound in H as (st' & H & _).
  inversion H as [| |r1 r2 st st1 st2 Hbol H'| | | | | | | |]; subst; clear H.
  inversion Hbol as [| | | | | | | | |st Hb|]; subst; clear Hbol.
  inversion H' as [| |r1 r2 st st1 st2 Hlit H''| | | | | | | |]; subst; clear H'.
  inversion H'' as [| |r1 r2 st st1' st2' Hplus Heol| | | | | | | |]; subst; clear H''.
  inversion Heol as [| | | | | | | | | |st He]; subst; clear Heol.
  unseq. simpl in *.
  match goal with
  | H3 : public_key = "age1" +:+ Re.rest ?c,
    H4 : Re.rest ?c = ?t +:+ Re.rest ?d |- _ =>
      exists t; split_and!; [done | done |]; rewrite H3, H4;
      unfold Re.at_eol in He; destruct (Re.rest d) as [|e a]
  end.
  - left. by rewrite app_nil_r_string.
  - right. cbn in He. apply andb_true_iff in He as [He1 He2].
    destruct (Ascii.eqb_spec e Py.nl_char) as [->|]; [|done].
    by apply String.eqb_eq in He2 as ->.
Qed.

(** The words the handler of [get_source_file] looks for. *)
Lemma contains_no_file_selected :
  Py.contains "No file selected" "No file selected" = true
  ∧ Py.contains "No file selected" "File already encrypted" = false
  ∧ Py.contains "Operation cancelled" "File already encrypted" = false
  ∧ Py.contains "No file selected" "EOF when reading a line" = false
  ∧ Py.contains "Operation cancelled" "EOF when reading a line" = false.
Proof. by vm_compute. Qed.

Opaque Re.search Re.match_ Py.strip Py.contains Py.str Py.lower.

(** ** The policy loader *)

(** The loader, once the policy file has been read. *)
Lemma load_outcome σ path config_content :
  Decrypt.recipient_config_path σ = Some path →
  fs (Decrypt.the_world σ) !! path = Some (File config_content) →
  let σ' := Decrypt.with_world (emit (ReadText path) (Decrypt.the_world σ)) σ in
  Decrypt.get_recipient_config σ =
    match Re.search false Re.threshold_re config_content with
    | None => Raise (DecryptionError "Unable to find threshold value in config file") σ'
    | Some threshold_match =>
        match Py.int (Re.group threshold_match) with
        | None => Raise (PyException "ValueError" (Re.group threshold_match)) σ'
        | Some threshold =>
            match Re.search false Re.shares_re config_content with
            | None => Raise (DecryptionError "Unable to find shares in config file") σ'
            | Some shares_match =>
                let public_keys := Decrypt.public_keys_of (Re.group shares_match) in
                Return {| Decrypt.threshold := threshold;
                          Decrypt.total := Z.of_nat (List.length public_keys);
                          Decrypt.recipient_public_keys := public_keys |} σ'
            end
        end
    end.
Proof.
  intros Hp Hf. destruct σ as [rcp ef td ak ks rk ts vpk [f con dia lg]]; cbn in *; subst.
  unfold Decrypt.get_recipient_config, Os.exists_, Os.read_text. munfold. cbn.
  rewrite Hf. cbn. rewrite Hf. cbn.
  destruct (Re.search false _ config_content) as [tm|]; [|done].
  destruct (Py.int (Re.group tm)); [|done].
  by destruct (Re.search false _ config_content).
Qed.

Lemma load_returns σ cfg s :
  Decrypt.get_recipient_config σ = Return cfg s →
  Decrypt.total cfg = Z.of_nat (List.length (Decrypt.recipient_public_keys cfg))
  ∧ 0 ≤ Decrypt.threshold cfg
  ∧ Forall key_shape (Decrypt.recipient_public_keys cfg).
Proof.
  destruct σ as [rcp ef td ak ks rk ts vpk [f con dia lg]].
  unfold Decrypt.get_recipient_config, Os.exists_, Os.read_text. munfold. cbn.
  intros H. crunch H. injection H as <- <-. cbn. split_and!.
  - done.
  - by eapply int_nonnegative.
  - apply public_keys_shape.
Qed.

(** C4 as stated fails: a policy whose threshold is 0 is loaded, and so is
    one whose list of identities comes out empty. *)
Lemma C4_zero_threshold_counterexample :
  (∃ σ, Decrypt.get_recipient_config (Demo.loading (Demo.policy_text "0"))
        = Return {| Decrypt.threshold := 0; Decrypt.total := 3;
                    Decrypt.recipient_public_keys := ["age1aaa"; "age1bbb"; "age1ccc"] |} σ)
  ∧ (∃ σ, Decrypt.get_recipient_config (Demo.loading Demo.bare_policy)
          = Return {| Decrypt.threshold := 1; Decrypt.total := 0;
                      Decrypt.recipient_public_keys := [] |} σ).
Proof. split; eexists; vm_compute; reflexivity. Qed.

(** C4, amended.  Loading fails with an error when the policy file is
    missing, when the text has no threshold field that can be read (the
    marker, white space, a decimal digit), when the digits of its first
    threshold field are more than [int] converts, and when it has no shares
    block that can be read (the marker, a line end, a first entry that
    begins with a dash and [age1]); in every other case a policy is
    returned.  The threshold that is returned is the number that the digits
    of the first threshold field spell, so it is never negative: a threshold
    written with a minus sign is not read.  Nothing forbids zero, and
    nothing requires the list of identities taken from the block to have an
    element. *)
Theorem C4_load_failures σ path :
  Decrypt.recipient_config_path σ = Some path →
  (fs (Decrypt.the_world σ) !! path = None →
   Decrypt.get_recipient_config σ
   = Raise (DecryptionError ("Config file not found at: " +:+ path)) σ)
  ∧ (∀ config_content,
       fs (Decrypt.the_world σ) !! path = Some (File config_content) →
       let σ' := Decrypt.with_world (emit (ReadText path) (Decrypt.the_world σ)) σ in
       let load := Decrypt.get_recipient_config σ in
       (load = Raise (DecryptionError "Unable to find threshold value in config file") σ'
        ↔ ¬ has_threshold_field config_content)
       ∧ (has_threshold_field config_content
          ↔ ∃ ds, first_threshold config_content ds)
       ∧ (∀ ds, first_threshold config_content ds →
            (∀ ds', first_threshold config_content ds' → ds' = ds)
            ∧ (load = Raise (PyException "ValueError" ds) σ'
               ↔ Py.int_max_str_digits < Z.of_nat (String.length ds))
            ∧ (load = Raise (DecryptionError "Unable to find shares in config file") σ'
               ↔ Z.of_nat (String.length ds) ≤ Py.int_max_str_digits
                 ∧ ¬ has_shares_block config_content)
            ∧ ((∃ cfg, load = Return cfg σ')
               ↔ Z.of_nat (String.length ds) ≤ Py.int_max_str_digits
                 ∧ has_shares_block config_content)
            ∧ (∀ cfg s, load = Return cfg s → Decrypt.threshold cfg = decimal_value ds))
       ∧ (∀ cfg s, load = Return cfg s → 0 ≤ Decrypt.threshold cfg)).
Proof.
  intros Hp. split.
  { intros Hf. destruct σ as [rcp ef td ak ks rk ts vpk [f con dia lg]]; cbn in *; subst.
    unfold Decrypt.get_recipient_config, Os.exists_. munfold. cbn.
    rewrite Hf. done. }
  intros config_content Hf σ' load.
  assert (Hload := load_outcome σ path config_content Hp Hf). fold σ' load in Hload.
  assert (Hs : is_Some (Re.search false Re.shares_re config_content)
               ↔ has_shares_block config_content).
  { split; [intros [mo H]; by apply shares_search_shape in H
           | apply shares_search_found]. }
  assert (Hfirst : ∀ ds, first_threshold config_content ds ↔
                         ∃ tm, Re.search false Re.threshold_re config_content = Some tm
                               ∧ Re.group tm = ds).
  { intros ds. split; [apply threshold_search_first|].
    intros (tm & Htm & <-). by apply search_threshold_first. }
  assert (Hfield : has_threshold_field config_content
                   ↔ ∃ ds, first_threshold config_content ds).
  { split.
    - intros [tm Htm]%threshold_search_found. exists (Re.group tm).
      by apply search_threshold_first.
    - intros [ds Hds]. by eapply first_threshold_field. }
  split_and!.
  - destruct (Re.search false Re.threshold_re config_content) as [tm|] eqn:Htm.
    + assert (has_threshold_field config_content).
      { apply Hfield. exists (Re.group tm). apply Hfirst. by exists tm. }
      rewrite Hload. split; [|done].
      destruct (Py.int (Re.group tm)); [|done].
      by destruct (Re.search false Re.shares_re config_content).
    + rewrite Hload. split; [|done].
      intros _ [ds (tm & ? & _)%Hfirst]%Hfield. done.
  - done.
  - intros ds Hds. split; [intros ds' Hds'; by eapply first_threshold_unique|].
    destruct (first_threshold_digits _ _ Hds) as (Hdec & Hne).
    apply Hfirst in Hds as (tm & Htm & <-). rewrite Htm in Hload.
    destruct (Z_le_gt_dec (Z.of_nat (String.length (Re.group tm))) Py.int_max_str_digits)
      as [Hlen|Hlen].
    + rewrite (int_within_limit _ Hdec Hne Hlen) in Hload.
      destruct (Re.search false Re.shares_re config_content) as [sm|] eqn:Hsm;
        rewrite Hload; split_and!.
      * split; [done | lia].
      * split; [done | intros [_ Hno]; destruct Hno; apply Hs; by eexists].
      * split; [intros _; split; [done | apply Hs; by eexists] | intros _; by eexists].
      * by intros cfg s [= <- _].
      * split; [done | lia].
      * split; [intros _; split; [done|]; intros Hb; apply Hs in Hb; by destruct Hb | done].
      * split; [by intros [? ?] | intros [_ Hb]; apply Hs in Hb; by destruct Hb].
      * done.
    + rewrite int_over_limit in Hload by lia. rewrite Hload. split_and!.
      * split; [lia | done].
      * split; [done | lia].
      * split; [by intros [? ?] | lia].
      * done.
  - intros cfg s Hret. by apply load_returns in Hret as (_ & ? & _).
Qed.

Lemma C4_load_failures_witness :
  ¬ has_threshold_field (Demo.policy_text "-1")
  ∧ first_threshold (Demo.policy_text "07") "07"
  ∧ has_shares_block (Demo.policy_text "07")
  ∧ ∃ σ', Decrypt.get_recipient_config (Demo.loading (Demo.policy_text "07"))
          = Return {| Decrypt.threshold := 7; Decrypt.total := 3;
                      Decrypt.recipient_public_keys := ["age1aaa"; "age1bbb"; "age1ccc"] |}
              σ'.
Proof.
  destruct (C4_load_failures (Demo.loading (Demo.policy_text "-1"))
              "/legacy/internals/encrypted/recipients.yaml" eq_refl) as [_ Hneg].
  destruct (C4_load_failures (Demo.loading (Demo.policy_text "07"))
              "/legacy/internals/encrypted/recipients.yaml" eq_refl) as [_ Hseven].
  specialize (Hneg (Demo.policy_text "-1") eq_refl). cbn zeta in Hneg.
  specialize (Hseven (Demo.policy_text "07") eq_refl). cbn zeta in Hseven.
  destruct Hneg as (Hneg & _). destruct Hseven as (_ & Hfield & Hdigits & _).
  assert (Hhas : has_threshold_field (Demo.policy_text "07")).
  { exists "", " ", "0"%char,
      ("7" +:+ Py.nl +:+ "shares:" +:+ Py.nl
       +:+ "  - age1aaa" +:+ Py.nl +:+ "  - age1bbb" +:+ Py.nl +:+ "  - age1ccc" +:+ Py.nl).
    by split_and!. }
  apply Hfield in Hhas as [ds Hds].
  destruct (Hdigits ds Hds) as (Huniq & _ & _ & Hret & Hval).
  assert (Hfirst : first_threshold (Demo.policy_text "07") "07").
  { exists "", (Demo.policy_text "07"). split_and!; [done | | by intros [|??] ????].
    exists " ", (Py.nl +:+ "shares:" +:+ Py.nl
       +:+ "  - age1aaa" +:+ Py.nl +:+ "  - age1bbb" +:+ Py.nl +:+ "  - age1ccc" +:+ Py.nl).
    by split_and!. }
  apply Huniq in Hfirst as Heq. subst ds.
  split; [apply Hneg; vm_compute; reflexivity|].
  split; [exact Hds|].
  split; [apply Hret; eexists; vm_compute; reflexivity|].
  eexists. vm_compute. reflexivity.
Defined.

(** C5 as stated fails: the loader returns a policy whose threshold exceeds
    the number of its identities, and one that has no identity at all. *)
Lemma C5_threshold_above_count_counterexample :
  (∃ σ cfg, Decrypt.get_recipient_config (Demo.loading (Demo.policy_text "5"))
            = Return cfg σ
            ∧ Decrypt.threshold cfg = 5
            ∧ List.length (Decrypt.recipient_public_keys cfg) = 3%nat
            ∧ ¬ Decrypt.threshold cfg
                ≤ Z.of_nat (List.length (Decrypt.recipient_public_keys cfg)))
  ∧ (∃ σ cfg, Decrypt.get_recipient_config (Demo.loading Demo.bare_policy)
              = Return cfg σ
              ∧ List.length (Decrypt.recipient_public_keys cfg) = 0%nat).
Proof.
  split; do 2 eexists; (split; [vm_compute; reflexivity|]); cbn; split_and?; try done.
  lia.
Qed.

(** C5, amended.  Every policy the loader returns has a threshold that is
    not negative, a total that is the number of its identities, and
    identities that each are [age1] followed by characters that are not
    white space.  The loader does not compare the threshold with the number
    of identities and does not require an identity, and [run] copies the
    three values into the decryptor as they are. *)
Theorem C5_loaded_policy σ cfg s :
  Decrypt.get_recipient_config σ = Return cfg s →
  0 ≤ Decrypt.threshold cfg
  ∧ Decrypt.total cfg = Z.of_nat (List.length (Decrypt.recipient_public_keys cfg))
  ∧ Forall key_shape (Decrypt.recipient_public_keys cfg)
  ∧ Decrypt.required_key_count (Decrypt.with_config cfg s) = Decrypt.threshold cfg
  ∧ Decrypt.total_shares (Decrypt.with_config cfg s) = Decrypt.total cfg
  ∧ Decrypt.valid_public_keys (Decrypt.with_config cfg s)
    = Decrypt.recipient_public_keys cfg.
Proof.
  intros H. apply load_returns in H as (Ht & Hn & Hk). by split_and!.
Qed.

Lemma C5_loaded_policy_witness :
  ∃ σ cfg, Decrypt.get_recipient_config (Demo.loading (Demo.policy_text "5"))
           = Return cfg σ
           ∧ Decrypt.required_key_count (Decrypt.with_config cfg σ) = 5
           ∧ Forall key_shape (Decrypt.recipient_public_keys cfg).
Proof.
  eexists. eexists. split; [vm_compute; reflexivity|].
  match goal with
  | |- context [Decrypt.with_config ?cfg ?s] =>
      destruct (C5_loaded_policy (Demo.loading (Demo.policy_text "5")) cfg s)
        as (_ & _ & Hk & Hr & _ & _); [vm_compute; reflexivity|]
  end.
  split; [exact Hr | exact Hk].
Defined.

(** ** One turn of the collection loop *)

Ltac unfold_turn :=
  unfold Decrypt.iteration, Decrypt.show_banner_message,
    Decrypt.get_key_file_from_user, Decrypt.test_key_path_already_attempted,
    Decrypt.get_secret_key_from_file, Decrypt.get_public_key_from_secret,
    Decrypt.test_key_usage_for_file, Os.tk_init, Os.input, Os.askopenfilename, Os.popen,
    Os.read_text, Os.exists_, Os.print in *; munfold.

Lemma iteration_return P l σ l' v σ' :
  Decrypt.iteration P l σ = Return (l', v) σ' →
  turn_ok l σ l' v σ' ∧
  (List.length (console (Decrypt.the_world σ')) < List.length (console (Decrypt.the_world σ)))%nat.
Proof.
  destruct σ as [rcp ef td ak ks rk ts vpk [f con dia lg]].
  unfold_turn. cbn. intros H. crunch H.
  all: injection H as <- <- <-; unfold turn_ok; cbn.
  all: repeat split; eauto; lia.
Qed.

Lemma iteration_escape P l σ :
  match Decrypt.iteration P l σ with
  | Return _ _ => True
  | Raise _ σ' | Blocked σ' => untouched σ σ'
  end.
Proof.
  destruct (Decrypt.iteration P l σ) eqn:H; [done | |].
  all: destruct σ as [rcp ef td ak ks rk ts vpk [f con dia lg]].
  all: unfold_turn; cbn in H; crunch H.
  all: try (injection H as <- <-); try (injection H as <-). all: done.
Qed.

Lemma accepted_paths_cons v h :
  accepted_paths (v :: h) =
    match v with Decrypt.KeyAccepted p _ => p :: accepted_paths h | _ => accepted_paths h end.
Proof. by destruct v. Qed.

Lemma reported_remaining_cons v h :
  reported_remaining (v :: h) =
    match v with Decrypt.KeyAccepted _ r => r :: reported_remaining h | _ => reported_remaining h end.
Proof. by destruct v. Qed.

Lemma collect_S P fuel l σ :
  Decrypt.collect P (S fuel) l σ =
    if Decrypt.valid_key_count l <? Decrypt.required_key_count σ
    then match Decrypt.iteration P l σ with
         | Return (l', v) σ' =>
             let c := Decrypt.collect P fuel l' σ' in
             {| Decrypt.history := v :: Decrypt.history c;
                Decrypt.finish := Decrypt.finish c |}
         | Raise e σ' => {| Decrypt.history := []; Decrypt.finish := Raise e σ' |}
         | Blocked σ' => {| Decrypt.history := []; Decrypt.finish := Blocked σ' |}
         end
    else {| Decrypt.history := []; Decrypt.finish := Return l σ |}.
Proof. reflexivity. Qed.

(** The invariant of the collection loop, from any turn on. *)
Lemma collect_invariant P fuel : ∀ l σ,
  Z.of_nat (List.length (Decrypt.key_secrets σ)) = Decrypt.valid_key_count l →
  Decrypt.valid_key_count l ≤ Decrypt.required_key_count σ →
  let k := Decrypt.required_key_count σ in
  let c := Decrypt.collect P fuel l σ in
  let n := Decrypt.valid_key_count l
           + Z.of_nat (List.length (accepted_paths (Decrypt.history c))) in
  (returned (Decrypt.finish c) = true ↔ n = k)
  ∧ n ≤ k
  ∧ NoDup (accepted_paths (Decrypt.history c))
  ∧ (∀ p, p ∈ accepted_paths (Decrypt.history c) → Decrypt.attempted_keys σ !! p = None)
  ∧ Z.of_nat (List.length (Decrypt.key_secrets (final (Decrypt.finish c)))) = n
  ∧ Forall (λ r, 0 ≤ r) (reported_remaining (Decrypt.history c))
  ∧ Decrypt.required_key_count (final (Decrypt.finish c)) = k.
Proof.
  induction fuel as [|fuel IH]; intros l σ Hlen Hle; cbn zeta.
  - cbn. destruct (Z.ltb_spec (Decrypt.valid_key_count l) (Decrypt.required_key_count σ));
      cbn; repeat split; try lia; try done; try constructor; set_solver.
  - rewrite collect_S.
    destruct (Z.ltb_spec (Decrypt.valid_key_count l) (Decrypt.required_key_count σ)) as [Hlt|Hge].
    2:{ cbn; repeat split; try lia; try done; try constructor; set_solver. }
    pose proof (iteration_escape P l σ) as Hesc.
    destruct (Decrypt.iteration P l σ) as [[l' v] σ'| e σ' | σ'] eqn:Hit.
    2,3: destruct Hesc as (Hr & Hk & Ha); cbn; rewrite ?Hr, ?Hk;
         repeat split; try lia; try done; try constructor; set_solver.
    apply iteration_return in Hit as [(Hr & Hv & Ht & Hturn) _].
    cbn [Decrypt.history Decrypt.finish]. rewrite accepted_paths_cons, reported_remaining_cons.
    destruct v; try destruct Hturn as (-> & Hk & Ha).
    5:{ destruct Hturn as (Hnone & Ha & [s Hs] & Hvk & ->).
        specialize (IH l' σ').
        rewrite Hs, length_app, Hr, Hvk in IH. cbn in IH.
        destruct IH as (I1 & I2 & I3 & I4 & I5 & I6 & I7); [lia | lia |].
        assert (key_path ∉ accepted_paths (Decrypt.history (Decrypt.collect P fuel l' σ'))).
        { intros Hin. apply I4 in Hin. rewrite Ha, lookup_insert_eq in Hin. done. }
        cbn [List.length]. repeat split.
        - intros Hc. apply I1 in Hc. lia.
        - intros Hn. apply I1. lia.
        - lia.
        - by constructor.
        - intros p [->|Hin]%elem_of_cons; [done|].
          apply I4 in Hin. rewrite Ha in Hin. by apply lookup_insert_None in Hin as [? _].
        - lia.
        - constructor; [lia | done].
        - done. }
    all: specialize (IH l σ'); rewrite Hk, Hr in IH;
      destruct IH as (I1 & I2 & I3 & I4 & I5 & I6 & I7); [done | done |];
      repeat split; try tauto; try done.
    all: intros q Hq; apply I4 in Hq.
    all: first [ by rewrite <- Ha
               | destruct Ha as (p & Hp & Ha); rewrite Ha in Hq;
                 by apply lookup_insert_None in Hq as [? _] ].
Qed.

(** The loop never uses up the turns [Decrypt.turns] grants it. *)
Lemma collect_fuel P : ∀ fuel1 fuel2 l σ,
  (List.length (console (Decrypt.the_world σ)) < fuel1)%nat →
  (List.length (console (Decrypt.the_world σ)) < fuel2)%nat →
  Decrypt.collect P fuel1 l σ = Decrypt.collect P fuel2 l σ.
Proof.
  induction fuel1 as [|fuel1 IH]; intros fuel2 l σ H1 H2; [lia|].
  destruct fuel2 as [|fuel2]; [lia|]. rewrite !collect_S.
  destruct (_ <? _); [|done].
  destruct (Decrypt.iteration P l σ) as [[l' v] σ'| |] eqn:Hit; try done.
  apply iteration_return in Hit as [_ Hc].
  rewrite (IH fuel2); [done | lia | lia].
Qed.

Lemma key_accepted_sound P l σ l' p r σ' :
  Decrypt.iteration P l σ = Return (l', Decrypt.KeyAccepted p r) σ' →
  passes_all_checks P σ p.
Proof.
  destruct σ as [rcp ef td ak ks rk ts vpk [f con dia lg]].
  unfold_turn. cbn. intros H. crunch H.
  all: injection H as <- <- <- <-; unfold passes_all_checks, Py.mem in *; cbn.
  all: repeat match goal with
         | H : negb _ = false |- _ => apply negb_false_iff in H
         | H : _ || _ = false |- _ => apply orb_false_iff in H as [? ?]
         | H : bool_decide _ = true |- _ => apply bool_decide_eq_true in H
         | H : (_ =? _) = true |- _ => apply Z.eqb_eq in H
         end.
  all: split; [done|]; do 2 eexists; repeat split; eauto.
Qed.

(** A path that is in the ledger: the turn stops at the duplicate check. *)
Lemma iteration_duplicate (P : platform) l σ path (prior : bool) enter cs ds :
  banner_ok l →
  dialogs (Decrypt.the_world σ) = Selected path :: ds →
  console (Decrypt.the_world σ) = Line enter :: cs →
  path ≠ "" →
  Decrypt.attempted_keys σ !! path = Some prior →
  let msg := "This file has already been "
             +:+ (if prior then "accepted" else "declined")
             +:+ ". Please select a different one." in
  Decrypt.iteration P l σ =
    Return (l, Decrypt.AlreadyAttempted msg)
      (Decrypt.with_world
         {| fs := fs (Decrypt.the_world σ); console := cs; dialogs := ds;
            log := log (Decrypt.the_world σ)
                   ++ [Dialog; Input; Printed (Py.nl +:+ "Error: " +:+ msg)] |} σ).
Proof.
  intros Hb Hd Hc Hp Ha msg.
  destruct σ as [rcp ef td ak ks rk ts vpk [f con dia lg]]; simpl in *; subst.
  unfold banner_ok in Hb. apply String.eqb_neq in Hp.
  unfold_turn. rewrite Hb. cbn. rewrite Hp. cbn. rewrite Ha. cbn.
  unfold Decrypt.with_world, emit, with_console, with_dialogs; cbn.
  rewrite <- !app_assoc. reflexivity.
Qed.


(** A turn that waits for ever waits for the console or for the dialog. *)
Lemma iteration_blocked P l σ σ' :
  Decrypt.iteration P l σ = Blocked σ' →
  console (Decrypt.the_world σ') = [] ∨ dialogs (Decrypt.the_world σ') = [].
Proof.
  destruct σ as [rcp ef td ak ks rk ts vpk [f con dia lg]].
  unfold_turn. cbn. intros H. crunch H.
  all: injection H as <-; cbn; auto.
Qed.

(** A candidate that passes every check is accepted. *)
Lemma iteration_accepts (P : platform) l σ path enter cs ds :
  banner_ok l →
  dialogs (Decrypt.the_world σ) = Selected path :: ds →
  console (Decrypt.the_world σ) = Line enter :: cs →
  path ≠ "" →
  passes_all_checks P σ path →
  ∃ l' σ',
    Decrypt.iteration P l σ
    = Return (l', Decrypt.KeyAccepted path
                    (Decrypt.required_key_count σ - (Decrypt.valid_key_count l + 1))) σ'
    ∧ Decrypt.valid_key_count l' = Decrypt.valid_key_count l + 1.
Proof.
  intros Hb Hd Hc Hp (Ha & key_content & process & Hf & Hfmt & Hex & Hgen & He1 & He2
                      & Hrc & Hpk & Hin).
  destruct σ as [rcp ef td ak ks rk ts vpk [f con dia lg]]; simpl in *; subst.
  unfold banner_ok in Hb. apply String.eqb_neq in Hp.
  unfold_turn. rewrite Hb. cbn. rewrite Hp. cbn. rewrite Ha. cbn.
  rewrite Hf. cbn. rewrite Hfmt. cbn.
  rewrite (bool_decide_eq_true_2 _ Hex). cbn.
  unfold Re.secret_key_re, Re.seq in Hgen. rewrite Hgen. cbn.
  rewrite He1, He2, Hrc, Hpk. cbn.
  unfold Py.mem. rewrite (bool_decide_eq_true_2 _ Hin). cbn.
  destruct (0 <? rk - (Decrypt.valid_key_count l + 1)); cbn; do 2 eexists; split; reflexivity.
Qed.

(** Declining to try again after a failed selection does not end the loop:
    the error that was meant to end it is caught by the handler of the
    turn. *)
Lemma declining_to_retry_goes_on (P : platform) l σ msg answer cs ds :
  banner_ok l →
  dialogs (Decrypt.the_world σ) = DialogError msg :: ds →
  console (Decrypt.the_world σ) = Line "" :: Line answer :: cs →
  Decrypt.yes answer = false →
  ∃ σ', Decrypt.iteration P l σ
        = Return (l, Decrypt.Unexpected "You terminated the program") σ'
        ∧ untouched σ σ'.
Proof.
  intros Hb Hd Hc Hyes.
  destruct σ as [rcp ef td ak ks rk ts vpk [f con dia lg]]; simpl in *; subst.
  unfold banner_ok in Hb.
  unfold_turn. rewrite Hb. cbn. rewrite Hyes. cbn.
  eexists. split; [reflexivity | done].
Qed.

(** With the turns [Decrypt.turns] grants, a loop that waits for ever waits
    for the console or for the dialog. *)
Lemma collect_blocked P : ∀ fuel l σ σ',
  (List.length (console (Decrypt.the_world σ)) < fuel)%nat →
  Decrypt.finish (Decrypt.collect P fuel l σ) = Blocked σ' →
  console (Decrypt.the_world σ') = [] ∨ dialogs (Decrypt.the_world σ') = [].
Proof.
  induction fuel as [|fuel IH]; intros l σ σ' Hfuel H; [lia|].
  rewrite collect_S in H. destruct (_ <? _); [|done].
  destruct (Decrypt.iteration P l σ) as [[l' v] σ1| |σ1] eqn:Hit; cbn in H.
  - apply iteration_return in Hit as [_ Hc]. apply (IH l' σ1); [lia | done].
  - done.
  - injection H as <-. by eapply iteration_blocked.
Qed.

(** C1.  For a valid policy with threshold [k], the collection loop of [run]
    is complete exactly when [k] candidates have been accepted: the accepted
    key files have distinct paths, a candidate is accepted exactly when it
    passes every check, the list of collected secrets has length [k] when
    the loop is left, fewer accepted candidates (none, in particular) never
    leave it, and the remaining count [required - len(collected)] that is
    reported is never negative, whatever number of turns has been taken.  A
    loop that is not complete has been left by an exception or is waiting
    for the user. *)
Theorem C1_quorum_exactly_threshold (P : platform) (σ : Decrypt.session) (fuel : nat) :
  valid_policy (Decrypt.required_key_count σ) (Decrypt.valid_public_keys σ) →
  Decrypt.attempted_keys σ = ∅ →
  Decrypt.key_secrets σ = [] →
  let k := Decrypt.required_key_count σ in
  let c := Decrypt.collect P fuel (loop_entry k) σ in
  let accepted := accepted_paths (Decrypt.history c) in
  let collected := Decrypt.key_secrets (final (Decrypt.finish c)) in
  (returned (Decrypt.finish c) = true ↔ Z.of_nat (List.length accepted) = k)
  ∧ (returned (Decrypt.finish c) = true → Z.of_nat (List.length collected) = k)
  ∧ Z.of_nat (List.length accepted) ≤ k
  ∧ NoDup accepted
  ∧ (accepted = [] → returned (Decrypt.finish c) = false)
  ∧ Forall (λ remaining_keys, 0 ≤ remaining_keys)
           (reported_remaining (Decrypt.history c))
  ∧ 0 ≤ k - Z.of_nat (List.length collected)
  ∧ (∀ σ', (List.length (console (Decrypt.the_world σ)) < fuel)%nat →
           Decrypt.finish c = Blocked σ' →
           console (Decrypt.the_world σ') = [] ∨ dialogs (Decrypt.the_world σ') = [])
  ∧ (∀ l s l' p r s',
       Decrypt.iteration P l s = Return (l', Decrypt.KeyAccepted p r) s' →
       passes_all_checks P s p)
  ∧ (∀ l s p enter cs ds,
       banner_ok l →
       dialogs (Decrypt.the_world s) = Selected p :: ds →
       console (Decrypt.the_world s) = Line enter :: cs →
       p ≠ "" →
       passes_all_checks P s p →
       ∃ l' s',
         Decrypt.iteration P l s
         = Return (l', Decrypt.KeyAccepted p
                         (Decrypt.required_key_count s - (Decrypt.valid_key_count l + 1))) s'
         ∧ Decrypt.valid_key_count l' = Decrypt.valid_key_count l + 1).
Proof.
  intros (Hk & _ & _) Ha Hs k c accepted collected.
  destruct (collect_invariant P fuel (loop_entry k) σ)
    as (I1 & I2 & I3 & I4 & I5 & I6 & I7).
  { rewrite Hs. reflexivity. }
  { cbn. lia. }
  cbn [loop_entry Decrypt.valid_key_count] in *.
  fold k c in I1, I2, I3, I5, I6. fold accepted in I1, I2, I3, I5. fold collected in I5.
  split_and!.
  - split; intros H; [apply I1 in H; lia | apply I1; lia].
  - intros H. apply I1 in H. lia.
  - lia.
  - done.
  - intros Hnil. destruct (returned (Decrypt.finish c)) eqn:Hr; [|done].
    assert (0 + Z.of_nat (List.length accepted) = k) as Hn by by apply I1.
    rewrite Hnil in Hn. cbn in Hn. lia.
  - done.
  - lia.
  - intros σ' Hfuel Hblocked. by eapply collect_blocked.
  - eapply key_accepted_sound; eauto.
  - intros l s p enter cs ds. apply iteration_accepts.
Qed.

Lemma C1_quorum_witness :
  let c := Decrypt.collect Demo.P 4 (loop_entry 2) Demo.four_turns in
  returned (Decrypt.finish c) = true
  ∧ accepted_paths (Decrypt.history c) = ["/keys/a.yaml"; "/keys/b.yaml"]
  ∧ Z.of_nat (List.length (Decrypt.key_secrets (final (Decrypt.finish c)))) = 2.
Proof.
  pose proof (C1_quorum_exactly_threshold Demo.P Demo.four_turns 4) as H.
  destruct H as (H1 & H2 & _).
  - repeat split; [cbn; lia | cbn; lia |].
    apply (bool_decide_unpack _). vm_compute. reflexivity.
  - reflexivity.
  - reflexivity.
  - cbn zeta. split; [vm_compute; reflexivity|].
    split; [vm_compute; reflexivity|].
    apply H2. vm_compute. reflexivity.
Defined.

(** C2.  A key file that is new to the ledger, passes the format check and
    whose secret [age-keygen -y] turns into a well-formed public key that is
    not in the list of the session is rejected by [test_key_usage_for_file]:
    the turn reports that the key was not used for the file, the ledger
    records the path as declined, and the collected secrets and the count of
    valid keys are as before. *)
Theorem C2_unauthorized_key_declined (P : platform) l σ path enter cs ds
    key_content process :
  banner_ok l →
  dialogs (Decrypt.the_world σ) = Selected path :: ds →
  console (Decrypt.the_world σ) = Line enter :: cs →
  path ≠ "" →
  Decrypt.attempted_keys σ !! path = None →
  fs (Decrypt.the_world σ) !! path = Some (File key_content) →
  Decrypt.test_secret_key_format key_content = true →
  is_Some (fs (Decrypt.the_world σ) !! Decrypt.age_keygen_path P) →
  age_keygen P [Decrypt.age_keygen_path P; "-y"]
    (default "" (Re.group <$> Re.search true Re.secret_key_re key_content))
    = Ran process →
  Py.contains "malformed secret key" (stderr process) = false →
  Py.contains "failed to parse" (stderr process) = false →
  returncode process = 0 →
  Decrypt.test_public_key_format (Py.strip (stdout process)) = true →
  Py.strip (stdout process) ∉ Decrypt.valid_public_keys σ →
  let msg := "This key was not one of the keys used to encrypt the file." in
  ∃ σ',
    Decrypt.iteration P l σ = Return (l, Decrypt.ValidateFailed msg) σ'
    ∧ Decrypt.attempted_keys σ' = <[path := false]> (Decrypt.attempted_keys σ)
    ∧ Decrypt.key_secrets σ' = Decrypt.key_secrets σ
    ∧ log (Decrypt.the_world σ') =
        log (Decrypt.the_world σ)
        ++ [Dialog; Input; ReadText path; Popen [Decrypt.age_keygen_path P; "-y"];
            Printed (Py.nl +:+ "Error: " +:+ msg);
            Printed "Please select a different key."].
Proof.
  intros Hb Hd Hc Hp Ha Hf Hfmt Hex Hgen He1 He2 Hrc Hpk Hnot msg.
  destruct σ as [rcp ef td ak ks rk ts vpk [f con dia lg]]; simpl in *; subst.
  unfold banner_ok in Hb. apply String.eqb_neq in Hp.
  unfold_turn. rewrite Hb. cbn. rewrite Hp. cbn. rewrite Ha. cbn.
  rewrite Hf. cbn. rewrite Hfmt. cbn.
  rewrite (bool_decide_eq_true_2 _ Hex). cbn.
  unfold Re.secret_key_re, Re.seq in Hgen. rewrite Hgen. cbn.
  rewrite He1, He2, Hrc, Hpk. cbn.
  unfold Py.mem. rewrite (bool_decide_eq_false_2 _ Hnot). cbn.
  eexists. split; [reflexivity|]. cbn. repeat split.
  rewrite <- !app_assoc. reflexivity.
Qed.

Lemma C2_unauthorized_witness :
  ∃ σ',
    Decrypt.iteration Demo.P (loop_entry 2) Demo.stranger
      = Return (loop_entry 2,
                Decrypt.ValidateFailed
                  "This key was not one of the keys used to encrypt the file.") σ'
    ∧ Decrypt.attempted_keys σ' = <[ "/keys/x.yaml" := false ]> ∅
    ∧ Decrypt.key_secrets σ' = [].
Proof.
  destruct (C2_unauthorized_key_declined Demo.P (loop_entry 2) Demo.stranger
              "/keys/x.yaml" "" [] []
              (Demo.key_file "age1xxx" "AGE-SECRET-KEY-1XXX")
              {| returncode := 0; stdout := "age1xxx" +:+ Py.nl; stderr := "" |})
    as (σ' & H1 & H2 & H3 & _); try (vm_compute; reflexivity).
  - discriminate.
  - vm_compute. eauto.
  - intros Hin. apply (bool_decide_pack _) in Hin. vm_compute in Hin. done.
  - exists σ'. done.
Defined.

(** C3.  A path that is already in the ledger, accepted or declined, is
    refused with the error that names the earlier outcome: the file is not
    read and no tool is started (the only effects are the dialog, the Enter
    key and the error line), the ledger has no new entry, and the collected
    secrets and the count of valid keys are unchanged. *)
Theorem C3_resubmitted_path_already_judged (P : platform) l σ path (prior : bool)
    enter cs ds :
  banner_ok l →
  dialogs (Decrypt.the_world σ) = Selected path :: ds →
  console (Decrypt.the_world σ) = Line enter :: cs →
  path ≠ "" →
  Decrypt.attempted_keys σ !! path = Some prior →
  let msg := "This file has already been "
             +:+ (if prior then "accepted" else "declined")
             +:+ ". Please select a different one." in
  let σ' := Decrypt.with_world
              {| fs := fs (Decrypt.the_world σ); console := cs; dialogs := ds;
                 log := log (Decrypt.the_world σ)
                        ++ [Dialog; Input; Printed (Py.nl +:+ "Error: " +:+ msg)] |} σ in
  Decrypt.iteration P l σ = Return (l, Decrypt.AlreadyAttempted msg) σ'
  ∧ Decrypt.attempted_keys σ' = Decrypt.attempted_keys σ
  ∧ Decrypt.key_secrets σ' = Decrypt.key_secrets σ.
Proof.
  intros Hb Hd Hc Hp Ha msg σ'. split; [|done].
  by apply (iteration_duplicate P l σ path prior enter cs ds).
Qed.

Lemma C3_resubmitted_witness :
  ∃ σ',
    Decrypt.iteration Demo.P (loop_entry 2) Demo.again
      = Return (loop_entry 2,
                Decrypt.AlreadyAttempted
                  "This file has already been accepted. Please select a different one.") σ'
    ∧ Decrypt.attempted_keys σ' = {["/keys/a.yaml" := true]}
    ∧ Decrypt.key_secrets σ' = [Some "AGE-SECRET-KEY-1AAA"]
    ∧ log (Decrypt.the_world σ') =
        [Dialog; Input;
         Printed (Py.nl +:+ "Error: This file has already been accepted. Please select a different one.")].
Proof.
  destruct (C3_resubmitted_path_already_judged Demo.P (loop_entry 2) Demo.again
              "/keys/a.yaml" true "" [] []) as (H1 & H2 & H3);
    try (vm_compute; reflexivity).
  - discriminate.
  - eexists. split; [exact H1|]. repeat split.
Defined.




(** ** The output path *)
(** The output path of the decryptor: never a path that exists; and when
    the first name is taken, the first numbered name that is free. *)
Lemma decrypt_choose_output P σ source_file :
  let '(base_name, extension) := Decrypt.name_parts P source_file in
  let first := Os.join (Decrypt.desktop P) (Decrypt.output_filename P base_name extension) in
  let numbered counter :=
    Os.join (Decrypt.desktop P) (Decrypt.output_filename_n P base_name extension counter) in
  let files := fs (Decrypt.the_world σ) in
  (∃ output_path, Decrypt.choose_output_path P source_file σ = Return output_path σ
                  ∧ files !! output_path = None)
  ∧ (is_Some (files !! first) →
     ∃ counter, 1 ≤ counter
       ∧ Decrypt.choose_output_path P source_file σ = Return (numbered counter) σ
       ∧ files !! numbered counter = None
       ∧ numbered counter ≠ first
       ∧ ∀ j, 1 ≤ j < counter → is_Some (files !! numbered j)).
Proof.
  unfold Decrypt.choose_output_path.
  destruct (Decrypt.name_parts P source_file) as [base_name extension].
  set (first := Os.join _ (Decrypt.output_filename _ _ _)).
  set (numbered := λ counter : Z, Os.join _ (Decrypt.output_filename_n _ _ _ counter)).
  assert (Hsome : is_Some (fs (Decrypt.the_world σ) !! first) →
    ∃ counter, 1 ≤ counter
      ∧ while_exists (S (size (fs (Decrypt.the_world σ)))) numbered first 1
          (Decrypt.the_world σ) = Return (numbered counter) (Decrypt.the_world σ)
      ∧ fs (Decrypt.the_world σ) !! numbered counter = None
      ∧ numbered counter ≠ first
      ∧ ∀ j, 1 ≤ j < counter → is_Some (fs (Decrypt.the_world σ) !! numbered j)).
  { apply while_exists_free. apply decrypt_name_inj. }
  assert (Hw : Decrypt.with_world (Decrypt.the_world σ) σ = σ) by by destruct σ.
  cbn zeta. split.
  - destruct (fs (Decrypt.the_world σ) !! first) as [x|] eqn:Hf.
    + destruct Hsome as (counter & _ & Hrun & Hnone & _); [by eexists|].
      exists (numbered counter). split; [|done].
      unfold mbind, M_bind, bind, Decrypt.get, Decrypt.lift. rewrite Hrun. by rewrite Hw.
    + exists first. split; [|done].
      unfold mbind, M_bind, bind, Decrypt.get, Decrypt.lift.
      rewrite while_exists_absent by done. by rewrite Hw.
  - intros Hf. destruct (Hsome Hf) as (counter & H1 & Hrun & Hnone & Hne & Hall).
    exists counter. split_and!; try done.
    unfold mbind, M_bind, bind, Decrypt.get, Decrypt.lift. rewrite Hrun. by rewrite Hw.
Qed.

(** The same for the encryptor. *)
Lemma encrypt_choose_output P σ source_file :
  let first := Os.join (Encrypt.encrypted_dir P)
                 (Encrypt.output_filename P (path_stem P source_file)
                    (path_suffix P source_file)) in
  let numbered counter :=
    Os.join (Encrypt.encrypted_dir P)
      (Encrypt.output_filename_n P (path_stem P source_file) counter) in
  let files := fs (Encrypt.the_world σ) in
  (∃ output_path, Encrypt.choose_output_path P source_file σ = Return output_path σ
                  ∧ files !! output_path = None)
  ∧ (is_Some (files !! first) →
     ∃ counter, 1 ≤ counter
       ∧ Encrypt.choose_output_path P source_file σ = Return (numbered counter) σ
       ∧ files !! numbered counter = None
       ∧ numbered counter ≠ first
       ∧ ∀ j, 1 ≤ j < counter → is_Some (files !! numbered j)).
Proof.
  unfold Encrypt.choose_output_path.
  set (first := Os.join _ (Encrypt.output_filename _ _ _)).
  set (numbered := λ counter : Z, Os.join _ (Encrypt.output_filename_n _ _ counter)).
  assert (Hsome : is_Some (fs (Encrypt.the_world σ) !! first) →
    ∃ counter, 1 ≤ counter
      ∧ while_exists (S (size (fs (Encrypt.the_world σ)))) numbered first 1
          (Encrypt.the_world σ) = Return (numbered counter) (Encrypt.the_world σ)
      ∧ fs (Encrypt.the_world σ) !! numbered counter = None
      ∧ numbered counter ≠ first
      ∧ ∀ j, 1 ≤ j < counter → is_Some (fs (Encrypt.the_world σ) !! numbered j)).
  { apply while_exists_free. apply encrypt_name_inj. }
  assert (Hw : Encrypt.with_world (Encrypt.the_world σ) σ = σ) by by destruct σ.
  cbn zeta. split.
  - destruct (fs (Encrypt.the_world σ) !! first) as [x|] eqn:Hf.
    + destruct Hsome as (counter & _ & Hrun & Hnone & _); [by eexists|].
      exists (numbered counter). split; [|done].
      unfold mbind, M_bind, bind, Encrypt.get, Encrypt.lift. rewrite Hrun. by rewrite Hw.
    + exists first. split; [|done].
      unfold mbind, M_bind, bind, Encrypt.get, Encrypt.lift.
      rewrite while_exists_absent by done. by rewrite Hw.
  - intros Hf. destruct (Hsome Hf) as (counter & H1 & Hrun & Hnone & Hne & Hall).
    exists counter. split_and!; try done.
    unfold mbind, M_bind, bind, Encrypt.get, Encrypt.lift. rewrite Hrun. by rewrite Hw.
Qed.

(** C9.  When the name worked out from the source and the date is taken in
    the destination directory, both scripts choose the first name with a
    counter in brackets that is free: the chosen path does not exist when it
    is chosen, is not the name that was taken, and every name with a smaller
    counter exists.  Whether the first name is taken or not, the chosen
    output path never exists. *)
Theorem C9_output_path_is_new (P : platform) :
  (∀ σ source_file,
     let '(base_name, extension) := Decrypt.name_parts P source_file in
     let first := Os.join (Decrypt.desktop P) (Decrypt.output_filename P base_name extension) in
     let numbered counter :=
       Os.join (Decrypt.desktop P) (Decrypt.output_filename_n P base_name extension counter) in
     let files := fs (Decrypt.the_world σ) in
     (∃ output_path, Decrypt.choose_output_path P source_file σ = Return output_path σ
                     ∧ files !! output_path = None)
     ∧ (is_Some (files !! first) →
        ∃ counter, 1 ≤ counter
          ∧ Decrypt.choose_output_path P source_file σ = Return (numbered counter) σ
          ∧ files !! numbered counter = None
          ∧ numbered counter ≠ first
          ∧ ∀ j, 1 ≤ j < counter → is_Some (files !! numbered j)))
  ∧
  (∀ σ source_file,
     let first := Os.join (Encrypt.encrypted_dir P)
                    (Encrypt.output_filename P (path_stem P source_file)
                       (path_suffix P source_file)) in
     let numbered counter :=
       Os.join (Encrypt.encrypted_dir P)
         (Encrypt.output_filename_n P (path_stem P source_file) counter) in
     let files := fs (Encrypt.the_world σ) in
     (∃ output_path, Encrypt.choose_output_path P source_file σ = Return output_path σ
                     ∧ files !! output_path = None)
     ∧ (is_Some (files !! first) →
        ∃ counter, 1 ≤ counter
          ∧ Encrypt.choose_output_path P source_file σ = Return (numbered counter) σ
          ∧ files !! numbered counter = None
          ∧ numbered counter ≠ first
          ∧ ∀ j, 1 ≤ j < counter → is_Some (files !! numbered j))).
Proof.
  split; intros σ source_file;
    [apply decrypt_choose_output | apply encrypt_choose_output].
Qed.

Lemma C9_output_path_witness :
  ∃ counter, 1 ≤ counter
    ∧ Encrypt.choose_output_path Demo.P "/home/u/Desktop/will.pdf"
        (Demo.encrypting "the will")
      = Return (Os.join (Encrypt.encrypted_dir Demo.P)
                  (Encrypt.output_filename_n Demo.P "will" counter))
          (Demo.encrypting "the will")
    ∧ fs (Encrypt.the_world (Demo.encrypting "the will"))
        !! Os.join (Encrypt.encrypted_dir Demo.P)
             (Encrypt.output_filename_n Demo.P "will" counter) = None.
Proof.
  destruct (C9_output_path_is_new Demo.P) as [_ He].
  destruct (He (Demo.encrypting "the will") "/home/u/Desktop/will.pdf") as [_ Htaken].
  destruct Htaken as (counter & H1 & H2 & H3 & _).
  - vm_compute. eauto.
  - exists counter. split_and!; [exact H1 | exact H2 | exact H3].
Defined.

Lemma decrypt_output_free P σ source_file output_path :
  Decrypt.choose_output_path P source_file σ = Return output_path σ →
  fs (Decrypt.the_world σ) !! output_path = None.
Proof.
  intros H. pose proof (decrypt_choose_output P σ source_file) as Hc.
  destruct (Decrypt.name_parts P source_file) as [b e].
  destruct Hc as [(q & Hq & Hnone) _]. rewrite H in Hq. by injection Hq as ->.
Qed.

(** ** The cipher gateway *)

(** The decrypt gateway on the signal that no identity matched: the output
    path is free again when the error is raised. *)
Lemma decrypt_no_identity P σ source_file identity_file output_path process written :
  Decrypt.choose_output_path P source_file σ = Return output_path σ →
  fs (Decrypt.the_world σ) !! output_path = None →
  age P [Decrypt.age_path P; "-d"; "-i"; identity_file; "-o"; output_path; source_file]
      (fs (Decrypt.the_world σ)) = (Ran process, written) →
  Py.contains "no identity matched any of the recipients" (stderr process) = true →
  ∃ σ',
    Decrypt.save_decrypted_file P source_file identity_file σ
      = Raise (DecryptionError
          "Decryption failed. No valid identity was found to decrypt the file. Please ensure you have the correct key files.") σ'
    ∧ fs (Decrypt.the_world σ') = fs (Decrypt.the_world σ).
Proof.
  intros Hpath Hfree Hage Hsig.
  unfold Decrypt.save_decrypted_file. unfold mbind at 1, M_bind, bind at 1.
  rewrite Hpath. unfold popen_age, Os.popen, Os.exists_, Os.unlink. munfold.
  destruct σ as [rcp ef td ak ks rk ts vpk [f con dia lg]]; cbn in *.
  rewrite Hage. destruct written as [content|]; cbn; rewrite Hsig; cbn.
  - rewrite lookup_insert_eq. cbn. rewrite lookup_insert_eq. cbn.
    eexists. split; [reflexivity|]. cbn.
    rewrite delete_insert_eq. by apply delete_id.
  - rewrite Hfree. cbn. eexists. split; reflexivity.
Qed.

(** The decrypt gateway on any other failure of the tool: what the tool
    left at the output path stays there. *)
Lemma decrypt_other_failure P σ source_file identity_file output_path process written :
  Decrypt.choose_output_path P source_file σ = Return output_path σ →
  age P [Decrypt.age_path P; "-d"; "-i"; identity_file; "-o"; output_path; source_file]
      (fs (Decrypt.the_world σ)) = (Ran process, written) →
  Py.contains "no identity matched any of the recipients" (stderr process) = false →
  returncode process ≠ 0 →
  ∃ σ',
    Decrypt.save_decrypted_file P source_file identity_file σ
      = Raise (DecryptionError ("Error decrypting file: " +:+ stderr process)) σ'
    ∧ fs (Decrypt.the_world σ') =
        match written with
        | Some content => <[output_path := File content]> (fs (Decrypt.the_world σ))
        | None => fs (Decrypt.the_world σ)
        end.
Proof.
  intros Hpath Hage Hsig Hrc. apply Z.eqb_neq in Hrc.
  unfold Decrypt.save_decrypted_file. unfold mbind at 1, M_bind, bind at 1.
  rewrite Hpath. unfold popen_age, Os.popen, Os.exists_, Os.unlink. munfold.
  destruct σ as [rcp ef td ak ks rk ts vpk [f con dia lg]]; cbn in *.
  rewrite Hage. destruct written as [content|]; cbn; rewrite Hsig, Hrc; cbn.
  all: eexists; split; reflexivity.
Qed.

(** The encrypt gateway on a failure of the tool: what the tool left at the
    output path stays there. *)
Lemma encrypt_failure P σ source_file recipient output_path process written :
  Encrypt.choose_output_path P source_file σ = Return output_path σ →
  age P [Encrypt.age_path P; "-e"; "-r"; recipient; "-o"; output_path; source_file]
      (fs (Encrypt.the_world σ)) = (Ran process, written) →
  returncode process ≠ 0 →
  ∃ σ',
    Encrypt.encrypt_file P source_file recipient σ
      = Raise (EncryptionError ("Encryption failed: " +:+ stderr process)) σ'
    ∧ fs (Encrypt.the_world σ') =
        match written with
        | Some content => <[output_path := File content]> (fs (Encrypt.the_world σ))
        | None => fs (Encrypt.the_world σ)
        end.
Proof.
  intros Hpath Hage Hrc. apply Z.eqb_neq in Hrc.
  unfold Encrypt.encrypt_file. unfold mbind at 1, M_bind, bind at 1.
  rewrite Hpath. unfold popen_age, Os.popen. munfold.
  destruct σ as [rcp sf td cs [f con dia lg]]; cbn in *.
  rewrite Hage. destruct written as [content|]; cbn; rewrite Hrc; cbn.
  all: eexists; split; reflexivity.
Qed.

(** C6 as stated fails: a failed encryption leaves on disk what the tool had
    written to the output path. *)
Lemma C6_partial_ciphertext_counterexample :
  ∃ σ,
    Encrypt.encrypt_file Demo.P "/home/u/Desktop/will.pdf" "age1sss1recipient"
      (Demo.encrypting "damaged")
    = Raise (EncryptionError
               "Encryption failed: age: error: failed to read input: unexpected EOF") σ
    ∧ fs (Encrypt.the_world (Demo.encrypting "damaged"))
        !! "/legacy/internals/encrypted/[SENSITIVE] will - Encrypted 2026-11-04 (2).age"
      = None
    ∧ fs (Encrypt.the_world σ)
        !! "/legacy/internals/encrypted/[SENSITIVE] will - Encrypted 2026-11-04 (2).age"
      = Some (File "partial").
Proof. eexists. split_and!; vm_compute; reflexivity. Qed.

(** C6, amended.  On the signal that no identity matched, the decrypt
    gateway removes the output file, if the tool made one, before it raises:
    the files are then what they were before the call.  On a failure of the
    tool the encrypt gateway raises at once and removes nothing: the files
    are what the tool left. *)
Theorem C6_gateway_failures (P : platform) :
  (∀ σ source_file identity_file output_path process written,
     Decrypt.choose_output_path P source_file σ = Return output_path σ →
     age P [Decrypt.age_path P; "-d"; "-i"; identity_file; "-o"; output_path; source_file]
         (fs (Decrypt.the_world σ)) = (Ran process, written) →
     Py.contains "no identity matched any of the recipients" (stderr process) = true →
     ∃ σ',
       Decrypt.save_decrypted_file P source_file identity_file σ
       = Raise (DecryptionError
           "Decryption failed. No valid identity was found to decrypt the file. Please ensure you have the correct key files.") σ'
       ∧ fs (Decrypt.the_world σ') = fs (Decrypt.the_world σ)
       ∧ fs (Decrypt.the_world σ') !! output_path = None)
  ∧
  (∀ σ source_file recipient output_path process written,
     Encrypt.choose_output_path P source_file σ = Return output_path σ →
     age P [Encrypt.age_path P; "-e"; "-r"; recipient; "-o"; output_path; source_file]
         (fs (Encrypt.the_world σ)) = (Ran process, written) →
     returncode process ≠ 0 →
     ∃ σ',
       Encrypt.encrypt_file P source_file recipient σ
       = Raise (EncryptionError ("Encryption failed: " +:+ stderr process)) σ'
       ∧ fs (Encrypt.the_world σ') =
           match written with
           | Some content => <[output_path := File content]> (fs (Encrypt.the_world σ))
           | None => fs (Encrypt.the_world σ)
           end).
Proof.
  split.
  - intros σ source_file identity_file output_path process written Hpath Hage Hsig.
    pose proof (decrypt_output_free P σ source_file output_path Hpath) as Hfree.
    destruct (decrypt_no_identity P σ source_file identity_file output_path process
                written Hpath Hfree Hage Hsig) as (σ' & Hrun & Hfs).
    exists σ'. split_and!; [done | done | by rewrite Hfs].
  - intros σ source_file recipient output_path process written.
    apply encrypt_failure.
Qed.

Lemma C6_gateway_witness :
  ∃ σ',
    Decrypt.save_decrypted_file Demo.P "/legacy/internals/encrypted/will.pdf.age"
      "/tmp/digital_legacy_k3/shamir_identity.yaml" (Demo.at_gateway "unknown")
    = Raise (DecryptionError
        "Decryption failed. No valid identity was found to decrypt the file. Please ensure you have the correct key files.") σ'
    ∧ fs (Decrypt.the_world σ')
        !! "/home/u/Desktop/[SENSITIVE] will - Decrypted 2026-11-04.pdf" = None.
Proof.
  destruct (C6_gateway_failures Demo.P) as [Hd _].
  destruct (Hd (Demo.at_gateway "unknown") "/legacy/internals/encrypted/will.pdf.age"
              "/tmp/digital_legacy_k3/shamir_identity.yaml"
              "/home/u/Desktop/[SENSITIVE] will - Decrypted 2026-11-04.pdf"
              {| returncode := 1; stdout := "";
                 stderr := "age: error: no identity matched any of the recipients" |}
              (Some "")) as (σ' & H1 & _ & H3); try (vm_compute; reflexivity).
  exists σ'. split; [exact H1 | exact H3].
Defined.

(** ** Setup of the encryptor *)

(** Setup of the encryptor when the encrypted directory is missing. *)
Lemma setup_without_directory P σ :
  fs (Encrypt.the_world σ) !! Encrypt.encrypted_dir P = None →
  fs (Encrypt.the_world σ) !! (Encrypt.encrypted_dir P +:+ "/recipients.yaml") = None →
  Encrypt.set_up_paths_and_validation P σ
    = Raise (PyException "FileNotFoundError"
               (Encrypt.encrypted_dir P +:+ "/recipients.yaml")) σ.
Proof.
  intros Hdir Hfile.
  destruct σ as [rcp sf td cs [f con dia lg]]; cbn in *.
  unfold Encrypt.set_up_paths_and_validation, Encrypt.find_recipients,
    Os.exists_, Os.glob, Os.write_text.
  munfold. cbn. rewrite Hdir. cbn. rewrite Hfile, dirname_recipients. cbn.
  rewrite Hdir. reflexivity.
Qed.

(** The handler of [run] for what setup raises without its directory. *)
Lemma run_without_directory P σ :
  fs (Encrypt.the_world σ) !! Encrypt.encrypted_dir P = None →
  fs (Encrypt.the_world σ) !! (Encrypt.encrypted_dir P +:+ "/recipients.yaml") = None →
  Encrypt.temp_dir σ = None →
  Encrypt.run P σ
  = (Encrypt.lift Os.input;; mret ())
      (Encrypt.with_world
         (emit (Printed ("Unexpected error: " +:+ Encrypt.encrypted_dir P
                         +:+ "/recipients.yaml"))
            (Encrypt.the_world σ)) σ).
Proof.
  intros Hdir Hfile Htmp.
  unfold Encrypt.run, Encrypt.session_body.
  unfold try_finally, try_except. unfold mbind at 1, M_bind at 1, bind at 1.
  rewrite (setup_without_directory P σ Hdir Hfile). cbn.
  unfold Encrypt.cleanup_temp_files, Encrypt.get, Os.print.
  destruct σ as [rcp sf td cs [f con dia lg]]; cbn in *; subst.
  munfold. cbn. by destruct (Os.input _) as [?|?|?].
Qed.

(** C10.  In the setup of the encryptor the placeholder policy is written
    before the directory is made.  When the encrypted directory is absent,
    setup therefore ends in the error of the write, which it does not
    handle, with the session and the file system as they were: neither the
    directory nor the placeholder exists afterwards.  [run] reports the
    error as unexpected and goes to its pause. *)
Theorem C10_placeholder_before_mkdir (P : platform) σ :
  fs (Encrypt.the_world σ) !! Encrypt.encrypted_dir P = None →
  fs (Encrypt.the_world σ) !! (Encrypt.encrypted_dir P +:+ "/recipients.yaml") = None →
  Encrypt.set_up_paths_and_validation P σ
    = Raise (PyException "FileNotFoundError"
               (Encrypt.encrypted_dir P +:+ "/recipients.yaml")) σ
  ∧ (Encrypt.temp_dir σ = None →
     Encrypt.run P σ
     = (Encrypt.lift Os.input;; mret ())
         (Encrypt.with_world
            (emit (Printed ("Unexpected error: " +:+ Encrypt.encrypted_dir P
                            +:+ "/recipients.yaml"))
               (Encrypt.the_world σ)) σ)).
Proof.
  intros Hdir Hfile. split.
  - by apply setup_without_directory.
  - by apply run_without_directory.
Qed.

Lemma C10_placeholder_witness :
  Encrypt.set_up_paths_and_validation Demo.P (Encrypt.init Demo.fresh)
  = Raise (PyException "FileNotFoundError" "/legacy/internals/encrypted/recipients.yaml")
      (Encrypt.init Demo.fresh).
Proof.
  destruct (C10_placeholder_before_mkdir Demo.P (Encrypt.init Demo.fresh)) as [H _];
    [vm_compute; reflexivity | vm_compute; reflexivity | exact H].
Defined.

(** With the directory in place and no policy in it, setup writes the
    placeholder and does not reach for [mkdir]. *)
Lemma setup_writes_placeholder :
  ∃ σ, Encrypt.set_up_paths_and_validation Demo.P (Encrypt.init Demo.unconfigured)
       = Return () σ
       ∧ log (Encrypt.the_world σ)
         = [Wrote "/legacy/internals/encrypted/recipients.yaml"]
       ∧ fs (Encrypt.the_world σ) !! "/legacy/internals/encrypted/recipients.yaml"
         = Some (File Encrypt.blank_config)
       ∧ Encrypt.recipients_config_path σ
         = Some "/legacy/internals/encrypted/recipients.yaml".
Proof. eexists. split_and!; vm_compute; reflexivity. Qed.

(** ** Teardown *)

Lemma rmtree_removes dir (f : gmap string node) :
  filter (λ kv, Os.inside dir kv.1 = false) f !! dir = None.
Proof.
  apply map_lookup_filter_None. right. intros x _. cbn.
  unfold Os.inside. by rewrite String.eqb_refl.
Qed.

Lemma decrypt_cleanup σ :
  ∃ σ', Decrypt.cleanup_temp_files σ = Return () σ'
        ∧ ∀ d, Decrypt.temp_dir σ = Some d → fs (Decrypt.the_world σ') !! d = None.
Proof.
  destruct σ as [rcp ef td ak ks rk ts vpk [f con dia lg]].
  unfold Decrypt.cleanup_temp_files, Os.exists_, Os.rmtree. munfold. cbn.
  destruct td as [d|]; [|eexists; split; [reflexivity | done]].
  case_bool_decide as Hex; cbn; eexists; (split; [reflexivity|]);
    intros d' [= <-]; cbn.
  - apply rmtree_removes.
  - by apply eq_None_not_Some.
Qed.

Lemma encrypt_cleanup σ :
  ∃ σ', Encrypt.cleanup_temp_files σ = Return () σ'
        ∧ ∀ d, Encrypt.temp_dir σ = Some d → fs (Encrypt.the_world σ') !! d = None.
Proof.
  destruct σ as [rcp sf td cs [f con dia lg]].
  unfold Encrypt.cleanup_temp_files, Os.exists_, Os.rmtree. munfold. cbn.
  destruct td as [d|]; [|eexists; split; [reflexivity | done]].
  case_bool_decide as Hex; cbn; eexists; (split; [reflexivity|]);
    intros d' [= <-]; cbn.
  - apply rmtree_removes.
  - by apply eq_None_not_Some.
Qed.

(** However the [try] block of [run] is left, what follows is at most one
    line of diagnostics, the removal of the temporary directory and the
    pause. *)
Lemma decrypt_teardown P σ σ1 :
  exits (Decrypt.session_body P σ) σ1 →
  ∃ σ1' σ2,
    decrypt_reported σ1 σ1'
    ∧ Decrypt.cleanup_temp_files σ1' = Return () σ2
    ∧ (∀ d, Decrypt.temp_dir σ1 = Some d → fs (Decrypt.the_world σ2) !! d = None)
    ∧ Decrypt.run P σ = Decrypt.wait_for_keypress "Press Enter to exit..." σ2.
Proof.
  intros [[[] Hbody]|[e Hbody]]; unfold Decrypt.run, try_finally, try_except;
    rewrite Hbody.
  - destruct (decrypt_cleanup σ1) as (σ2 & Hc & Hrm).
    exists σ1, σ2. split; [by left|]. split; [done|]. split; [done|].
    unfold mbind, M_bind, bind. rewrite Hc.
    by destruct (Decrypt.wait_for_keypress _ σ2) as [[]| |].
  - set (σ1' := Decrypt.with_world
                  (emit (Printed (Py.nl +:+ match e with
                     | DecryptionError m => "Error: " +:+ m
                     | KeyboardInterrupt => "Operation cancelled by user."
                     | _ => "Unexpected error: " +:+ exn_text e end))
                     (Decrypt.the_world σ1)) σ1).
    destruct (decrypt_cleanup σ1') as (σ2 & Hc & Hrm).
    exists σ1', σ2. split; [right; by eexists|]. split; [done|].
    split; [intros d Hd; apply Hrm; by destruct σ1|].
    assert (Hh : ∀ k : M Decrypt.session (), 
       match (match e with
         | DecryptionError m => Some (Decrypt.lift (Os.print (Py.nl +:+ "Error: " +:+ m)))
         | KeyboardInterrupt => Some (Decrypt.lift (Os.print (Py.nl +:+ "Operation cancelled by user.")))
         | _ => Some (Decrypt.lift (Os.print (Py.nl +:+ "Unexpected error: " +:+ exn_text e)))
         end) with Some h => h σ1 | None => Raise e σ1 end = Return () σ1').
    { intros _. by destruct e. }
    rewrite (Hh (mret ())). unfold mbind, M_bind, bind. rewrite Hc.
    by destruct (Decrypt.wait_for_keypress _ σ2) as [[]| |].
Qed.

Lemma encrypt_teardown P σ σ1 :
  exits (Encrypt.session_body P σ) σ1 →
  ∃ σ1' σ2,
    encrypt_reported σ1 σ1'
    ∧ Encrypt.cleanup_temp_files σ1' = Return () σ2
    ∧ (∀ d, Encrypt.temp_dir σ1 = Some d → fs (Encrypt.the_world σ2) !! d = None)
    ∧ Encrypt.run P σ = (Encrypt.lift Os.input;; mret ()) σ2.
Proof.
  intros [[[] Hbody]|[e Hbody]]; unfold Encrypt.run, try_finally, try_except;
    rewrite Hbody.
  - destruct (encrypt_cleanup σ1) as (σ2 & Hc & Hrm).
    exists σ1, σ2. split; [by left|]. split; [done|]. split; [done|].
    unfold mbind, M_bind, bind. rewrite Hc.
    by destruct (Encrypt.lift Os.input σ2) as [?| |].
  - set (σ1' := Encrypt.with_world
                  (emit (Printed (match e with
                     | EncryptionError m => "Error: " +:+ m
                     | KeyboardInterrupt => "Operation cancelled by user."
                     | _ => "Unexpected error: " +:+ exn_text e end))
                     (Encrypt.the_world σ1)) σ1).
    destruct (encrypt_cleanup σ1') as (σ2 & Hc & Hrm).
    exists σ1', σ2. split; [right; by eexists|]. split; [done|].
    split; [intros d Hd; apply Hrm; by destruct σ1|].
    assert (Hh : match (match e with
         | EncryptionError m => Some (Encrypt.lift (Os.print ("Error: " +:+ m)))
         | KeyboardInterrupt => Some (Encrypt.lift (Os.print "Operation cancelled by user."))
         | _ => Some (Encrypt.lift (Os.print ("Unexpected error: " +:+ exn_text e)))
         end) with Some h => h σ1 | None => Raise e σ1 end = Return () σ1')
      by by destruct e.
    rewrite Hh. unfold mbind, M_bind, bind. rewrite Hc.
    by destruct (Encrypt.lift Os.input σ2) as [?| |].
Qed.

(** Ctrl-C at a numeric prompt: the prompt loop reports an invalid number
    and asks again. *)
Lemma ask_number_interrupt fuel min_val max_val σ cs :
  console (Encrypt.the_world σ) = CtrlC :: cs →
  Encrypt.ask_number (S fuel) min_val max_val σ
  = Encrypt.ask_number fuel min_val max_val
      (Encrypt.with_world
         (emit (Printed "Error: Please enter a valid number.")
            (with_console cs (Encrypt.the_world σ))) σ).
Proof.
  intros Hc. destruct σ as [rcp sf td st [f con dia lg]]; cbn in *; subst.
  cbn. munfold. cbn. reflexivity.
Qed.

Lemma get_numeric_input_interrupt min_val max_val σ cs :
  console (Encrypt.the_world σ) = CtrlC :: cs →
  Encrypt.get_numeric_input min_val max_val σ
  = Encrypt.get_numeric_input min_val max_val
      (Encrypt.with_world
         (emit (Printed "Error: Please enter a valid number.")
            (with_console cs (Encrypt.the_world σ))) σ).
Proof.
  intros Hc. unfold Encrypt.get_numeric_input, Encrypt.turns. rewrite Hc.
  cbn [List.length]. rewrite (ask_number_interrupt _ _ _ σ cs Hc).
  by destruct σ.
Qed.

(** C8 as stated fails: Ctrl-C at the first numeric prompt of an encryption
    is answered with an error line and the prompt again; the session goes
    on to make three key files, write the policy and encrypt, and only then
    removes its temporary directory. *)
Lemma C8_interrupt_counterexample :
  console Demo.interrupted !! 3%nat = Some CtrlC
  ∧ ∃ σ, Encrypt.main Demo.P Demo.interrupted = Return () σ
      ∧ log (Encrypt.the_world σ) =
          [Mkdir "/tmp/digital_legacy_k3"; Input; Input; Dialog; Input;
           Printed "Error: Please enter a valid number."; Input; Input; Input; Input;
           Input; Popen ["/legacy/internals/binaries/age-keygen"];
           Mkdir "/legacy/internals/age-keys-DISTRIBUTE-AND-DELETE";
           Wrote "/legacy/internals/age-keys-DISTRIBUTE-AND-DELETE/Key for Digital Legacy - Ann.yaml";
           Popen ["/legacy/internals/binaries/age-keygen"];
           Mkdir "/legacy/internals/age-keys-DISTRIBUTE-AND-DELETE";
           Wrote "/legacy/internals/age-keys-DISTRIBUTE-AND-DELETE/Key for Digital Legacy - Key2.yaml";
           Popen ["/legacy/internals/binaries/age-keygen"];
           Mkdir "/legacy/internals/age-keys-DISTRIBUTE-AND-DELETE";
           Wrote "/legacy/internals/age-keys-DISTRIBUTE-AND-DELETE/Key for Digital Legacy - Cy.yaml";
           Input; Wrote "/legacy/internals/encrypted/recipients.yaml";
           Popen ["/legacy/internals/binaries/age-plugin-sss"; "--generate-recipient";
                  "/legacy/internals/encrypted/recipients.yaml"];
           Popen ["/legacy/internals/binaries/age"; "-e"; "-r"; "age1sss1recipient"; "-o";
                  "/legacy/internals/encrypted/will - Encrypted 2026-11-04.pdf.age";
                  "/home/u/Desktop/will.pdf"];
           Printed "Your information has been encrypted.";
           Printed "/legacy/internals/encrypted/will - Encrypted 2026-11-04.pdf.age";
           Printed "Encryption completed successfully!";
           Rmtree "/tmp/digital_legacy_k3"; Input].
Proof.
  split; [reflexivity|]. eexists. split; vm_compute; reflexivity.
Qed.

(** C8, amended.  However the [try] block of [run] is left, by its end, by
    an error or by an interrupt that reaches [run], both scripts go on with
    at most one line of diagnostics, then remove the temporary directory and
    only then pause for the Enter key.  An interrupt at a numeric prompt of
    the encryptor does not reach [run]: [get_numeric_input] catches it,
    reports an invalid number and asks again. *)
Theorem C8_teardown_on_exit (P : platform) :
  (∀ σ σ1, exits (Decrypt.session_body P σ) σ1 →
     ∃ σ1' σ2,
       decrypt_reported σ1 σ1'
       ∧ Decrypt.cleanup_temp_files σ1' = Return () σ2
       ∧ (∀ d, Decrypt.temp_dir σ1 = Some d → fs (Decrypt.the_world σ2) !! d = None)
       ∧ Decrypt.run P σ = Decrypt.wait_for_keypress "Press Enter to exit..." σ2)
  ∧ (∀ σ σ1, exits (Encrypt.session_body P σ) σ1 →
     ∃ σ1' σ2,
       encrypt_reported σ1 σ1'
       ∧ Encrypt.cleanup_temp_files σ1' = Return () σ2
       ∧ (∀ d, Encrypt.temp_dir σ1 = Some d → fs (Encrypt.the_world σ2) !! d = None)
       ∧ Encrypt.run P σ = (Encrypt.lift Os.input;; mret ()) σ2)
  ∧ (∀ min_val max_val σ cs,
       console (Encrypt.the_world σ) = CtrlC :: cs →
       Encrypt.get_numeric_input min_val max_val σ
       = Encrypt.get_numeric_input min_val max_val
           (Encrypt.with_world
              (emit (Printed "Error: Please enter a valid number.")
                 (with_console cs (Encrypt.the_world σ))) σ)).
Proof.
  split_and!.
  - apply decrypt_teardown.
  - apply encrypt_teardown.
  - apply get_numeric_input_interrupt.
Qed.

Lemma C8_teardown_witness :
  ∃ σ2, Encrypt.main Demo.P Demo.cancelled = (Encrypt.lift Os.input;; mret ()) σ2
        ∧ fs (Encrypt.the_world σ2) !! "/tmp/digital_legacy_k3" = None.
Proof.
  destruct (C8_teardown_on_exit Demo.P) as (_ & He & _).
  edestruct (He (Encrypt.init Demo.cancelled)) as (σ1' & σ2 & _ & _ & Hrm & Hrun).
  - right. exists KeyboardInterrupt. vm_compute. reflexivity.
  - exists σ2. split; [exact Hrun|]. apply Hrm. vm_compute. reflexivity.
Defined.

(** ** Whole sessions *)

(** Two authorized keys in a row: the quorum is met after two candidates,
    the plaintext is on the desktop and the temporary directory is gone. *)
Example session_two_keys :
  ∃ σ, Decrypt.main Demo.P Demo.scenario_a = Return () σ
       ∧ Decrypt.key_secrets σ = [Some "AGE-SECRET-KEY-1AAA"; Some "AGE-SECRET-KEY-1BBB"]
       ∧ Decrypt.attempted_keys σ
         = {["/keys/a.yaml" := true; "/keys/b.yaml" := true]}
       ∧ fs (Decrypt.the_world σ)
           !! "/home/u/Desktop/[SENSITIVE] will - Decrypted 2026-11-04.pdf"
         = Some (File "the will")
       ∧ fs (Decrypt.the_world σ) !! "/tmp/digital_legacy_k3" = None.
Proof. eexists. split_and!; vm_compute; reflexivity. Qed.

(** A policy without a threshold: the session ends at the loader, before
    any key file is asked for. *)
Example session_without_threshold :
  ∃ σ, Decrypt.main Demo.P Demo.scenario_d = Return () σ
       ∧ log (Decrypt.the_world σ)
         = [Mkdir "/tmp/digital_legacy_k3";
            ReadText "/legacy/internals/encrypted/recipients.yaml";
            Printed (Py.nl +:+ "Error: Unable to find threshold value in config file");
            Rmtree "/tmp/digital_legacy_k3"; Input]
       ∧ dialogs (Decrypt.the_world σ) = [Selected "/keys/a.yaml"].
Proof. eexists. split_and!; vm_compute; reflexivity. Qed.

(** * Further properties of the two scripts *)

Lemma result_Some {S A} (o : outcome S A) a : result o = Some a → o = Return a (final o).
Proof. destruct o; naive_solver. Qed.

(** ** From the encryptor's policy to the decryptor's loader *)

Lemma generate_key_config_writes threshold public_keys path σ p σ' :
  Encrypt.generate_key_config threshold public_keys path σ = Return p σ' →
  p = path
  ∧ fs (Encrypt.the_world σ')
    = <[path := File (policy_content threshold public_keys)]> (fs (Encrypt.the_world σ)).
Proof.
  destruct σ as [rcp sf td cs [f con dia lg]].
  unfold Encrypt.generate_key_config, Os.exists_, Os.input, Os.print, Os.write_text.
  munfold. cbn. intros H. crunch H.
  all: injection H as <- <-; done.
Qed.

Lemma loader_reads_policy σ path threshold public_keys :
  0 ≤ threshold →
  Z.of_nat (String.length (Py.str threshold)) ≤ Py.int_max_str_digits →
  public_keys ≠ [] → Forall key_shape public_keys →
  Decrypt.recipient_config_path σ = Some path →
  fs (Decrypt.the_world σ) !! path
    = Some (File (policy_content threshold public_keys)) →
  Decrypt.get_recipient_config σ
  = Return {| Decrypt.threshold := threshold;
              Decrypt.total := Z.of_nat (List.length public_keys);
              Decrypt.recipient_public_keys := public_keys |}
      (Decrypt.with_world (emit (ReadText path) (Decrypt.the_world σ)) σ).
Proof.
  intros Ht Hlen Hne Hkeys Hp Hf.
  rewrite (load_outcome σ path _ Hp Hf). cbv zeta.
  rewrite policy_content_lines.
  destruct (str_digits threshold Ht) as (Hds & Hnz & Hint).
  destruct (threshold_field_found (Py.str threshold)
              (Py.nl +:+ "shares:" +:+ Py.nl +:+ share_lines public_keys) Hds Hnz)
    as (tm & -> & Htm); [done|].
  rewrite Htm, Hint by done.
  destruct (shares_search_policy (Py.str threshold) public_keys Hds Hne Hkeys)
    as (sm & -> & Hsm).
  rewrite Hsm, public_keys_of_share_lines by done. reflexivity.
Qed.

(** ** What a computation keeps *)

Section Keeps.
Context {S : Type} (R : S → S → Prop) `{!PreOrder R}.

Lemma keeps_ret {A} (a : A) : keeps R (mret a : M S A).
Proof. intros s. reflexivity. Qed.

Lemma keeps_raise {A} e : keeps R (raise e : M S A).
Proof. intros s. reflexivity. Qed.

Lemma keeps_bind {A B} (c : M S A) (k : A → M S B) :
  keeps R c → (∀ a, keeps R (k a)) → keeps R (c ≫= k).
Proof.
  intros Hc Hk s. specialize (Hc s). unfold mbind, M_bind, bind.
  destruct (c s) as [a s'|e s'|s']; cbn in *; [|done|done].
  etrans; [exact Hc | apply Hk].
Qed.

Lemma keeps_try_except {A} (c : M S A) h :
  keeps R c → (∀ e k, h e = Some k → keeps R k) → keeps R (try_except c h).
Proof.
  intros Hc Hh s. specialize (Hc s). unfold try_except.
  destruct (c s) as [a s'|e s'|s']; cbn in *; [done| |done].
  destruct (h e) as [k|] eqn:He; [|done].
  etrans; [exact Hc | by apply (Hh e k)].
Qed.

Lemma keeps_try_finally {A} (c : M S A) f :
  keeps R c → keeps R f → keeps R (try_finally c f).
Proof.
  intros Hc Hf s. specialize (Hc s). unfold try_finally, bind.
  destruct (c s) as [a s'|e s'|s']; cbn in *; [| |done].
  all: etrans; [exact Hc|]; specialize (Hf s'); by destruct (f s') as [u s2|e2 s2|s2].
Qed.

Lemma keeps_catching {A} cls (c : M S A) : keeps R c → keeps R (catching cls c).
Proof.
  intros Hc. unfold catching. apply keeps_try_except.
  - apply (keeps_bind c); [done|]. intros a s. reflexivity.
  - intros e k Hk. destruct (cls e); simplify_eq. intros ?. reflexivity.
Qed.

End Keeps.

(** ** The files the decryptor leaves alone *)

Lemma prefix_app (a b : string) : String.prefix a (a +:+ b) = true.
Proof.
  induction a as [|c a IH]; sapp; simpl; [by destruct b|].
  by destruct (ascii_dec c c).
Qed.

Lemma inside_self d : Os.inside d d = true.
Proof. unfold Os.inside. by rewrite String.eqb_refl. Qed.

Lemma inside_join d n : Os.inside d (Os.join d n) = true.
Proof.
  unfold Os.inside, Os.join. rewrite <- app_assoc_string, prefix_app.
  apply orb_true_r.
Qed.

(** The search for a free name ends on the first name or on a numbered
    one, and on a name that is free. *)
Lemma while_exists_range name_of : ∀ fuel p c w,
  match while_exists fuel name_of p c w with
  | Return q w' => w' = w ∧ fs w !! q = None ∧ (q = p ∨ ∃ n, q = name_of n)
  | Raise _ _ => False
  | Blocked w' => w' = w
  end.
Proof.
  induction fuel as [|fuel IH]; intros p c w; cbn; case_bool_decide as Hp;
    try done.
  - split_and!; [done | by apply eq_None_not_Some | by left].
  - specialize (IH (name_of c) (c + 1) w).
    destruct (while_exists fuel name_of (name_of c) (c + 1) w); [|done|done].
    destruct IH as (-> & Hfree & [->|[n ->]]); split_and!; eauto.
  - split_and!; [done | by apply eq_None_not_Some | by left].
Qed.

Lemma bind_final {S A B} (c : M S A) (k : A → M S B) s :
  final ((c ≫= k) s)
  = match c s with
    | Return a s' => final (k a s')
    | Raise _ s' | Blocked s' => s'
    end.
Proof. unfold mbind, M_bind, bind. by destruct (c s). Qed.

Create HintDb frame.

Ltac quiet :=
  intros ?; unfold Os.exists_, Os.glob, Os.read_text, Os.input, Os.print, Os.tk_init,
    Os.askopenfilename, Os.popen, Os.open_file, ret, raise;
  repeat case_match; reflexivity.

Ltac keep_step :=
  first [ solve [auto with frame]
        | apply keeps_ret; apply _ | apply keeps_raise; apply _
        | apply keeps_bind; [apply _ | | intros ?]
        | apply keeps_catching; [apply _ |]
        | apply keeps_try_except;
          [apply _ |
          |let e := fresh "e" in let k := fresh "k" in let H := fresh "H" in
            intros e k H; destruct e; simplify_eq/=]
        | match goal with
          | |- keeps _ (if ?b then _ else _) => destruct b
          | |- keeps _ (match ?x with _ => _ end) => destruct x
          | |- keeps _ (let _ := _ in _) => cbv zeta
          end ].

Ltac keep := repeat keep_step.

(** The parts of the decryptor that only read files, the console and the
    dialogs keep every relation that such steps keep. *)
Section DecryptReaders.
Context (R : Decrypt.session → Decrypt.session → Prop) `{!PreOrder R}.
Hypothesis R_world : ∀ σ w',
  fs w' = fs (Decrypt.the_world σ) → R σ (Decrypt.with_world w' σ).
Hypothesis R_field : ∀ σ σ',
  Decrypt.temp_dir σ' = Decrypt.temp_dir σ →
  Decrypt.the_world σ' = Decrypt.the_world σ → R σ σ'.
Variable P : platform.

Lemma reader_lift {A} (c : M world A) :
  (∀ w, fs (final (c w)) = fs w) → keeps R (Decrypt.lift c).
Proof.
  intros H σ. unfold Decrypt.lift. specialize (H (Decrypt.the_world σ)).
  destruct (c (Decrypt.the_world σ)); cbn in *; by apply R_world.
Qed.

Lemma reader_get {A} (f : Decrypt.session → A) : keeps R (Decrypt.get f).
Proof. intros σ. reflexivity. Qed.

Lemma reader_modify f :
  (∀ σ, Decrypt.temp_dir (f σ) = Decrypt.temp_dir σ
        ∧ Decrypt.the_world (f σ) = Decrypt.the_world σ) →
  keeps R (Decrypt.modify f).
Proof. intros H σ. cbn. destruct (H σ) as [Ht Hw]. by apply R_field. Qed.

Local Hint Resolve reader_get : frame.
Local Hint Extern 1 (keeps _ (Decrypt.lift _)) => apply reader_lift; quiet : frame.
Local Hint Extern 1 (keeps _ (Decrypt.modify _)) =>
  apply reader_modify; by intros [] : frame.

Lemma reader_set_up_paths_and_validation :
  keeps R (Decrypt.set_up_paths_and_validation P).
Proof. unfold Decrypt.set_up_paths_and_validation. keep. Qed.

Lemma reader_get_recipient_config : keeps R Decrypt.get_recipient_config.
Proof. unfold Decrypt.get_recipient_config. keep. Qed.

Lemma reader_show_ascii_art : keeps R (Decrypt.show_ascii_art P).
Proof. unfold Decrypt.show_ascii_art. keep. Qed.

Lemma reader_show_banner_message m : keeps R (Decrypt.show_banner_message m).
Proof. unfold Decrypt.show_banner_message. keep. Qed.

Lemma reader_wait_for_keypress m : keeps R (Decrypt.wait_for_keypress m).
Proof. unfold Decrypt.wait_for_keypress. keep. Qed.

Lemma reader_iteration l : keeps R (Decrypt.iteration P l).
Proof.
  unfold Decrypt.iteration, Decrypt.show_banner_message, Decrypt.get_key_file_from_user,
    Decrypt.test_key_path_already_attempted, Decrypt.get_secret_key_from_file,
    Decrypt.get_public_key_from_secret, Decrypt.test_key_usage_for_file.
  keep.
Qed.

Lemma reader_collect : ∀ fuel l σ,
  R σ (final (Decrypt.finish (Decrypt.collect P fuel l σ))).
Proof.
  induction fuel as [|fuel IH]; intros l σ.
  - cbn. destruct (_ <? _); reflexivity.
  - rewrite collect_S. destruct (_ <? _); [|reflexivity].
    pose proof (reader_iteration l σ) as Hit.
    destruct (Decrypt.iteration P l σ) as [[l' v] σ'|e σ'|σ']; cbn in *; [|done|done].
    etrans; [exact Hit | apply IH].
Qed.

End DecryptReaders.

Local Instance decrypt_quiet_preorder : PreOrder decrypt_quiet.
Proof.
  split; [by intros σ | intros σ1 σ2 σ3 [H1 H2] [H3 H4]].
  split; congruence.
Qed.

Lemma quiet_world σ w' :
  fs w' = fs (Decrypt.the_world σ) → decrypt_quiet σ (Decrypt.with_world w' σ).
Proof. intros H. split; [by destruct σ | by destruct σ]. Qed.

Lemma quiet_field σ σ' :
  Decrypt.temp_dir σ' = Decrypt.temp_dir σ →
  Decrypt.the_world σ' = Decrypt.the_world σ → decrypt_quiet σ σ'.
Proof. intros H1 H2. split; [done | by rewrite H2]. Qed.

Section DecryptFrame.
Variable P : platform.

Local Instance decrypt_frame_preorder : PreOrder (decrypt_frame P).
Proof.
  split.
  - intros σ HI. split_and!; auto.
  - intros σ1 σ2 σ3 H1 H2 HI. destruct (H1 HI) as (HI2 & Ha & Hb).
    destruct (H2 HI2) as (HI3 & Hc & Hd). split_and!; [done | |].
    + intros p x Hp Hin. apply Hc, Hin. by apply Ha.
    + intros p Hin Hd'. by rewrite Hd, Hb.
Qed.

Local Instance decrypt_safe_preorder : PreOrder (decrypt_safe P).
Proof.
  split.
  - intros σ. split; [reflexivity | auto].
  - intros σ1 σ2 σ3 [H1 J1] [H2 J2]. split; [by etrans | auto].
Qed.

Lemma keeps_frame {A} (c : M Decrypt.session A) :
  keeps (decrypt_safe P) c → keeps (decrypt_frame P) c.
Proof. intros H σ. apply H. Qed.

(** The ways one step changes the files. *)
Lemma safe_intro σ σ' :
  Decrypt.temp_dir σ' = Decrypt.temp_dir σ →
  (fs (Decrypt.the_world σ') = fs (Decrypt.the_world σ)
   ∨ (∃ q x, Os.inside (tmp_name P) q = true
             ∧ fs (Decrypt.the_world σ') = <[q := x]> (fs (Decrypt.the_world σ)))
   ∨ (∃ q x, fs (Decrypt.the_world σ) !! q = None
             ∧ String.prefix (Decrypt.desktop P +:+ "/") q = true
             ∧ fs (Decrypt.the_world σ') = <[q := x]> (fs (Decrypt.the_world σ)))) →
  decrypt_safe P σ σ'.
Proof.
  intros Ht Hfs. unfold decrypt_safe, decrypt_frame, decrypt_temp_ok, decrypt_temp_made.
  rewrite Ht.
  destruct Hfs as [->|[(q & x & Hq & ->)|(q & x & Hnone & Hq & ->)]].
  - split; [intros; split_and!; auto | auto].
  - split.
    + intros HI. split_and!; [done | |].
      * intros p y Hp Hin. rewrite lookup_insert_ne; [done | congruence].
      * intros p Hin _. rewrite lookup_insert_ne; [done | congruence].
    + intros [? ?]. split; [done|]. by apply lookup_insert_is_Some'; right.
  - split.
    + intros HI. split_and!; [done | |].
      * intros p y Hp Hin. rewrite lookup_insert_ne; [done | congruence].
      * intros p _ Hpre. rewrite lookup_insert_ne; [done | congruence].
    + intros [? ?]. split; [done|]. by apply lookup_insert_is_Some'; right.
Qed.

Lemma safe_world σ w' :
  fs w' = fs (Decrypt.the_world σ) → decrypt_safe P σ (Decrypt.with_world w' σ).
Proof. intros H. apply safe_intro; [by destruct σ | left; by destruct σ]. Qed.

Lemma safe_field σ σ' :
  Decrypt.temp_dir σ' = Decrypt.temp_dir σ →
  Decrypt.the_world σ' = Decrypt.the_world σ → decrypt_safe P σ σ'.
Proof. intros H1 H2. apply safe_intro; [done | left; by rewrite H2]. Qed.

Lemma safe_write_temp q content :
  Os.inside (tmp_name P) q = true →
  keeps (decrypt_safe P) (Decrypt.lift (Os.write_text q content)).
Proof.
  intros Hq σ. unfold Decrypt.lift, Os.write_text.
  destruct (fs (Decrypt.the_world σ) !! q) as [[c|]|];
    [| |destruct (Os.dirname q ≫= _) as [[c|]|]].
  all: cbn; apply safe_intro; cbn; try (by destruct σ); eauto 6.
Qed.

Lemma safe_set_up_temp_directory :
  keeps (decrypt_safe P) (Decrypt.set_up_temp_directory P).
Proof.
  intros σ. unfold Decrypt.set_up_temp_directory, Os.mkdtemp. munfold.
  unfold decrypt_safe, decrypt_frame, decrypt_temp_ok, decrypt_temp_made.
  destruct σ as [rcp ef td ak ks rk ts vpk [f con dia lg]]; simpl. split.
  - intros _. split_and!; [by right | |].
    + intros p x Hp Hin. rewrite lookup_insert_ne; [done|].
      intros <-. by rewrite inside_self in Hin.
    + intros p Hin _. rewrite lookup_insert_ne; [done|].
      intros <-. by rewrite inside_self in Hin.
  - intros _. split; [done|]. by rewrite lookup_insert_eq.
Qed.

Lemma safe_get {A} (f : Decrypt.session → A) :
  keeps (decrypt_safe P) (Decrypt.get f).
Proof. apply reader_get, _. Qed.

Lemma safe_lift {A} (c : M world A) :
  (∀ w, fs (final (c w)) = fs w) → keeps (decrypt_safe P) (Decrypt.lift c).
Proof. apply reader_lift, safe_world. Qed.

Lemma safe_modify f :
  (∀ σ, Decrypt.temp_dir (f σ) = Decrypt.temp_dir σ
        ∧ Decrypt.the_world (f σ) = Decrypt.the_world σ) →
  keeps (decrypt_safe P) (Decrypt.modify f).
Proof. apply reader_modify, safe_field. Qed.

Lemma safe_set_up_paths_and_validation :
  keeps (decrypt_safe P) (Decrypt.set_up_paths_and_validation P).
Proof.
  apply reader_set_up_paths_and_validation; [apply _ | apply safe_world | apply safe_field].
Qed.

Lemma safe_get_recipient_config :
  keeps (decrypt_safe P) Decrypt.get_recipient_config.
Proof. apply reader_get_recipient_config; [apply _ | apply safe_world]. Qed.

Lemma safe_show_ascii_art : keeps (decrypt_safe P) (Decrypt.show_ascii_art P).
Proof. apply reader_show_ascii_art; [apply _ | apply safe_world]. Qed.

Lemma safe_show_banner_message m :
  keeps (decrypt_safe P) (Decrypt.show_banner_message m).
Proof. apply reader_show_banner_message, _. Qed.

Lemma safe_wait_for_keypress m :
  keeps (decrypt_safe P) (Decrypt.wait_for_keypress m).
Proof. apply reader_wait_for_keypress; [apply _ | apply safe_world]. Qed.

Local Hint Resolve safe_set_up_temp_directory safe_get
  safe_set_up_paths_and_validation safe_get_recipient_config safe_show_ascii_art
  safe_show_banner_message safe_wait_for_keypress : frame.
Local Hint Extern 1 (keeps _ (Decrypt.lift (Os.write_text _ _))) =>
  apply safe_write_temp; apply inside_join : frame.
Local Hint Extern 2 (keeps _ (Decrypt.lift _)) => apply safe_lift; quiet : frame.
Local Hint Extern 1 (keeps _ (Decrypt.modify _)) =>
  apply safe_modify; by intros [] : frame.

Lemma safe_collection l :
  keeps (decrypt_safe P)
    (λ σ, Decrypt.finish (Decrypt.collect P (Decrypt.turns σ) l σ)).
Proof. intros σ. apply reader_collect; [apply _ | apply safe_world | apply safe_field]. Qed.

Lemma safe_get_shamir_identity key_secrets_array :
  keeps (decrypt_safe P) (Decrypt.get_shamir_identity P key_secrets_array).
Proof.
  intros σ. unfold Decrypt.get_shamir_identity.
  unfold mbind at 1, M_bind at 1, bind at 1, Decrypt.get at 1.
  destruct (Decrypt.temp_dir σ) as [temp|] eqn:Ht; [|reflexivity].
  destruct (decide (temp = tmp_name P)) as [->|Hne].
  - revert σ Ht.
    match goal with
    | |- ∀ σ, _ → decrypt_safe P σ (final (?c σ)) =>
        assert (keeps (decrypt_safe P) c) as Hc by keep
    end.
    intros σ _. apply Hc.
  - split; [intros [?|?]; congruence | intros [? _]; congruence].
Qed.

Lemma safe_save_decrypted_file source_file identity_file :
  keeps (decrypt_safe P) (Decrypt.save_decrypted_file P source_file identity_file).
Proof.
  intros σ. unfold Decrypt.save_decrypted_file, Decrypt.choose_output_path.
  destruct (Decrypt.name_parts P source_file) as [base_name extension].
  set (name_of := λ counter : Z, Os.join _ _).
  set (first := Os.join _ _).
  unfold mbind at 1, M_bind at 1, bind at 1.
  unfold mbind at 1, M_bind at 1, bind at 1, Decrypt.get at 1, Decrypt.lift at 1.
  pose proof (while_exists_range name_of
                (S (size (fs (Decrypt.the_world σ)))) first 1 (Decrypt.the_world σ)) as Hw.
  destruct (while_exists _ _ _ _ _) as [q w'|e w'|w'];
    [|done|subst w'; cbn; apply safe_intro; cbn; [by destruct σ | by left]].
  destruct Hw as (-> & Hfree & Hq).
  assert (Hpre : String.prefix (Decrypt.desktop P +:+ "/") q = true).
  { destruct Hq as [->|[n ->]]; subst first name_of; unfold Os.join;
      by rewrite <- app_assoc_string, prefix_app. }
  clear Hq. destruct σ as [rcp ef td ak ks rk ts vpk [f con dia lg]]; cbn in *.
  unfold popen_age, Os.popen, Os.exists_, Os.unlink. munfold. cbn.
  destruct (age P _ f) as [[c|m|m] [content|]]; cbn.
  1,2: destruct (Py.contains _ _); [|destruct (negb _)]; cbn.
  1: rewrite lookup_insert_eq; cbn; rewrite lookup_insert_eq; cbn.
  4: rewrite Hfree; cbn.
  all: apply safe_intro; cbn; [done|].
  1: left; rewrite delete_insert_eq; by apply delete_id.
  all: first [ by left | right; right; eauto ].
Qed.

Local Hint Resolve safe_collection safe_get_shamir_identity
  safe_save_decrypted_file : frame.

Lemma safe_session_body : keeps (decrypt_safe P) (Decrypt.session_body P).
Proof. unfold Decrypt.session_body. keep. Qed.

(** Teardown removes what is inside the temporary directory and nothing
    else. *)
Lemma frame_cleanup_temp_files :
  keeps (decrypt_frame P) Decrypt.cleanup_temp_files.
Proof.
  intros σ. destruct σ as [rcp ef td ak ks rk ts vpk [f con dia lg]].
  unfold Decrypt.cleanup_temp_files, Os.exists_, Os.rmtree. munfold. cbn.
  destruct td as [d|]; [|reflexivity].
  case_bool_decide; [|reflexivity]. cbn.
  intros [?|?]; simplify_eq/=. split_and!; [by right | |].
  - intros p x Hp Hin. by apply map_lookup_filter_Some_2.
  - intros p Hin _. destruct (f !! p) as [x|] eqn:Hp.
    + by apply map_lookup_filter_Some_2.
    + apply map_lookup_filter_None_2. by left.
Qed.

Lemma cleanup_removes_all σ σ2 :
  Decrypt.cleanup_temp_files σ = Return () σ2 →
  (Decrypt.temp_dir σ = None →
   fs (Decrypt.the_world σ2) = fs (Decrypt.the_world σ))
  ∧ (decrypt_temp_made P σ →
     nothing_inside (tmp_name P) (fs (Decrypt.the_world σ2))).
Proof.
  destruct σ as [rcp ef td ak ks rk ts vpk [f con dia lg]].
  unfold Decrypt.cleanup_temp_files, Os.exists_, Os.rmtree, decrypt_temp_made. munfold.
  cbn. destruct td as [d|]; [|intros [= <-]; split; [done | by intros [? _]]].
  case_bool_decide as Hex; cbn; intros [= <-]; cbn; (split; [done|]).
  - intros [[= ->] _] p x [_ Hp]%map_lookup_filter_Some. exact Hp.
  - intros [[= ->] Hsome]. done.
Qed.

Lemma frame_run : keeps (decrypt_frame P) (Decrypt.run P).
Proof.
  unfold Decrypt.run. apply keeps_try_finally; [apply _ | |].
  - apply keeps_try_except; [apply _ | apply keeps_frame, safe_session_body |].
    intros e k Hk. apply keeps_frame. destruct e; simplify_eq; apply safe_lift; quiet.
  - apply keeps_bind; [apply _ | apply frame_cleanup_temp_files |].
    intros _. apply keeps_frame, safe_wait_for_keypress.
Qed.

(** When the [try] block of a whole session is left, either nothing has
    been done to the files and no temporary directory was made, or the
    temporary directory is there. *)
Lemma session_body_temp w :
  let σ1 := final (Decrypt.session_body P (Decrypt.init w)) in
  (Decrypt.temp_dir σ1 = None ∧ fs (Decrypt.the_world σ1) = fs w)
  ∨ decrypt_temp_made P σ1.
Proof.
  unfold Decrypt.session_body. cbv zeta. rewrite bind_final.
  destruct (reader_set_up_paths_and_validation decrypt_quiet quiet_world quiet_field P
              (Decrypt.init w)) as [Ht Hf].
  destruct (Decrypt.set_up_paths_and_validation P (Decrypt.init w))
    as [[] σ0|e σ0|σ0]; cbn in Ht, Hf; [|by left..].
  right. rewrite bind_final.
  pose proof (safe_set_up_temp_directory σ0) as [_ Hmade0].
  assert (Hm : decrypt_temp_made P (final (Decrypt.set_up_temp_directory P σ0))).
  { unfold Decrypt.set_up_temp_directory, Os.mkdtemp, decrypt_temp_made. munfold.
    destruct σ0 as [rcp ef td ak ks rk ts vpk [f con dia lg]]; simpl.
    split; [done | by rewrite lookup_insert_eq]. }
  destruct (Decrypt.set_up_temp_directory P σ0) as [[] σm|e σm|σm]; cbn in Hm;
    [|done..].
  match goal with
  | |- decrypt_temp_made P (final (?rest σm)) =>
      assert (keeps (decrypt_safe P) rest) as Hrest by keep
  end.
  by apply Hrest.
Qed.

End DecryptFrame.

(** ** The decryptor and the files it finds *)

(** X1.  Whatever the decryptor does, a file that is not inside its temporary
    directory is still there with its content when it ends, and outside
    that directory and the desktop folder nothing is created, changed or
    removed. *)
Theorem decryptor_touches_only_its_output (P : platform) (w : world) :
  let σ' := final (Decrypt.main P w) in
  (∀ p x, fs w !! p = Some x → Os.inside (tmp_name P) p = false →
          fs (Decrypt.the_world σ') !! p = Some x)
  ∧ (∀ p, Os.inside (tmp_name P) p = false →
          String.prefix (Decrypt.desktop P +:+ "/") p = false →
          fs (Decrypt.the_world σ') !! p = fs w !! p).
Proof.
  destruct (frame_run P (Decrypt.init w)) as (_ & Ha & Hb); [by left|].
  split; [exact Ha | exact Hb].
Qed.

(** X2.  When the temporary directory and what is inside it are not there at
    the start, they are not there when the decryptor ends, however it
    ends. *)
Theorem decryptor_leaves_no_temporary_file (P : platform) (w : world) :
  nothing_inside (tmp_name P) (fs w) →
  match Decrypt.main P w with
  | Return _ σ' | Raise _ σ' => nothing_inside (tmp_name P) (fs (Decrypt.the_world σ'))
  | Blocked _ => True
  end.
Proof.
  intros Hfresh. unfold Decrypt.main.
  pose proof (session_body_temp P w) as Hbody. cbv zeta in Hbody.
  destruct (Decrypt.session_body P (Decrypt.init w)) as [[] σ1|e σ1|σ1] eqn:Hb.
  3:{ unfold Decrypt.run, try_finally, try_except. by rewrite Hb. }
  all: edestruct (decrypt_teardown P (Decrypt.init w) σ1)
         as (σ1' & σ2 & Hrep & Hclean & _ & Hrun);
       [first [by left; eexists | by right; eexists]|].
  all: rewrite Hrun; cbn in Hbody.
  all: destruct (cleanup_removes_all P σ1' σ2 Hclean) as [Hnone Hmade].
  all: assert (Hσ2 : nothing_inside (tmp_name P) (fs (Decrypt.the_world σ2)));
    [ destruct Hbody as [[Ht Hf]|[Ht Hsome]];
      [ rewrite Hnone; [|destruct Hrep as [->|[text ->]]; by destruct σ1];
        destruct Hrep as [->|[text ->]]; destruct σ1; cbn in *; by rewrite Hf
      | apply Hmade; destruct Hrep as [->|[text ->]]; destruct σ1; by split ]
    | ].
  all: destruct (reader_wait_for_keypress decrypt_quiet quiet_world
                   "Press Enter to exit..." σ2) as [_ Hw].
  all: destruct (Decrypt.wait_for_keypress _ σ2) as [[] σ3|e3 σ3|σ3]; cbn in Hw;
    [by rewrite Hw.. | done].
Qed.

Lemma decryptor_leaves_no_temporary_file_witness :
  nothing_inside (tmp_name Demo.P) (fs Demo.scenario_d)
  ∧ match Decrypt.main Demo.P Demo.scenario_d with
    | Return _ σ' | Raise _ σ' =>
        nothing_inside (tmp_name Demo.P) (fs (Decrypt.the_world σ'))
    | Blocked _ => True
    end.
Proof.
  assert (H : nothing_inside (tmp_name Demo.P) (fs Demo.scenario_d)).
  { unfold nothing_inside. refine (bool_decide_unpack _ _). vm_compute. exact I. }
  split; [exact H|]. exact (decryptor_leaves_no_temporary_file Demo.P Demo.scenario_d H).
Defined.

(** X3.  The collection loop only reads: the files and the temporary
    directory of the session are the same when it is left, however it is
    left. *)
Theorem collection_loop_reads_only (P : platform) fuel l σ :
  let σ' := final (Decrypt.finish (Decrypt.collect P fuel l σ)) in
  fs (Decrypt.the_world σ') = fs (Decrypt.the_world σ)
  ∧ Decrypt.temp_dir σ' = Decrypt.temp_dir σ.
Proof.
  destruct (reader_collect decrypt_quiet quiet_world quiet_field P fuel l σ) as [H1 H2].
  by split.
Qed.

Lemma bind_Return {S A B} (c : M S A) (k : A → M S B) s b s' :
  (c ≫= k) s = Return b s' →
  ∃ a s1, c s = Return a s1 ∧ k a s1 = Return b s'.
Proof.
  unfold mbind, M_bind, bind. destruct (c s) as [a s1|e s1|s1]; [eauto | done | done].
Qed.

(** ** The prompts of the encryptor *)

Lemma ask_number_spec min_val max_val : ∀ fuel σ,
  (List.length (console (Encrypt.the_world σ)) < fuel)%nat →
  match Encrypt.ask_number fuel min_val max_val σ with
  | Return value _ => min_val ≤ value ≤ max_val
  | Raise e _ => e = PyException "EOFError" "EOF when reading a line"
  | Blocked σ' => console (Encrypt.the_world σ') = []
  end.
Proof.
  induction fuel as [|fuel IH]; intros σ Hf; [lia|].
  destruct σ as [rcp sf td st [f con dia lg]]; cbn in Hf.
  destruct con as [|[answer| |] cs]; cbn [Encrypt.ask_number];
    unfold Os.input, Os.print; munfold; cbn.
  - done.
  - destruct (Py.isdigit (Py.strip answer)); cbn.
    + destruct (Py.int (Py.strip answer)) as [value|]; cbn.
      * destruct (andb _ _) eqn:Hr; cbn.
        -- apply andb_true_iff in Hr as [H1 H2]. lia.
        -- apply IH. cbn in *. lia.
      * apply IH. cbn in *. lia.
    + apply IH. cbn in *. lia.
  - apply IH. cbn in *. lia.
  - done.
Qed.

(** X4.  The numeric prompt answers with a number within its bounds; only
    a closed console ends it, and an interrupt does not. *)
Theorem numeric_input_within_bounds min_val max_val σ :
  match Encrypt.get_numeric_input min_val max_val σ with
  | Return value _ => min_val ≤ value ≤ max_val
  | Raise e _ => e = PyException "EOFError" "EOF when reading a line"
  | Blocked σ' => console (Encrypt.the_world σ') = []
  end.
Proof. apply ask_number_spec. unfold Encrypt.turns. lia. Qed.

Lemma ask_choice_spec : ∀ fuel σ,
  (List.length (console (Encrypt.the_world σ)) < fuel)%nat →
  match Encrypt.ask_choice fuel σ with
  | Return choice σ' =>
      (choice = "1" ∨ choice = "2")
      ∧ Encrypt.current_step σ' = Encrypt.current_step σ
  | Raise e _ =>
      e = KeyboardInterrupt ∨ e = PyException "EOFError" "EOF when reading a line"
  | Blocked σ' => console (Encrypt.the_world σ') = []
  end.
Proof.
  induction fuel as [|fuel IH]; intros σ Hf; [lia|].
  destruct σ as [rcp sf td st [f con dia lg]]; cbn in Hf.
  destruct con as [|[answer| |] cs]; cbn [Encrypt.ask_choice];
    unfold Os.input, Os.print; munfold; cbn; auto.
  destruct (String.eqb_spec (Py.strip answer) "1") as [->|_]; cbn; [auto|].
  destruct (String.eqb_spec (Py.strip answer) "2") as [->|_]; cbn; [auto|].
  match goal with
  | |- context [Encrypt.ask_choice fuel ?s] => specialize (IH s)
  end.
  cbn in IH. apply IH. cbn in Hf. lia.
Qed.

(** X5.  The menu answers with one of its two choices and counts one step; an
    interrupt ends it. *)
Theorem key_configuration_is_a_choice σ :
  match Encrypt.get_key_configuration σ with
  | Return choice σ' =>
      (choice = "1" ∨ choice = "2")
      ∧ Encrypt.current_step σ' = Encrypt.current_step σ + 1
  | Raise e _ =>
      e = KeyboardInterrupt ∨ e = PyException "EOFError" "EOF when reading a line"
  | Blocked σ' => console (Encrypt.the_world σ') = []
  end.
Proof.
  set (σ1 := Encrypt.with_current_step (Encrypt.current_step σ + 1) σ).
  change (Encrypt.get_key_configuration σ)
    with (Encrypt.ask_choice (Encrypt.turns σ1) σ1).
  pose proof (ask_choice_spec (Encrypt.turns σ1) σ1) as H.
  destruct (Encrypt.ask_choice _ σ1) as [c s'|e s'|s']; apply H;
    unfold Encrypt.turns; lia.
Qed.

Lemma ask_key_names_length : ∀ n i σ names σ',
  Encrypt.ask_key_names n i σ = Return names σ' →
  List.length names = n
  ∧ Encrypt.recipients_config_path σ' = Encrypt.recipients_config_path σ.
Proof.
  induction n as [|n IH]; intros i σ names σ' H; cbn in H.
  - by injection H as <- <-.
  - apply bind_Return in H as (answer & σ1 & Hin & H).
    apply bind_Return in H as (rest & σ2 & Hrest & H).
    injection H as <- <-. apply IH in Hrest as [Hlen Hp]. cbn. rewrite Hlen, Hp.
    split; [done|]. unfold Encrypt.lift in Hin.
    destruct (Os.input _); simplify_eq. by destruct σ.
Qed.

(** ** New keys *)

Lemma generate_age_key_returns P i σ key_data σ' :
  Encrypt.generate_age_key P i σ = Return key_data σ' →
  ∃ process,
    age_keygen_new P i = Ran process ∧ returncode process = 0
    ∧ Encrypt.key_output key_data = stdout process
    ∧ key_shape (Encrypt.public_key key_data)
    ∧ (∃ before after,
         stdout process = before +:+ "# public key: "
                          +:+ Encrypt.public_key key_data +:+ after)
    ∧ (∃ tail before after,
         Encrypt.secret_key key_data = "AGE-SECRET-KEY-" +:+ tail ∧ tail ≠ ""
         ∧ Py.all_chars Re.nonspace tail = true
         ∧ stdout process = before +:+ Encrypt.secret_key key_data +:+ after)
    ∧ σ' = Encrypt.with_world
             (emit (Popen [Encrypt.age_keygen_path P]) (Encrypt.the_world σ)) σ.
Proof.
  destruct σ as [rcp sf td st [f con dia lg]].
  unfold Encrypt.generate_age_key, Os.popen. munfold. cbn. intros H. crunch H.
  injection H as <- <-.
  match goal with H : negb _ = false |- _ => apply negb_false_iff, Z.eqb_eq in H end.
  eexists. split; [done|]. cbn.
  match goal with
  | Hp : Re.search false Re.keygen_public_re _ = Some _,
    Hs : Re.search false Re.keygen_secret_re _ = Some _ |- _ =>
      apply keygen_public_shape in Hp as [Hp1 Hp2];
      apply keygen_secret_shape in Hs
  end.
  split_and!; done.
Qed.

Lemma key_file_path_inj P : Inj (=) (=) (key_file_path P).
Proof.
  intros a b H. unfold key_file_path, Os.join in H.
  repeat apply (inj (String.app _)) in H.
  by apply string_app_inv_tail in H.
Qed.

Lemma key_file_path_not_dir P name : key_file_path P name ≠ Encrypt.keys_dir P.
Proof.
  intros H. apply (f_equal String.length) in H.
  unfold key_file_path, Os.join in H. rewrite !length_app_string in H.
  simpl in H. lia.
Qed.

Lemma save_key_file_returns P key_content key_name σ p σ' :
  Encrypt.save_key_file key_content key_name (Encrypt.keys_dir P) σ = Return p σ' →
  p = key_file_path P key_name
  ∧ Encrypt.recipients_config_path σ' = Encrypt.recipients_config_path σ
  ∧ fs (Encrypt.the_world σ')
    = <[key_file_path P key_name := File key_content]>
        (<[Encrypt.keys_dir P := Dir]> (fs (Encrypt.the_world σ))).
Proof.
  destruct σ as [rcp sf td st [f con dia lg]].
  unfold Encrypt.save_key_file, Os.mkdir, Os.write_text. munfold. cbn.
  intros H. crunch H. all: by injection H as <- <-.
Qed.

(** The loop that makes the key files: one public key for each name, in
    order; of the files, the one of a name holds the output of the last key
    made under that name. *)
Lemma generate_identities_returns P : ∀ key_names i σ public_keys σ',
  Encrypt.generate_identities P key_names i σ = Return public_keys σ' →
  List.length public_keys = List.length key_names
  ∧ Forall key_shape public_keys
  ∧ Encrypt.recipients_config_path σ' = Encrypt.recipients_config_path σ
  ∧ (∀ p, p ≠ Encrypt.keys_dir P →
          (∀ name, name ∈ key_names → p ≠ key_file_path P name) →
          fs (Encrypt.the_world σ') !! p = fs (Encrypt.the_world σ) !! p)
  ∧ (∀ j name, key_names !! j = Some name →
       (∀ j', (j < j')%nat → key_names !! j' ≠ Some name) →
       ∃ process public_key,
         age_keygen_new P (i + j) = Ran process
         ∧ fs (Encrypt.the_world σ') !! key_file_path P name
           = Some (File (stdout process))
         ∧ public_keys !! j = Some public_key
         ∧ ∃ before after,
             stdout process = before +:+ "# public key: " +:+ public_key +:+ after).
Proof.
  induction key_names as [|name key_names IH]; intros i σ public_keys σ' H;
    cbn [Encrypt.generate_identities] in H.
  - injection H as <- <-. split_and!; done.
  - apply bind_Return in H as (key_data & σ1 & Hkey & H).
    apply bind_Return in H as (path & σ2 & Hsave & H).
    apply bind_Return in H as (rest & σ3 & Hrest & H).
    injection H as <- <-.
    apply generate_age_key_returns in Hkey
      as (process & Hgen & Hrc & Hout & Hshape & Hpub & _ & ->).
    apply save_key_file_returns in Hsave as (-> & Hp2 & Hfs2).
    apply IH in Hrest as (Hlen & Hall & Hp3 & Hframe & Hfiles).
    split_and!.
    + cbn. by rewrite Hlen.
    + by constructor.
    + rewrite Hp3, Hp2. by destruct σ.
    + intros p Hdir Hnames. rewrite Hframe.
      * rewrite Hfs2, !lookup_insert_ne; [by destruct σ | done |].
        intros Heq. apply (Hnames name); [by left | done].
      * done.
      * intros n Hn. apply Hnames. by right.
    + intros [|j] n Hj Hlast.
      * injection Hj as ->. exists process, (Encrypt.public_key key_data).
        replace (i + 0)%nat with i by lia. split_and!; [done | | done | done].
        rewrite Hframe.
        -- rewrite Hfs2, lookup_insert_eq. by rewrite Hout.
        -- apply key_file_path_not_dir.
        -- intros m Hm Heq. apply key_file_path_inj in Heq as <-.
           apply list_elem_of_lookup in Hm as [j' Hj'].
           apply (Hlast (S j')); [lia | done].
      * destruct (Hfiles j n Hj) as (process' & key & Hgen' & Hfile & Hkeyj & Hin).
        { intros j' Hlt. apply (Hlast (S j')). lia. }
        exists process', key. replace (i + S j)%nat with (S i + j)%nat by lia.
        split_and!; done.
Qed.

Lemma get_numeric_input_returns min_val max_val σ value σ' :
  Encrypt.get_numeric_input min_val max_val σ = Return value σ' →
  min_val ≤ value ≤ max_val.
Proof.
  intros H. pose proof (ask_number_spec min_val max_val (Encrypt.turns σ) σ) as Hs.
  unfold Encrypt.get_numeric_input in H. rewrite H in Hs. apply Hs.
  unfold Encrypt.turns. lia.
Qed.

(** What the making of new keys leaves at the policy path. *)
Lemma handle_new_key_generation_returns P σ path σ' :
  Encrypt.handle_new_key_generation P σ = Return path σ' →
  ∃ threshold public_keys,
    fs (Encrypt.the_world σ') !! path
      = Some (File (policy_content threshold public_keys))
    ∧ 1 ≤ threshold ≤ Z.of_nat (List.length public_keys)
    ∧ Z.of_nat (List.length public_keys) ≤ 10
    ∧ Forall key_shape public_keys.
Proof.
  intros H. unfold Encrypt.handle_new_key_generation in H.
  apply bind_Return in H as (num_identities & σ1 & Hn & H).
  apply bind_Return in H as (threshold & σ2 & Ht & H).
  apply bind_Return in H as (key_names & σ3 & Hnames & H).
  apply bind_Return in H as (public_keys & σ4 & Hkeys & H).
  apply bind_Return in H as (p & σ5 & Hpath & H).
  apply bind_Return in H as (p' & σ6 & Hconfig & H).
  injection H as <- <-.
  apply get_numeric_input_returns in Hn, Ht.
  apply ask_key_names_length in Hnames as [Hlen _].
  apply generate_identities_returns in Hkeys as (Hlen' & Hshape & _).
  apply generate_key_config_writes in Hconfig as [-> Hfs].
  exists threshold, public_keys. rewrite Hfs, lookup_insert_eq.
  rewrite Hlen', Hlen. split_and!; try done; lia.
Qed.

(** X6.  A policy made with new keys is read back by the loader of the
    decryptor: the threshold and the keys are those that were written, and
    the threshold is between one and the number of keys. *)
Theorem new_policy_is_read_back (P : platform) σ path σ' :
  Encrypt.handle_new_key_generation P σ = Return path σ' →
  ∃ threshold public_keys,
    fs (Encrypt.the_world σ') !! path
      = Some (File (policy_content threshold public_keys))
    ∧ 1 ≤ threshold ≤ Z.of_nat (List.length public_keys)
    ∧ Z.of_nat (List.length public_keys) ≤ 10
    ∧ Forall key_shape public_keys
    ∧ ∀ σd, Decrypt.recipient_config_path σd = Some path →
        fs (Decrypt.the_world σd) !! path = fs (Encrypt.the_world σ') !! path →
        Decrypt.get_recipient_config σd
        = Return {| Decrypt.threshold := threshold;
                    Decrypt.total := Z.of_nat (List.length public_keys);
                    Decrypt.recipient_public_keys := public_keys |}
            (Decrypt.with_world (emit (ReadText path) (Decrypt.the_world σd)) σd).
Proof.
  intros H.
  apply handle_new_key_generation_returns in H
    as (threshold & public_keys & Hfile & Ht & Hn & Hshape).
  exists threshold, public_keys. split_and!; [done | lia | lia | lia | done |].
  intros σd Hp Hsame. apply loader_reads_policy.
  - lia.
  - apply str_short. lia.
  - intros ->. cbn in Ht. lia.
  - done.
  - done.
  - congruence.
Qed.

Lemma new_policy_is_read_back_witness :
  ∃ threshold public_keys,
    fs (Encrypt.the_world
          (final (Encrypt.handle_new_key_generation Demo.P Sample.making_keys)))
      !! "/legacy/internals/encrypted/recipients.yaml"
    = Some (File (policy_content threshold public_keys))
    ∧ 1 ≤ threshold ≤ Z.of_nat (List.length public_keys)
    ∧ Forall key_shape public_keys.
Proof.
  assert (Hrun : result (Encrypt.handle_new_key_generation Demo.P Sample.making_keys)
                 = Some "/legacy/internals/encrypted/recipients.yaml")
    by (vm_compute; reflexivity).
  destruct (new_policy_is_read_back Demo.P Sample.making_keys _ _ (result_Some _ _ Hrun))
    as (threshold & public_keys & Hf & Ht & _ & Hk & _).
  exists threshold, public_keys. split; [exact Hf|]. split; [exact Ht | exact Hk].
Defined.

(** X7.  The policy [generate_key_config] writes is read back by the loader,
    when the digits of the threshold are not more than [int] converts. *)
Theorem written_policy_is_read_back threshold public_keys path σ p σ' σd :
  Encrypt.generate_key_config threshold public_keys path σ = Return p σ' →
  0 ≤ threshold →
  Z.of_nat (String.length (Py.str threshold)) ≤ Py.int_max_str_digits →
  public_keys ≠ [] → Forall key_shape public_keys →
  Decrypt.recipient_config_path σd = Some path →
  fs (Decrypt.the_world σd) !! path = fs (Encrypt.the_world σ') !! path →
  Decrypt.get_recipient_config σd
  = Return {| Decrypt.threshold := threshold;
              Decrypt.total := Z.of_nat (List.length public_keys);
              Decrypt.recipient_public_keys := public_keys |}
      (Decrypt.with_world (emit (ReadText path) (Decrypt.the_world σd)) σd).
Proof.
  intros H Ht Hlen Hne Hshape Hp Hsame.
  apply generate_key_config_writes in H as [-> Hfs].
  apply loader_reads_policy; try done.
  by rewrite Hsame, Hfs, lookup_insert_eq.
Qed.

Lemma written_policy_is_read_back_witness :
  Decrypt.get_recipient_config
    (Decrypt.with_recipient_config_path
       (Some "/legacy/internals/encrypted/recipients.yaml")
       (Decrypt.init
          (Encrypt.the_world
             (final (Encrypt.generate_key_config 2 ["age1aaa"; "age1bbb"; "age1ccc"]
                       "/legacy/internals/encrypted/recipients.yaml"
                       (Encrypt.init Demo.unconfigured))))))
  = Return {| Decrypt.threshold := 2; Decrypt.total := 3;
              Decrypt.recipient_public_keys := ["age1aaa"; "age1bbb"; "age1ccc"] |}
      (Decrypt.with_world
         (emit (ReadText "/legacy/internals/encrypted/recipients.yaml")
            (Encrypt.the_world
               (final (Encrypt.generate_key_config 2 ["age1aaa"; "age1bbb"; "age1ccc"]
                         "/legacy/internals/encrypted/recipients.yaml"
                         (Encrypt.init Demo.unconfigured)))))
         (Decrypt.with_recipient_config_path
            (Some "/legacy/internals/encrypted/recipients.yaml")
            (Decrypt.init
               (Encrypt.the_world
                  (final (Encrypt.generate_key_config 2 ["age1aaa"; "age1bbb"; "age1ccc"]
                            "/legacy/internals/encrypted/recipients.yaml"
                            (Encrypt.init Demo.unconfigured))))))).
Proof.
  assert (Hrun : result (Encrypt.generate_key_config 2 ["age1aaa"; "age1bbb"; "age1ccc"]
                           "/legacy/internals/encrypted/recipients.yaml"
                           (Encrypt.init Demo.unconfigured))
                 = Some "/legacy/internals/encrypted/recipients.yaml")
    by (vm_compute; reflexivity).
  assert (Hlen : Z.of_nat (String.length (Py.str 2)) ≤ Py.int_max_str_digits)
    by (apply Z.leb_le; vm_compute; reflexivity).
  assert (Hkeys : Forall key_shape ["age1aaa"; "age1bbb"; "age1ccc"]).
  { repeat constructor.
    - exists "aaa". split_and!; [reflexivity | discriminate | vm_compute; reflexivity].
    - exists "bbb". split_and!; [reflexivity | discriminate | vm_compute; reflexivity].
    - exists "ccc". split_and!; [reflexivity | discriminate | vm_compute; reflexivity]. }
  exact (written_policy_is_read_back 2 ["age1aaa"; "age1bbb"; "age1ccc"]
           "/legacy/internals/encrypted/recipients.yaml"
           (Encrypt.init Demo.unconfigured)
           "/legacy/internals/encrypted/recipients.yaml" _
           (Decrypt.with_recipient_config_path
              (Some "/legacy/internals/encrypted/recipients.yaml")
              (Decrypt.init
                 (Encrypt.the_world
                    (final (Encrypt.generate_key_config 2
                              ["age1aaa"; "age1bbb"; "age1ccc"]
                              "/legacy/internals/encrypted/recipients.yaml"
                              (Encrypt.init Demo.unconfigured))))))
           (result_Some _ _ Hrun) ltac:(lia) Hlen ltac:(discriminate) Hkeys
           eq_refl eq_refl).
Defined.

(** ** The checks of a candidate key *)

(** X8.  The secret key of a key file is a whole line of the file, the marker
    followed by letters A to Z and digits; the function never answers
    [None], and a file that cannot be read is a [DecryptionError]. *)
Theorem secret_key_is_a_whole_line key_path σ :
  match Decrypt.get_secret_key_from_file key_path σ with
  | Return secret_key _ =>
      ∃ key_content secret body before after,
        fs (Decrypt.the_world σ) !! key_path = Some (File key_content)
        ∧ secret_key = Some secret
        ∧ secret = "AGE-SECRET-KEY-" +:+ body ∧ body ≠ ""
        ∧ Py.all_chars Re.upper_or_digit body = true
        ∧ key_content = before +:+ secret +:+ after
        ∧ (before = "" ∨ ∃ b, before = b +:+ Py.nl)
        ∧ (after = "" ∨ ∃ a, after = Py.nl +:+ a)
  | Raise e _ => ∃ msg, e = DecryptionError msg
  | Blocked _ => False
  end.
Proof.
  destruct (Decrypt.get_secret_key_from_file key_path σ) as [r σ'|e σ'|σ'] eqn:H.
  all: destruct σ as [rcp ef td ak ks rk ts vpk [f con dia lg]].
  all: unfold Decrypt.get_secret_key_from_file, Decrypt.test_secret_key_format,
         Os.read_text in H; munfold; cbn in H; crunch H.
  all: try (injection H as <- <-); try (by eexists).
  match goal with
  | Hb : negb (bool_decide (is_Some (Re.search true _ ?c))) = false |- _ =>
      apply negb_false_iff, bool_decide_eq_true in Hb as [mo Hs];
      destruct (secret_key_shape c mo Hs)
        as (body & before & after & Hg & Hne & Hall & Hc & Hb & Ha);
      exists c, (Re.group mo), body, before, after; cbn; rewrite Hs
  end.
  by split_and!.
Qed.

(** X9.  The public key derived from a secret is [age1] followed by lower-case
    letters and digits and nothing else, it is what the tool printed
    without the white space around it, and the tool ended with code 0. *)
Theorem derived_public_key_is_well_formed (P : platform) secret_key σ :
  match Decrypt.get_public_key_from_secret P secret_key σ with
  | Return public_key σ' =>
      ∃ body process,
        public_key = "age1" +:+ body ∧ body ≠ ""
        ∧ Py.all_chars Re.lower_or_digit body = true
        ∧ age_keygen P [Decrypt.age_keygen_path P; "-y"] (default "" secret_key)
          = Ran process
        ∧ returncode process = 0
        ∧ public_key = Py.strip (stdout process)
        ∧ fs (Decrypt.the_world σ') = fs (Decrypt.the_world σ)
  | Raise e _ => (∃ msg, e = DecryptionError msg) ∨ (∃ msg, e = PyException "OSError" msg)
  | Blocked _ => False
  end.
Proof.
  destruct (Decrypt.get_public_key_from_secret P secret_key σ) as [r σ'|e σ'|σ'] eqn:H.
  all: destruct σ as [rcp ef td ak ks rk ts vpk [f con dia lg]].
  all: unfold Decrypt.get_public_key_from_secret, Decrypt.test_public_key_format,
         Os.exists_, Os.popen in H; munfold; cbn in H; crunch H.
  all: try (injection H as <- <-); try (by left; eexists); try (by right; eexists).
  repeat match goal with
         | H : negb _ = false |- _ => apply negb_false_iff in H
         | H : (_ =? _) = true |- _ => apply Z.eqb_eq in H
         | H : bool_decide (is_Some _) = true |- _ =>
             apply bool_decide_eq_true in H
         end.
  match goal with
  | Hm : is_Some (Re.match_ _ (Py.strip (stdout ?c))) |- _ =>
      destruct Hm as [mo Hm];
      apply public_key_shape in Hm as (body & Hne & Hall & [Hpk|Hpk]);
      [exists body, c; by split_and!
      |exfalso; by apply (strip_no_trailing_nl (stdout c) ("age1" +:+ body));
       rewrite app_assoc_string]
  end.
Qed.

(** ** More about the collection loop *)

(** What an accepted candidate changes. *)
Lemma iteration_accepted_state P l σ l' p r σ' :
  Decrypt.iteration P l σ = Return (l', Decrypt.KeyAccepted p r) σ' →
  ∃ key_content,
    fs (Decrypt.the_world σ) !! p = Some (File key_content)
    ∧ Decrypt.key_secrets σ'
      = Decrypt.key_secrets σ
        ++ [Re.group <$> Re.search true Re.secret_key_re key_content]
    ∧ Decrypt.attempted_keys σ' = <[p := true]> (Decrypt.attempted_keys σ)
    ∧ Decrypt.valid_public_keys σ' = Decrypt.valid_public_keys σ
    ∧ fs (Decrypt.the_world σ') = fs (Decrypt.the_world σ).
Proof.
  destruct σ as [rcp ef td ak ks rk ts vpk [f con dia lg]].
  unfold_turn. cbn. intros H. crunch H.
  all: injection H as <- <- <- <-; cbn; eexists; split_and!; eauto.
Qed.

(** No [DecryptionError] leaves a turn of the loop. *)
Lemma iteration_raises P l σ e σ' :
  Decrypt.iteration P l σ = Raise e σ' → ∀ msg, e ≠ DecryptionError msg.
Proof.
  destruct σ as [rcp ef td ak ks rk ts vpk [f con dia lg]].
  unfold_turn. cbn. intros H. crunch H.
  all: injection H as <- <-; done.
Qed.

(** X10.  The loop is left by the quorum or by something that is not a
    [DecryptionError]: an interrupt, a closed console, the tool that cannot
    be started, a banner that does not fit. *)
Theorem loop_is_not_left_by_a_decryption_error (P : platform) : ∀ fuel l σ,
  match Decrypt.finish (Decrypt.collect P fuel l σ) with
  | Return l' σ' => Decrypt.required_key_count σ' ≤ Decrypt.valid_key_count l'
  | Raise e _ => ∀ msg, e ≠ DecryptionError msg
  | Blocked _ => True
  end.
Proof.
  induction fuel as [|fuel IH]; intros l σ.
  - cbn. destruct (Z.ltb_spec (Decrypt.valid_key_count l) (Decrypt.required_key_count σ));
      cbn; [done | lia].
  - rewrite collect_S.
    destruct (Z.ltb_spec (Decrypt.valid_key_count l) (Decrypt.required_key_count σ));
      [|cbn; lia].
    destruct (Decrypt.iteration P l σ) as [[l' v] σ'|e σ'|σ'] eqn:Hit; cbn.
    + apply IH.
    + by eapply iteration_raises.
    + done.
Qed.

Lemma accepted_secret_well_formed P σ p key_content :
  passes_all_checks P σ p →
  fs (Decrypt.the_world σ) !! p = Some (File key_content) →
  well_formed_secret (Re.group <$> Re.search true Re.secret_key_re key_content).
Proof.
  intros (_ & content & process & Hf & Hfmt & _) Hp.
  rewrite Hf in Hp. injection Hp as ->.
  unfold Decrypt.test_secret_key_format in Hfmt.
  apply bool_decide_eq_true in Hfmt as [mo Hs]. rewrite Hs. cbn.
  apply secret_key_shape in Hs as (body & _ & _ & -> & Hne & Hall & _).
  by exists body.
Qed.

(** What one turn does to the records of the session. *)
Lemma iteration_records P l σ l' v σ' :
  Decrypt.iteration P l σ = Return (l', v) σ' →
  (∀ p b, Decrypt.attempted_keys σ !! p = Some b →
          Decrypt.attempted_keys σ' !! p = Some b)
  ∧ ∃ new, Decrypt.key_secrets σ' = Decrypt.key_secrets σ ++ new
           ∧ Forall well_formed_secret new.
Proof.
  intros H. pose proof (iteration_return P l σ l' v σ' H) as [(_ & _ & _ & Hv) _].
  destruct v.
  5:{ pose proof (key_accepted_sound _ _ _ _ _ _ _ H) as Hpass.
      apply iteration_accepted_state in H as (content & Hf & Hks & Ha & _).
      split.
      - intros p b Hp. rewrite Ha, lookup_insert_ne; [done|].
        intros <-. destruct Hpass as [Hnone _]. congruence.
      - eexists. split; [exact Hks|]. constructor; [|done].
        by eapply accepted_secret_well_formed. }
  all: try destruct Hv as (_ & Hks & Ha).
  all: split; [|exists []; by rewrite app_nil_r].
  all: try (by rewrite Ha).
  all: destruct Ha as (q & Hq & ->); intros p b Hp;
       rewrite lookup_insert_ne; [done | congruence].
Qed.

(** X11.  The loop never forgets: what the ledger holds it keeps, with the same
    answer, and the collected secrets only grow, by well-formed secrets. *)
Theorem loop_keeps_its_records (P : platform) : ∀ fuel l σ,
  let σ' := final (Decrypt.finish (Decrypt.collect P fuel l σ)) in
  (∀ p b, Decrypt.attempted_keys σ !! p = Some b →
          Decrypt.attempted_keys σ' !! p = Some b)
  ∧ ∃ new, Decrypt.key_secrets σ' = Decrypt.key_secrets σ ++ new
           ∧ Forall well_formed_secret new.
Proof.
  assert (Hstay : ∀ σ : Decrypt.session,
    (∀ p b, Decrypt.attempted_keys σ !! p = Some b →
            Decrypt.attempted_keys σ !! p = Some b)
    ∧ ∃ new, Decrypt.key_secrets σ = Decrypt.key_secrets σ ++ new
             ∧ Forall well_formed_secret new).
  { intros σ. split; [done|]. exists []. by rewrite app_nil_r. }
  induction fuel as [|fuel IH]; intros l σ; cbv zeta.
  - cbn. destruct (_ <? _); apply Hstay.
  - rewrite collect_S. destruct (_ <? _); [|apply Hstay].
    pose proof (iteration_escape P l σ) as Hesc.
    destruct (Decrypt.iteration P l σ) as [[l' v] σ1|e σ1|σ1] eqn:Hit; cbn.
    + apply iteration_records in Hit as (Ha & new & Hks & Hnew).
      destruct (IH l' σ1) as (Ha' & new' & Hks' & Hnew'). split.
      * intros p b Hp. by apply Ha', Ha.
      * exists (new ++ new'). rewrite Hks', Hks, app_assoc. split; [done|].
        by apply Forall_app.
    + destruct Hesc as (_ & -> & ->). apply Hstay.
    + destruct Hesc as (_ & -> & ->). apply Hstay.
Qed.

(** X12.  The duplicate check goes by the path alone: after a key file has been
    accepted, a copy of it under another path still passes every check, and
    its secret is the one that was collected. *)
Theorem copy_of_accepted_key_passes (P : platform) l σ l' p r σ' copy :
  Decrypt.iteration P l σ = Return (l', Decrypt.KeyAccepted p r) σ' →
  copy ≠ p →
  Decrypt.attempted_keys σ !! copy = None →
  fs (Decrypt.the_world σ) !! copy = fs (Decrypt.the_world σ) !! p →
  passes_all_checks P σ' copy
  ∧ ∃ key_content,
      fs (Decrypt.the_world σ') !! copy = Some (File key_content)
      ∧ Decrypt.key_secrets σ'
        = Decrypt.key_secrets σ
          ++ [Re.group <$> Re.search true Re.secret_key_re key_content].
Proof.
  intros H Hne Hnew Hsame.
  pose proof (key_accepted_sound _ _ _ _ _ _ _ H)
    as (_ & content & process & Hf & Hfmt & Hex & Hgen & He1 & He2 & Hrc & Hpk & Hin).
  apply iteration_accepted_state in H as (content' & Hf' & Hks & Ha & Hvpk & Hfs).
  rewrite Hf in Hf'. injection Hf' as <-.
  split.
  - split; [rewrite Ha, lookup_insert_ne; done|].
    exists content, process. rewrite Hfs, Hvpk, Hsame. by split_and!.
  - exists content. rewrite Hfs, Hsame. by split.
Qed.

Lemma copy_of_accepted_key_passes_witness :
  passes_all_checks Demo.P
    (final (Decrypt.iteration Demo.P (loop_entry 2) Sample.with_copy))
    "/keys/a (copy).yaml".
Proof.
  assert (Hrun : result (Decrypt.iteration Demo.P (loop_entry 2) Sample.with_copy)
                 = Some ({| Decrypt.valid_key_count := 1; Decrypt.current_key_number := 2;
                            Decrypt.current_step := 3; Decrypt.total_steps := 5 |},
                         Decrypt.KeyAccepted "/keys/a.yaml" 1))
    by (vm_compute; reflexivity).
  assert (Hnew : Decrypt.attempted_keys Sample.with_copy !! "/keys/a (copy).yaml" = None)
    by (vm_compute; reflexivity).
  assert (Hsame : fs (Decrypt.the_world Sample.with_copy) !! "/keys/a (copy).yaml"
                  = fs (Decrypt.the_world Sample.with_copy) !! "/keys/a.yaml")
    by (vm_compute; reflexivity).
  exact (proj1 (copy_of_accepted_key_passes Demo.P (loop_entry 2) Sample.with_copy
                  _ "/keys/a.yaml" 1 _ "/keys/a (copy).yaml"
                  (result_Some _ _ Hrun) ltac:(discriminate) Hnew Hsame)).
Defined.

(** ** The choice of the file to encrypt *)

(** X13.  The file that is chosen has a name and not the extension [.age]; apart
    from an interrupt, what is raised is an [EncryptionError] or the error of
    the dialog itself when its text holds one of the two phrases the handler
    lets through. *)
Theorem source_file_is_not_encrypted (P : platform) σ :
  match Encrypt.get_source_file P σ with
  | Return file_path σ' =>
      file_path ≠ "" ∧ path_suffix P file_path ≠ ".age"
      ∧ fs (Encrypt.the_world σ') = fs (Encrypt.the_world σ)
  | Raise e _ =>
      e = KeyboardInterrupt
      ∨ e = EncryptionError "No file selected"
      ∨ (∃ msg, e = EncryptionError ("File selection failed: " +:+ msg))
      ∨ (∃ msg, e = PyException "TclError" msg
                ∧ Py.contains "No file selected" msg
                  || Py.contains "Operation cancelled" msg = true)
  | Blocked σ' =>
      console (Encrypt.the_world σ') = [] ∨ dialogs (Encrypt.the_world σ') = []
  end.
Proof.
  destruct contains_no_file_selected as (Hc1 & Hc2 & Hc3 & Hc4 & Hc5).
  destruct (Encrypt.get_source_file P σ) as [r σ'|e σ'|σ'] eqn:H.
  all: destruct σ as [rcp sf td st [f con dia lg]].
  all: unfold Encrypt.get_source_file, Os.input, Os.tk_init, Os.askopenfilename,
         Os.print in H; munfold; cbn in H.
  all: rewrite ?Hc1, ?Hc2, ?Hc3, ?Hc4, ?Hc5 in H; cbn in H; crunch H.
  all: try (injection H as <- <-); try (injection H as <-); cbn; auto.
  all: try (split_and!; [by apply String.eqb_neq | by apply String.eqb_neq | done]).
  all: try (exfalso;
            match goal with
            | Hb : _ || _ = true |- _ =>
                rewrite ?Hc2, ?Hc3, ?Hc4, ?Hc5 in Hb; discriminate Hb
            end).
  all: eauto 10.
Qed.

(** X14.  A file with the extension [.age] is refused, and the refusal is
    reported twice: the error raised for it is caught by the handler of the
    function itself and wrapped as a failed selection. *)
Theorem age_file_is_refused (P : platform) σ enter cs file_path ds :
  console (Encrypt.the_world σ) = Line enter :: cs →
  dialogs (Encrypt.the_world σ) = Selected file_path :: ds →
  file_path ≠ "" →
  path_suffix P file_path = ".age" →
  Encrypt.get_source_file P σ
  = Raise (EncryptionError "File selection failed: File already encrypted")
      (Encrypt.with_world
         {| fs := fs (Encrypt.the_world σ); console := cs; dialogs := ds;
            log := log (Encrypt.the_world σ)
                   ++ [Input; Dialog;
                       Printed "Error: Cannot encrypt a file that already has a .age extension.";
                       Printed "Error: Could not select file: File already encrypted"] |}
         σ).
Proof.
  intros Hc Hd Hne Hage.
  destruct contains_no_file_selected as (_ & Hc2 & Hc3 & _).
  destruct σ as [rcp sf td st [f con dia lg]]; cbn in *; subst.
  apply String.eqb_neq in Hne.
  unfold Encrypt.get_source_file, Os.input, Os.tk_init, Os.askopenfilename, Os.print.
  munfold. cbn. rewrite Hne, Hage. cbn. rewrite Hc2, Hc3. cbn.
  unfold Encrypt.with_world, emit, with_console, with_dialogs; cbn.
  by rewrite <- !app_assoc.
Qed.

Lemma age_file_is_refused_witness :
  Encrypt.get_source_file Demo.P Sample.choosing_ciphertext
  = Raise (EncryptionError "File selection failed: File already encrypted")
      (Encrypt.with_world
         {| fs := Demo.files "ciphertext" (Demo.policy_text "2");
            console := []; dialogs := [];
            log := [Input; Dialog;
                    Printed "Error: Cannot encrypt a file that already has a .age extension.";
                    Printed "Error: Could not select file: File already encrypted"] |}
         Sample.choosing_ciphertext).
Proof.
  refine (age_file_is_refused Demo.P Sample.choosing_ciphertext ""
            [] "/legacy/internals/encrypted/will.pdf.age" [] _ _ _ _).
  - reflexivity.
  - reflexivity.
  - discriminate.
  - vm_compute. reflexivity.
Defined.

(** ** The setup of the decryptor *)

(** X15.  Setup succeeds exactly when the three tools are there and the encrypted
    folder holds one ciphertext and one policy, which become the files of
    the session; in every other case it raises a [DecryptionError] that
    begins with the same words, and the world is as it was. *)
Theorem decrypt_setup_outcome (P : platform) σ :
  let w := Decrypt.the_world σ in
  let tools :=
    is_Some (fs w !! Decrypt.age_path P)
    ∧ is_Some (fs w !! Decrypt.age_keygen_path P)
    ∧ is_Some (fs w !! Decrypt.plugin_path P) in
  let encrypted_files := listing (Decrypt.encrypted_dir P) ".age" w in
  let recipients_files := listing (Decrypt.encrypted_dir P) ".yaml" w in
  match Decrypt.set_up_paths_and_validation P σ with
  | Return _ σ' =>
      tools
      ∧ ∃ encrypted_file recipient_config_path,
          encrypted_files = [encrypted_file]
          ∧ recipients_files = [recipient_config_path]
          ∧ σ' = Decrypt.with_recipient_config_path (Some recipient_config_path)
                   (Decrypt.with_encrypted_file (Some encrypted_file) σ)
  | Raise e σ' =>
      (∃ msg, e = DecryptionError ("Missing required files:" +:+ Py.nl +:+ msg))
      ∧ Decrypt.the_world σ' = w
      ∧ ¬ (tools ∧ List.length encrypted_files = 1%nat
           ∧ List.length recipients_files = 1%nat)
  | Blocked _ => False
  end.
Proof.
  destruct σ as [rcp ef td ak ks rk ts vpk [f con dia lg]].
  assert (Hglob : ∀ dir suffix w, Os.glob dir suffix w = Return (listing dir suffix w) w)
    by done.
  unfold Decrypt.set_up_paths_and_validation, Os.exists_. munfold.
  repeat (progress (cbn -[Os.glob listing bool_decide]; rewrite ?Hglob)).
  generalize (listing (Decrypt.encrypted_dir P) ".age"
                {| fs := f; console := con; dialogs := dia; log := lg |}).
  intros ages. cbv zeta.
  destruct ages as [|a1 [|a2 ages]];
    repeat (progress (cbn -[Os.glob listing bool_decide]; rewrite ?Hglob)).
  all: generalize (listing (Decrypt.encrypted_dir P) ".yaml"
                {| fs := f; console := con; dialogs := dia; log := lg |}).
  all: intros yamls.
  all: destruct (decide (is_Some (f !! Decrypt.age_path P))) as [Ha|Ha];
    [rewrite (bool_decide_eq_true_2 _ Ha) | rewrite (bool_decide_eq_false_2 _ Ha)].
  all: destruct (decide (is_Some (f !! Decrypt.age_keygen_path P))) as [Hk|Hk];
    [rewrite (bool_decide_eq_true_2 _ Hk) | rewrite (bool_decide_eq_false_2 _ Hk)].
  all: destruct (decide (is_Some (f !! Decrypt.plugin_path P))) as [Hp|Hp];
    [rewrite (bool_decide_eq_true_2 _ Hp) | rewrite (bool_decide_eq_false_2 _ Hp)].
  all: destruct yamls as [|y1 [|y2 yamls]]; cbn.
  all: try (split_and!; [by eexists | done | intros ((?&?&?)&?&?); cbn in *; by try lia]).
  split; [done|]. by eexists _, _.
Qed.
